(** * Credit-Parser: a shallow embedding of [credit_parser] and its properties

    The development follows the Python package file by file:
    - [Py]: the fragment of the Python runtime the package relies on
      (strings as sequences of code points, exceptions, [str.strip],
      slicing, [str.replace]);
    - [Re]: the fragment of the [re] module the patterns of [parsers.py]
      use, as a backtracking matcher with Python's priorities;
    - [Parsers]: [parsers.py];
    - [Extractor]: [extract.py], over abstract PDF engines;
    - [Orchestrator]: [orchestrator.py];
    - [Main]: the batch driver and the CSV export of [main.py]. *)

From Stdlib Require Import NArith.
From stdpp Require Import gmap strings list sorting.

Set Warnings "-clear-no-such-hyp".

(** ** Python runtime fragment *)

(** A Python [str] is a sequence of Unicode code points. *)
Abbreviation char := N (only parsing).
Abbreviation str := (list N) (only parsing).

Module Py.

(** Decoding of the UTF-8 bytes of a Rocq string literal into code points,
    so that texts are written as they appear in the Python source. *)
Local Open Scope N_scope.

Fixpoint utf8 (bs : list N) : str :=
  match bs with
  | [] => []
  | b0 :: t0 =>
    if b0 <? 128 then b0 :: utf8 t0
    else match t0 with
      | [] => []
      | b1 :: t1 =>
        if b0 <? 224 then ((b0 - 192) * 64 + (b1 - 128)) :: utf8 t1
        else match t1 with
          | [] => []
          | b2 :: t2 =>
            if b0 <? 240
            then ((b0 - 224) * 4096 + (b1 - 128) * 64 + (b2 - 128)) :: utf8 t2
            else match t2 with
              | [] => []
              | b3 :: t3 =>
                ((b0 - 240) * 262144 + (b1 - 128) * 4096
                 + (b2 - 128) * 64 + (b3 - 128)) :: utf8 t3
              end
          end
      end
  end.

Local Close Scope N_scope.

Fixpoint bytes_of (s : string) : list N :=
  match s with
  | EmptyString => []
  | String a s' => Ascii.N_of_ascii a :: bytes_of s'
  end.

Definition lit (s : string) : str := utf8 (bytes_of s).

(** Exception classes that the modelled code can meet; [LibraryError]
    stands for any other class raised inside a third-party library. *)
Inductive exc_class :=
| AttributeError
| ImportError
| PermissionError
| ValueError
| LibraryError (name : string).

(** An exception object: its class, its message, and the exceptions
    chained to it ([__cause__], set by [raise ... from], and
    [__context__], set when raising inside an [except] block). *)
#[warnings="-register-all"]
Inductive exn := Exn {
  exc_class_of : exc_class;
  exc_msg : string;
  exc_cause : option exn;
  exc_context : option exn;
}.

(** [raise C(msg)] outside of any [except] block. *)
Definition new_exn (c : exc_class) (msg : string) : exn :=
  Exn c msg None None.

(** A computation that returns or raises. *)
Inductive res (A : Type) :=
| Ok (a : A)
| Raise (e : exn).
Arguments Ok {A} a.
Arguments Raise {A} e.

#[export] Instance res_ret : MRet res := λ A a, Ok a.
#[export] Instance res_bind : MBind res := λ A B f m,
  match m with
  | Ok a => f a
  | Raise e => Raise e
  end.

(** [o.strip()], [f(o)] ... where [o] is the value of [m.group(n)]: a
    group that did not take part in the match is [None], and using [None]
    as a string raises. *)
Definition as_str (o : option str) : res str :=
  match o with
  | Some s => Ok s
  | None => Raise (new_exn AttributeError "'NoneType' object has no attribute")
  end.

(** [s[a:b]] for [0 <= a <= b]. *)
Definition slice (s : str) (a b : nat) : str := take (b - a) (drop a s).

(** [s[-n:]], the last [n] characters (all of [s] when it is shorter). *)
Definition suffix (n : nat) (s : str) : str := drop (length s - n) s.

Section WithSpace.
Variable isspace : N → bool.

Fixpoint lstrip (s : str) : str :=
  match s with
  | [] => []
  | c :: s' => if isspace c then lstrip s' else s
  end.

Definition rstrip (s : str) : str := reverse (lstrip (reverse s)).

(** [s.strip()] *)
Definition strip (s : str) : str := rstrip (lstrip s).
End WithSpace.

(** [s.replace(old, new)] for a one-character [old]. *)
Definition replace1 (old : N) (new : str) (s : str) : str :=
  mbind (M := list) (λ c, if (c =? old)%N then new else [c]) s.

End Py.
Export Py.

(** ** The [re] fragment *)

Module Re.

(** The Unicode character database behind [re] and [str]: the tables are
    not part of the package, so the matcher takes them as a parameter.
    - [uni_isspace]: [\s] and [str.strip] ([Py_UNICODE_ISSPACE]);
    - [uni_isdecimal]: [\d] (category Nd);
    - [uni_isalnum]: the alphanumeric part of [\w], used by [\b];
    - [uni_ieq c ch]: under [re.IGNORECASE], the pattern character [c]
      matches the text character [ch];
    - [uni_lower]: [str.lower]. *)
Record UCD := {
  uni_isspace : N → bool;
  uni_isdecimal : N → bool;
  uni_isalnum : N → bool;
  uni_ieq : N → N → bool;
  uni_lower : str → str;
}.

(** Compilation flags: [re.IGNORECASE] and [re.DOTALL]. *)
Record flags := { IGNORECASE : bool; DOTALL : bool }.

(** Members of a character set [[...]]. *)
Inductive citem :=
| CLit (c : N)
| CRange (lo hi : N)
| CDigit
| CSpace
| CNotSpace.

(** Abstract syntax of the patterns. [Rep lo hi greedy r] is [r{lo,hi}]
    ([hi = None] for no upper bound), lazy when [greedy] is [false]. *)
Inductive regex :=
| Empty
| Lit (c : N)
| Cset (items : list citem)
| Dot
| Bol
| WordB
| Seq (r1 r2 : regex)
| Alt (r1 r2 : regex)
| Rep (lo : nat) (hi : option nat) (greedy : bool) (r : regex)
| Group (n : nat) (r : regex).

(** The characters [lo], [lo+1], ..., [hi]. *)
Definition crange (lo hi : N) : list N :=
  map (λ i, (lo + N.of_nat i)%N) (seq 0 (N.to_nat (N.succ hi - lo))).

(** Position of the matcher in the subject: index, character before it,
    characters from it on, and the spans of the groups closed so far. *)
Record mstate := {
  ms_pos : nat;
  ms_prev : option N;
  ms_rest : str;
  ms_caps : list (nat * (nat * nat));
}.

Definition advance (c : N) (rest : str) (s : mstate) : mstate :=
  {| ms_pos := S (ms_pos s); ms_prev := Some c; ms_rest := rest;
     ms_caps := ms_caps s |}.

Definition set_cap (n : nat) (a b : nat) (s : mstate) : mstate :=
  {| ms_pos := ms_pos s; ms_prev := ms_prev s; ms_rest := ms_rest s;
     ms_caps := (n, (a, b)) :: ms_caps s |}.

Fixpoint cap_lookup (n : nat) (caps : list (nat * (nat * nat))) : option (nat * nat) :=
  match caps with
  | [] => None
  | (k, sp) :: caps' => if Nat.eqb k n then Some sp else cap_lookup n caps'
  end.

Definition orelse {A} (x y : option A) : option A :=
  match x with
  | Some a => Some a
  | None => y
  end.

(** Continuations of the matcher. *)
Abbreviation cont := (mstate → option mstate) (only parsing).

(** [r{lo,hi}]: [n] iterations are done. A greedy repetition prefers one
    more iteration to leaving, a lazy one prefers leaving. An iteration
    that consumes nothing is refused (the zero-width guard of the
    engine), so the subject length bounds the number of iterations and
    [fuel] is taken one above it. *)
Fixpoint rep_loop (body : cont → cont) (lo : nat) (hi : option nat)
    (greedy : bool) (k : cont) (fuel n : nat) (s : mstate) : option mstate :=
  let leave := if lo <=? n then k s else None in
  let more :=
    match fuel with
    | O => None
    | S fuel' =>
      if match hi with Some h => n <? h | None => true end
      then body (λ s', if ms_pos s <? ms_pos s'
                       then rep_loop body lo hi greedy k fuel' (S n) s'
                       else None) s
      else None
    end in
  if greedy then orelse more leave else orelse leave more.

Section Matcher.
Variable U : UCD.
Variable fl : flags.

Definition item_match (it : citem) (ch : N) : bool :=
  match it with
  | CLit c => if IGNORECASE fl then uni_ieq U c ch else (c =? ch)%N
  | CRange lo hi =>
    if IGNORECASE fl then existsb (λ c, uni_ieq U c ch) (crange lo hi)
    else ((lo <=? ch) && (ch <=? hi))%N
  | CDigit => uni_isdecimal U ch
  | CSpace => uni_isspace U ch
  | CNotSpace => negb (uni_isspace U ch)
  end.

(** [\w]: alphanumeric or underscore. *)
Definition is_word (ch : N) : bool := uni_isalnum U ch || (ch =? 95)%N.

Definition opt_word (o : option N) : bool :=
  match o with
  | Some c => is_word c
  | None => false
  end.

(** [\b] holds where exactly one of the two neighbours is a word
    character (the ends of the subject count as non-word). *)
Definition at_boundary (s : mstate) : bool :=
  xorb (opt_word (ms_prev s)) (opt_word (head (ms_rest s))).

(** Consume one character satisfying [p]. *)
Definition one (p : N → bool) (k : cont) (s : mstate) : option mstate :=
  match ms_rest s with
  | c :: rest => if p c then k (advance c rest s) else None
  | [] => None
  end.

(** The backtracking matcher, in continuation-passing style: [mtch r k s]
    is the first success, in the engine's priority order, of matching [r]
    at [s] and then [k]. *)
Fixpoint mtch (r : regex) (k : cont) (s : mstate) : option mstate :=
  match r with
  | Empty => k s
  | Lit c => one (item_match (CLit c)) k s
  | Cset items => one (λ ch, existsb (λ it, item_match it ch) items) k s
  | Dot => one (λ ch, DOTALL fl || negb (ch =? 10)%N) k s
  | Bol => if Nat.eqb (ms_pos s) 0 then k s else None
  | WordB => if at_boundary s then k s else None
  | Seq r1 r2 => mtch r1 (mtch r2 k) s
  | Alt r1 r2 => orelse (mtch r1 k s) (mtch r2 k s)
  | Rep lo hi greedy r' =>
    rep_loop (mtch r') lo hi greedy k (S (length (ms_rest s))) 0 s
  | Group n r' =>
    mtch r' (λ s', k (set_cap n (ms_pos s) (ms_pos s') s')) s
  end.

(** Top-level success: with [must_advance], an empty match at the start
    position is refused. *)
Definition accept (must_advance : bool) (start : nat) : cont :=
  λ s, if must_advance && Nat.eqb (ms_pos s) start then None else Some s.

(** Scan for the leftmost match starting at [i] or later; [must_advance]
    only concerns the first position tried. The result is the start of
    the match and the state at its end. *)
Fixpoint search_from (r : regex) (must_advance : bool) (i : nat)
    (prev : option N) (rest : str) : option (nat * mstate) :=
  match mtch r (accept must_advance i)
          {| ms_pos := i; ms_prev := prev; ms_rest := rest; ms_caps := [] |} with
  | Some s => Some (i, s)
  | None =>
    match rest with
    | [] => None
    | c :: rest' => search_from r false (S i) (Some c) rest'
    end
  end.

(** A match object: the subject, the span of the match and of its groups. *)
Record pymatch := {
  m_string : str;
  m_start : nat;
  m_end : nat;
  m_caps : list (nat * (nat * nat));
}.

(** [m.group(n)]: the whole match for [n = 0], the text of group [n]
    otherwise, [None] when the group took no part in the match. *)
Definition group (m : pymatch) (n : nat) : option str :=
  match n with
  | O => Some (slice (m_string m) (m_start m) (m_end m))
  | _ => (λ sp, slice (m_string m) sp.1 sp.2) <$> cap_lookup n (m_caps m)
  end.

Definition mk_match (text : str) (hit : nat * mstate) : pymatch :=
  {| m_string := text; m_start := hit.1; m_end := ms_pos hit.2;
     m_caps := ms_caps hit.2 |}.

(** [re.search(r, text, flags)] *)
Definition re_search (r : regex) (text : str) : option pymatch :=
  mk_match text <$> search_from r false 0 None text.

(** The successive non-overlapping matches, as the scanner of [findall]
    and [sub] produces them: the next search starts where the last match
    ended, and after an empty match it must advance. *)
Fixpoint scan (r : regex) (fuel : nat) (must_advance : bool) (i : nat)
    (prev : option N) (rest : str) : list (nat * mstate) :=
  match fuel with
  | O => []
  | S fuel' =>
    match search_from r must_advance i prev rest with
    | None => []
    | Some (st, s) =>
      (st, s) :: scan r fuel' (Nat.eqb (ms_pos s) st)
                   (ms_pos s) (ms_prev s) (ms_rest s)
    end
  end.

Definition scan_fuel (text : str) : nat := 2 * length text + 2.

Definition re_finditer (r : regex) (text : str) : list pymatch :=
  mk_match text <$> scan r (scan_fuel text) false 0 None text.

(** [re.findall(r, text, flags)] for a pattern without groups: the
    matched texts. *)
Definition re_findall0 (r : regex) (text : str) : list str :=
  (λ m, default [] (group m 0)) <$> re_finditer r text.

(** [re.findall(r, text, flags)] for a pattern with one group: the texts
    of the group (empty when it took no part). *)
Definition re_findall1 (r : regex) (text : str) : list str :=
  (λ m, default [] (group m 1)) <$> re_finditer r text.

(** [re.sub(r, repl, text, flags)] for a replacement without
    back-references. *)
Fixpoint sub_loop (r : regex) (repl : str) (fuel : nat) (must_advance : bool)
    (i : nat) (prev : option N) (rest : str) : str :=
  match fuel with
  | O => rest
  | S fuel' =>
    match search_from r must_advance i prev rest with
    | None => rest
    | Some (st, s) =>
      take (st - i) rest ++ repl ++
      sub_loop r repl fuel' (Nat.eqb (ms_pos s) st)
        (ms_pos s) (ms_prev s) (ms_rest s)
    end
  end.

Definition re_sub (r : regex) (repl : str) (text : str) : str :=
  sub_loop r repl (scan_fuel text) false 0 None text.

End Matcher.

(** *** Pattern notation *)

Definition seqs (rs : list regex) : regex := foldr Seq Empty rs.

(** A literal string. *)
Definition word (s : string) : regex := seqs (Lit <$> lit s).

Definition star (r : regex) : regex := Rep 0 None true r.
Definition plus (r : regex) : regex := Rep 1 None true r.
Definition opt (r : regex) : regex := Rep 0 (Some 1) true r.
Definition times (lo hi : nat) (r : regex) : regex := Rep lo (Some hi) true r.
Definition chr (s : string) : N := default 0%N (head (lit s)).
Definition cl (s : string) : citem := CLit (chr s).
Definition cr (a b : string) : citem := CRange (chr a) (chr b).
Definition sp : regex := Cset [CSpace].
Definition dg : regex := Cset [CDigit].

(** *** Reference tables

    The tables of CPython restricted to the Basic Latin block and to the
    three symbols the package names: U+20B9 (rupee sign), U+2013 (en
    dash) and U+2212 (minus sign). *)

Definition is_basic (c : N) : bool :=
  ((c <? 128) || (c =? 8377) || (c =? 8211) || (c =? 8722))%N.

Definition ascii_lower (c : N) : N :=
  if ((65 <=? c) && (c <=? 90))%N then (c + 32)%N else c.

Definition basic_isspace (c : N) : bool :=
  (((9 <=? c) && (c <=? 13)) || ((28 <=? c) && (c <=? 32)))%N.

Definition basic_isdecimal (c : N) : bool := ((48 <=? c) && (c <=? 57))%N.

Definition basic_isalnum (c : N) : bool :=
  (((48 <=? c) && (c <=? 57)) || ((65 <=? c) && (c <=? 90))
   || ((97 <=? c) && (c <=? 122)))%N.

Definition basic_ucd : UCD := {|
  uni_isspace := basic_isspace;
  uni_isdecimal := basic_isdecimal;
  uni_isalnum := basic_isalnum;
  uni_ieq := λ c ch, (ascii_lower c =? ascii_lower ch)%N;
  uni_lower := map ascii_lower;
|}.

(** A character database is admissible when it agrees with the reference
    tables on their repertoire; nothing is asked of other code points. *)
Record UCD_ok (U : UCD) : Prop := {
  ok_isspace : ∀ ch, is_basic ch = true → uni_isspace U ch = basic_isspace ch;
  ok_isdecimal : ∀ ch, is_basic ch = true → uni_isdecimal U ch = basic_isdecimal ch;
  ok_isalnum : ∀ ch, is_basic ch = true → uni_isalnum U ch = basic_isalnum ch;
  ok_ieq : ∀ c ch, is_basic c = true → is_basic ch = true →
    uni_ieq U c ch = (ascii_lower c =? ascii_lower ch)%N;
  ok_lower : ∀ s, forallb is_basic s = true → uni_lower U s = map ascii_lower s;
}.

End Re.
Export Re.

(** ** [parsers.py] *)

Module Parsers.

Definition NOFLAGS : flags := {| IGNORECASE := false; DOTALL := false |}.
Definition IC : flags := {| IGNORECASE := true; DOTALL := false |}.
Definition IC_DOTALL : flags := {| IGNORECASE := true; DOTALL := true |}.

(** Common output keys *)
Definition FIELDS : list string :=
  ["total_balance"; "payment_due_date"; "minimum_payment"; "last4";
   "statement_closing_date"].

(** [{k: None for k in FIELDS}] *)
Definition fields_none : gmap string (option (list N)) :=
  list_to_map ((λ k, (k, None)) <$> FIELDS).

(** Truth value of an [Optional[str]]: [None] and the empty string are
    false. *)
Definition truthy (v : option str) : bool :=
  match v with
  | Some (_ :: _) => true
  | _ => false
  end.

(** *** Patterns, each with the Python source it transcribes *)

(** [[\d,]+(?:\.\d{2})?] *)
Definition amount : regex :=
  Seq (plus (Cset [CDigit; cl ","])) (opt (Seq (Lit (chr ".")) (times 2 2 dg))).

(** [\$?([\d,]+(?:\.\d{2})?)] *)
Definition dollar_amount : regex := Seq (opt (Lit (chr "$"))) (Group 1 amount).

(** [([₹r]?\s*(?:\d{1,3}(?:,\d{3})+|\d+\.\d{2}))] *)
Definition rupee_amount : regex :=
  Group 1 (seqs [opt (Cset [cl "₹"; cl "r"]); star sp;
    Alt (Seq (times 1 3 dg) (plus (Seq (Lit (chr ",")) (times 3 3 dg))))
        (seqs [plus dg; Lit (chr "."); times 2 2 dg])]).

(** [[0-9]{1,2}/[0-9]{1,2}/[0-9]{2,4}] *)
Definition slash_date : regex :=
  seqs [times 1 2 (Cset [cr "0" "9"]); Lit (chr "/");
        times 1 2 (Cset [cr "0" "9"]); Lit (chr "/");
        times 2 4 (Cset [cr "0" "9"])].

(** [^[₹r\s]+] *)
Definition pat_currency_prefix : regex :=
  Seq Bol (plus (Cset [cl "₹"; cl "r"; CSpace])).

(** [\s*CR\b] *)
Definition pat_cr_suffix : regex := seqs [star sp; word "CR"; WordB].

(** [\d] *)
Definition pat_digit : regex := dg.

(** [(?:New\s*Balance)] *)
Definition b1_balance_label : regex := seqs [word "New"; star sp; word "Balance"].

(** [(?:New\s*Balance)[:\s]*\$?([\d,]+(?:\.\d{2})?)] *)
Definition b1_balance : regex :=
  seqs [b1_balance_label; star (Cset [cl ":"; CSpace]); dollar_amount].

(** [Payment\s*Due\s*Date[:\s]*([A-Za-z0-9/\-–]+)] *)
Definition b1_due : regex :=
  seqs [word "Payment"; star sp; word "Due"; star sp; word "Date";
        star (Cset [cl ":"; CSpace]);
        Group 1 (plus (Cset [cr "A" "Z"; cr "a" "z"; cr "0" "9"; cl "/";
                             cl "-"; cl "–"]))].

(** [Minimum\s*Payment(?:\s*Due)?[:\s]*\$?([\d,]+(?:\.\d{2})?)] *)
Definition b1_min : regex :=
  seqs [word "Minimum"; star sp; word "Payment";
        opt (Seq (star sp) (word "Due"));
        star (Cset [cl ":"; CSpace]); dollar_amount].

(** [Account\s*Number[:\s]*([\d\-\s]+)] *)
Definition b1_account : regex :=
  seqs [word "Account"; star sp; word "Number"; star (Cset [cl ":"; CSpace]);
        Group 1 (plus (Cset [CDigit; cl "-"; CSpace]))].

(** [[A-Za-z0-9/\-]+] *)
Definition date_token : regex :=
  plus (Cset [cr "A" "Z"; cr "a" "z"; cr "0" "9"; cl "/"; cl "-"]).

(** [Opening/Closing\s*Date\s*([A-Za-z0-9/\-]+)\s*[–-]\s*([A-Za-z0-9/\-]+)] *)
Definition b1_closing : regex :=
  seqs [word "Opening/Closing"; star sp; word "Date"; star sp;
        Group 1 date_token; star sp; Cset [cl "–"; cl "-"]; star sp;
        Group 2 date_token].

(** [Ending\s*Balance.*?\$([\d,]+(?:\.\d{2})?)] *)
Definition b2_balance : regex :=
  seqs [word "Ending"; star sp; word "Balance"; Rep 0 None false Dot;
        Lit (chr "$"); Group 1 amount].

(** [Primary\s*Account\s*Number[:\s#]*([0-9\s]+)] *)
Definition b2_primary : regex :=
  seqs [word "Primary"; star sp; word "Account"; star sp; word "Number";
        star (Cset [cl ":"; CSpace; cl "#"]);
        Group 1 (plus (Cset [cr "0" "9"; CSpace]))].

(** [Account\s*[#No\.]?\s*[:#]*\s*([0-9\s]{6,})] *)
Definition b2_account : regex :=
  seqs [word "Account"; star sp; opt (Cset [cl "#"; cl "N"; cl "o"; cl "."]);
        star sp; star (Cset [cl ":"; cl "#"]); star sp;
        Group 1 (Rep 6 None true (Cset [cr "0" "9"; CSpace]))].

(** [Statement\s*Date[:\s]*([A-Za-z]+\s+\d{1,2},\s*\d{4})] *)
Definition b2_date : regex :=
  seqs [word "Statement"; star sp; word "Date"; star (Cset [cl ":"; CSpace]);
        Group 1 (seqs [plus (Cset [cr "A" "Z"; cr "a" "z"]); plus sp;
                       times 1 2 dg; Lit (chr ","); star sp; times 4 4 dg])].

(** [(?:Your\s+)?Total\s+Amount\s+Due] *)
Definition b3_total_head : regex :=
  seqs [opt (Seq (word "Your") (plus sp)); word "Total"; plus sp;
        word "Amount"; plus sp; word "Due"].

(** [(?:Your\s+)?Total\s+Amount\s+Due\b] *)
Definition b3_total_label : regex := Seq b3_total_head WordB.

(** [(?:Your\s+)?Total\s+Amount\s+Due[\s\S]{0,60}?([₹r]?\s*[\d,]+(?:\.\d{2})?)] *)
Definition b3_total_fallback : regex :=
  seqs [b3_total_head; Rep 0 (Some 60) false (Cset [CSpace; CNotSpace]);
        Group 1 (seqs [opt (Cset [cl "₹"; cl "r"]); star sp; amount])].

(** [(?:Payment\s+)?Due\s*Date\s*:?\s*(?:\n|\s){0,20}?([0-9]{1,2}/[0-9]{1,2}/[0-9]{2,4})] *)
Definition b3_due : regex :=
  seqs [opt (Seq (word "Payment") (plus sp)); word "Due"; star sp; word "Date";
        star sp; opt (Lit (chr ":")); star sp;
        Rep 0 (Some 20) false (Alt (Lit 10%N) sp);
        Group 1 slash_date].

(** [Minimum\s+Amount\s+Due\b] *)
Definition b3_min_label : regex :=
  seqs [word "Minimum"; plus sp; word "Amount"; plus sp; word "Due"; WordB].

(** [Card\s*Number\s*:?\s*([0-9Xx\s]+)] *)
Definition b3_card : regex :=
  seqs [word "Card"; star sp; word "Number"; star sp; opt (Lit (chr ":"));
        star sp; Group 1 (plus (Cset [cr "0" "9"; cl "X"; cl "x"; CSpace]))].

(** [Statement\s*Date\s*:?\s*([0-9]{1,2}/[0-9]{1,2}/[0-9]{2,4})] *)
Definition b3_statement : regex :=
  seqs [word "Statement"; star sp; word "Date"; star sp; opt (Lit (chr ":"));
        star sp; Group 1 slash_date].

(** [NEW\s+BALANCE\b] *)
Definition b4_balance_label : regex := seqs [word "NEW"; plus sp; word "BALANCE"; WordB].

(** [=\s*New\s*Balance\b] *)
Definition b4_balance_label2 : regex :=
  seqs [Lit (chr "="); star sp; word "New"; star sp; word "Balance"; WordB].

(** [\d{1,2}/\d{1,2}/\d{2,4}] *)
Definition slash_date_d : regex :=
  seqs [times 1 2 dg; Lit (chr "/"); times 1 2 dg; Lit (chr "/"); times 2 4 dg].

(** [PAYMENT\s*DUE\s*DATE\s*\n?\s*(\d{1,2}/\d{1,2}/\d{2,4})] *)
Definition b4_due : regex :=
  seqs [word "PAYMENT"; star sp; word "DUE"; star sp; word "DATE"; star sp;
        opt (Lit 10%N); star sp; Group 1 slash_date_d].

(** [MINIMUM\s*PAYMENT\s*DUE\b] *)
Definition b4_min_label : regex :=
  seqs [word "MINIMUM"; star sp; word "PAYMENT"; star sp; word "DUE"; WordB].

(** [ACCOUNT\s*NUMBER\s*\n?\s*([\d\-\s]+)] *)
Definition b4_account : regex :=
  seqs [word "ACCOUNT"; star sp; word "NUMBER"; star sp; opt (Lit 10%N);
        star sp; Group 1 (plus (Cset [CDigit; cl "-"; CSpace]))].

(** [Closing\s*Date\s*\n?\s*([0-9/\-]+)] *)
Definition b4_closing : regex :=
  seqs [word "Closing"; star sp; word "Date"; star sp; opt (Lit 10%N); star sp;
        Group 1 (plus (Cset [cr "0" "9"; cl "/"; cl "-"]))].

(** [Total\s*Amount\s*Due\b] *)
Definition b5_total_label : regex :=
  seqs [word "Total"; star sp; word "Amount"; star sp; word "Due"; WordB].

(** [Payment\s*Due\s*Date\b] *)
Definition b5_due_label : regex :=
  seqs [word "Payment"; star sp; word "Due"; star sp; word "Date"; WordB].

(** [Minimum\s*Amount\s*Due\b] *)
Definition b5_min_label : regex :=
  seqs [word "Minimum"; star sp; word "Amount"; star sp; word "Due"; WordB].

(** [Account\s*Number\s*:?\s*([\d\s]+)] *)
Definition b5_account : regex :=
  seqs [word "Account"; star sp; word "Number"; star sp; opt (Lit (chr ":"));
        star sp; Group 1 (plus (Cset [CDigit; CSpace]))].

(** [Statement\s*Date\s*\n?\s*([0-9]{1,2}/[0-9]{1,2}/[0-9]{2,4})] *)
Definition b5_statement : regex :=
  seqs [word "Statement"; star sp; word "Date"; star sp; opt (Lit 10%N);
        star sp; Group 1 slash_date].

Section Routines.
Variable U : UCD.

Definition _clean_amount (s : str) : str :=
  let s := strip (uni_isspace U) s in
  (* normalize unicode minus or spaces *)
  let s := replace1 (chr "−") (lit "-") s in
  (* strip currency markers and CR suffix artifacts *)
  let s := re_sub U NOFLAGS pat_currency_prefix [] s in
  let s := re_sub U IC pat_cr_suffix [] s in
  s.

Definition _last4_from_number_block (s : str) : option str :=
  let digits := re_findall0 U NOFLAGS pat_digit s in
  if bool_decide (digits = []) then None
  else if 4 <=? length digits then Some (suffix 4 (concat digits)) else None.

(** Find the first value that appears within [window] chars after a
    label. Returns the matched value group 1 if found. *)
Definition _find_value_after_label (text : str) (label_pattern value_pattern : regex)
    (window : nat) : res (option str) :=
  match re_search U IC label_pattern text with
  | None => mret None
  | Some m =>
    let start := m_end m in
    let snippet := slice text start (start + window) in
    match re_search U IC value_pattern snippet with
    | Some mv => g ← as_str (group mv 1); mret (Some (strip (uni_isspace U) g))
    | None => mret None
    end
  end.

(** ---------------- Bank 1 ---------------- *)
Definition parse_bank_1 (text : str) : res (gmap string (option (list N))) :=
  let out := fields_none in
  (* Total Balance (New Balance shown multiple times; pick last occurrence) *)
  let m_all := re_findall1 U IC b1_balance text in
  let out :=
    match last m_all with
    | Some v => <["total_balance" := Some (_clean_amount v)]> out
    | None => out
    end in
  (* Payment Due Date *)
  out ← match re_search U IC b1_due text with
        | Some m => g ← as_str (group m 1);
                    mret (<["payment_due_date" := Some (strip (uni_isspace U) g)]> out)
        | None => mret out
        end;
  (* Minimum Payment *)
  out ← match re_search U IC b1_min text with
        | Some m => g ← as_str (group m 1);
                    mret (<["minimum_payment" := Some (_clean_amount g)]> out)
        | None => mret out
        end;
  (* Last 4 digits *)
  out ← match re_search U IC b1_account text with
        | Some m => g ← as_str (group m 1);
                    mret (<["last4" := _last4_from_number_block g]> out)
        | None => mret out
        end;
  (* Statement Closing Date from Opening/Closing Date X – Y (take Y) *)
  out ← match re_search U IC b1_closing text with
        | Some m => g ← as_str (group m 2);
                    mret (<["statement_closing_date" := Some (strip (uni_isspace U) g)]> out)
        | None => mret out
        end;
  mret out.

(** ---------------- Bank 2 ---------------- *)
Definition parse_bank_2 (text : str) : res (gmap string (option (list N))) :=
  let out := fields_none in
  (* Total Balance -> Ending Balance *)
  out ← match re_search U IC_DOTALL b2_balance text with
        | Some m => g ← as_str (group m 1);
                    mret (<["total_balance" := Some (_clean_amount g)]> out)
        | None => mret out
        end;
  (* Last 4 digits from Primary Account Number or Account # *)
  let m := re_search U IC b2_primary text in
  let m := match m with
           | Some _ => m
           | None => re_search U IC b2_account text
           end in
  out ← match m with
        | Some m => g ← as_str (group m 1);
                    mret (<["last4" := _last4_from_number_block g]> out)
        | None => mret out
        end;
  (* Statement Closing Date -> Statement Date *)
  out ← match re_search U IC b2_date text with
        | Some m => g ← as_str (group m 1);
                    mret (<["statement_closing_date" := Some (strip (uni_isspace U) g)]> out)
        | None => mret out
        end;
  mret out.

(** ---------------- Bank 3 ---------------- *)
Definition parse_bank_3 (text : str) : res (gmap string (option (list N))) :=
  let out := fields_none in
  (* Total Balance near label *)
  v ← _find_value_after_label text b3_total_label rupee_amount 80;
  let m := None in
  let '(out, m) :=
    match v with
    | Some (c :: v') => (<["total_balance" := Some (_clean_amount (c :: v'))]> out, m)
    | _ => (out, re_search U IC b3_total_fallback text)
    end in
  out ← match m with
        | Some m => g ← as_str (group m 1);
                    mret (<["total_balance" := Some (_clean_amount g)]> out)
        | None => mret out
        end;
  (* Payment Due Date: "Due Date :" or "Payment Due Date" *)
  let out := match re_search U IC b3_due text with
             | Some m => <["payment_due_date" := group m 1]> out
             | None => out
             end in
  (* Minimum Amount Due via label-window *)
  v ← _find_value_after_label text b3_min_label rupee_amount 80;
  let out := match v with
             | Some (c :: v') => <["minimum_payment" := Some (_clean_amount (c :: v'))]> out
             | _ => out
             end in
  (* Last 4 from card number block like "4375 XXXX XXXX 8007" *)
  out ← match re_search U IC b3_card text with
        | Some m => g ← as_str (group m 1);
                    mret (<["last4" := _last4_from_number_block g]> out)
        | None => mret out
        end;
  (* Statement Closing Date *)
  let out := match re_search U IC b3_statement text with
             | Some m => <["statement_closing_date" := group m 1]> out
             | None => out
             end in
  mret out.

(** ---------------- Bank 4 ---------------- *)
Definition parse_bank_4 (text : str) : res (gmap string (option (list N))) :=
  let out := fields_none in
  (* Total Balance from NEW BALANCE or = New Balance using label-window *)
  v ← _find_value_after_label text b4_balance_label dollar_amount 30;
  v ← (if truthy v then mret v
       else _find_value_after_label text b4_balance_label2 dollar_amount 30);
  let out := match v with
             | Some (c :: v') => <["total_balance" := Some (_clean_amount (c :: v'))]> out
             | _ => out
             end in
  (* Payment Due Date (restrict to date with slashes) *)
  let out := match re_search U IC b4_due text with
             | Some m => <["payment_due_date" := group m 1]> out
             | None => out
             end in
  (* Minimum Payment Due via label-window *)
  v ← _find_value_after_label text b4_min_label dollar_amount 40;
  let out := match v with
             | Some (c :: v') => <["minimum_payment" := Some (_clean_amount (c :: v'))]> out
             | _ => out
             end in
  (* Last 4 digits from ACCOUNT NUMBER like 1234-567-890 *)
  out ← match re_search U IC b4_account text with
        | Some m => g ← as_str (group m 1);
                    mret (<["last4" := _last4_from_number_block g]> out)
        | None => mret out
        end;
  (* Statement Closing Date: "Closing Date" *)
  let out := match re_search U IC b4_closing text with
             | Some m => <["statement_closing_date" := group m 1]> out
             | None => out
             end in
  mret out.

(** ---------------- Bank 5 ---------------- *)
Definition parse_bank_5 (text : str) : res (gmap string (option (list N))) :=
  let out := fields_none in
  (* Total Balance via label-window *)
  v ← _find_value_after_label text b5_total_label rupee_amount 160;
  let out := match v with
             | Some (c :: v') => <["total_balance" := Some (_clean_amount (c :: v'))]> out
             | _ => out
             end in
  (* Payment Due Date *)
  v ← _find_value_after_label text b5_due_label (Group 1 slash_date) 160;
  let out := match v with
             | Some (c :: v') => <["payment_due_date" := Some (c :: v')]> out
             | _ => out
             end in
  (* Minimum Amount Due *)
  v ← _find_value_after_label text b5_min_label rupee_amount 160;
  let out := match v with
             | Some (c :: v') => <["minimum_payment" := Some (_clean_amount (c :: v'))]> out
             | _ => out
             end in
  (* Last 4 digits from Account Number *)
  out ← match re_search U IC b5_account text with
        | Some m => g ← as_str (group m 1);
                    mret (<["last4" := _last4_from_number_block g]> out)
        | None => mret out
        end;
  (* Statement Closing Date -> Statement Date *)
  let out := match re_search U IC b5_statement text with
             | Some m => <["statement_closing_date" := group m 1]> out
             | None => out
             end in
  mret out.

(** --------------- Detection ---------------- *)

(** [needle in hay] *)
Fixpoint contains (needle hay : str) : bool :=
  match hay with
  | [] => bool_decide (needle = [])
  | _ :: hay' => bool_decide (needle `prefix_of` hay) || contains needle hay'
  end.

Definition detect_bank (text : str) : option str :=
  let t := uni_lower U text in
  if contains (lit "building blocks student handout") t then Some (lit "bank1")
  else if contains (lit "connections checking") t || contains (lit "1000 walnut") t
  then Some (lit "bank2")
  (* ICICI Bank cues *)
  else if contains (lit "icici") t || contains (lit "your total amount due") t
  then Some (lit "bank3")
  (* Generic sample statement cues *)
  else if contains (lit "sample credit card statement") t
          || contains (lit "great lakes higher education") t
  then Some (lit "bank4")
  (* IDFC FIRST cues *)
  else if contains (lit "idfcbank") t || contains (lit "customer relationship no.") t
  then Some (lit "bank5")
  else None.

End Routines.

End Parsers.
Export Parsers.

(** ** [extract.py] *)

Module Extractor.

(** What the package sees of an opened PyMuPDF document: the
    [needs_pass] attribute when it exists, the outcome of
    [authenticate], and the outcome of [get_text("text")] on each page. *)
Record FitzDoc := {
  fd_needs_pass : option bool;
  fd_authenticate : str → bool;
  fd_pages : list (res (list N));
}.

(** What it sees of a PDF opened by pdfplumber: the outcome of
    [extract_text()] on each page ([None] for image-only pages). *)
Record PlumberPdf := {
  pp_pages : list (res (option (list N)));
}.

(** The two optional libraries: [None] when the import failed, else the
    behaviour of [open] on a path (and, for pdfplumber, a password). *)
Record Libs := {
  fitz : option (str → res FitzDoc);
  pdfplumber : option (str → option str → res PlumberPdf);
}.

(** Records sent to the module's logger. *)
Inductive log_record :=
| LogWarning (msg : string)
| LogDebug (msg : string) (e : exn).

(** [sep.join(pages)] *)
Fixpoint join (sep : str) (pages : list str) : str :=
  match pages with
  | [] => []
  | [p] => p
  | p :: pages' => p ++ sep ++ join sep pages'
  end.

(** Evaluate the outcomes of a loop body in order, stopping at the first
    exception. *)
Fixpoint collect {A} (xs : list (res A)) : res (list A) :=
  match xs with
  | [] => mret []
  | x :: xs' => a ← x; l ← collect xs'; mret (a :: l)
  end.

Section Engines.
Variable U : UCD.
Variable L : Libs.

Definition _extract_with_pymupdf (pdf_path password : str) : res str :=
  match fitz L with
  | None => Raise (new_exn ImportError "PyMuPDF (fitz) is not installed")
  | Some fitz_open =>
    doc ← fitz_open pdf_path;
    _ ← (if default false (fd_needs_pass doc)
         then if fd_authenticate doc password then mret ()
              else Raise (new_exn PermissionError
                            "Incorrect password for encrypted PDF (PyMuPDF)")
         else mret ());
    pages ← collect (fd_pages doc);
    mret (strip (uni_isspace U) (join [10; 10]%N pages))
  end.

Definition _extract_with_pdfplumber (pdf_path password : str) : res str :=
  match pdfplumber L with
  | None => Raise (new_exn ImportError "pdfplumber is not installed")
  | Some plumber_open =>
    pdf ← plumber_open pdf_path
            (match password with [] => None | _ => Some password end);
    pages ← collect ((λ page : res (option (list N)),
                        txt ← page; mret (default [] txt)) <$> pp_pages pdf);
    mret (strip (uni_isspace U) (join [10; 10]%N pages))
  end.

Definition extraction_failed : exn :=
  new_exn ValueError
    "Failed to extract text from PDF using both PyMuPDF and pdfplumber.".

(** Extract full text from a PDF file as a single string: the log
    records emitted, and the text returned or the exception raised. *)
Definition extract_text (pdf_path password : str) : list log_record * res str :=
  (* Try PyMuPDF first *)
  let r1 := _extract_with_pymupdf pdf_path password in
  match r1 with
  | Ok (c :: text) => ([], Ok (c :: text))
  | _ =>
    let log1 :=
      match r1 with
      | Ok _ => [LogWarning "PyMuPDF returned empty text; attempting pdfplumber fallback..."]
      | Raise e => [LogDebug "PyMuPDF extraction failed: %s" e]
      end in
    (* Fallback: pdfplumber *)
    let r2 := _extract_with_pdfplumber pdf_path password in
    match r2 with
    | Ok (c :: text) => (log1, Ok (c :: text))
    | _ =>
      let log2 :=
        match r2 with
        | Ok _ => []
        | Raise e => [LogDebug "pdfplumber extraction failed: %s" e]
        end in
      (log1 ++ log2, Raise extraction_failed)
    end
  end.

End Engines.

End Extractor.
Export Extractor.

(** ** [orchestrator.py] *)

Module Orchestrator.

Section Orchestration.
Variable U : UCD.

(** Identify bank from raw text and route to the appropriate parser.
    Returns a dictionary including 'bank' and the standard FIELDS keys. *)
Definition identify_and_parse (text : str) : res (gmap string (option (list N))) :=
  let bank :=
    match detect_bank U text with
    | Some (c :: b) => c :: b
    | _ => lit "unknown"
    end in
  data ←
    (if bool_decide (bank = lit "bank1") then parse_bank_1 U text
     else if bool_decide (bank = lit "bank2") then parse_bank_2 U text
     else if bool_decide (bank = lit "bank3") then parse_bank_3 U text
     else if bool_decide (bank = lit "bank4") then parse_bank_4 U text
     else if bool_decide (bank = lit "bank5") then parse_bank_5 U text
     else mret fields_none);
  (* Attach bank id: {"bank": bank, **data} *)
  mret (data ∪ {["bank" := Some bank]}).

Definition essential_keys : list string := "bank" :: FIELDS.

(** Extractor -> Orchestrator -> Parser for a single PDF path. *)
Definition process_pdf (L : Libs) (pdf_path password : str)
    : list log_record * res (gmap string (option (list N))) :=
  let '(log, text) := extract_text U L pdf_path password in
  (log,
   text ← text;
   result ← identify_and_parse text;
   (* Add source file for traceability *)
   mret (<["source_file" := Some pdf_path]> result)).

End Orchestration.

End Orchestrator.
Export Orchestrator.

(** * Properties *)

(** ** The matcher against a declarative reading of the patterns *)

Module ReFacts.

Section Declarative.
Variable U : UCD.
Variable fl : flags.

(** [n] successive iterations of [R], each consuming at least one
    character. *)
Fixpoint niter (R : mstate → mstate → Prop) (n : nat) (s s' : mstate) : Prop :=
  match n with
  | O => s' = s
  | S n' => ∃ s1, R s s1 ∧ ms_pos s < ms_pos s1 ∧ niter R n' s1 s'
  end.

Definition consumes (p : N → bool) (s s' : mstate) : Prop :=
  ∃ c rest, ms_rest s = c :: rest ∧ p c = true ∧ s' = advance c rest s.

(** [matches r s s']: the pattern [r] can take the matcher from [s] to
    [s'], whatever the priorities. *)
Fixpoint matches (r : regex) (s s' : mstate) : Prop :=
  match r with
  | Empty => s' = s
  | Lit c => consumes (item_match U fl (CLit c)) s s'
  | Cset items => consumes (λ ch, existsb (λ it, item_match U fl it ch) items) s s'
  | Dot => consumes (λ ch, DOTALL fl || negb (ch =? 10)%N) s s'
  | Bol => ms_pos s = 0 ∧ s' = s
  | WordB => at_boundary U s = true ∧ s' = s
  | Seq r1 r2 => ∃ s1, matches r1 s s1 ∧ matches r2 s1 s'
  | Alt r1 r2 => matches r1 s s' ∨ matches r2 s s'
  | Rep lo hi _ r' =>
    ∃ n, lo ≤ n ∧ match hi with Some h => n ≤ h | None => True end
         ∧ niter (matches r') n s s'
  | Group n r' =>
    ∃ s1, matches r' s s1 ∧ s' = set_cap n (ms_pos s) (ms_pos s1) s1
  end.

Lemma orelse_Some {A} (x y : option A) (a : A) :
  orelse x y = Some a → x = Some a ∨ (x = None ∧ y = Some a).
Proof. destruct x; simpl; intros; [left | right]; auto. Qed.

Lemma one_sound (p : N → bool) (k : mstate → option mstate) s f :
  one p k s = Some f → ∃ s', consumes p s s' ∧ k s' = Some f.
Proof.
  unfold one. destruct (ms_rest s) as [|c rest] eqn:Hr; [done|].
  destruct (p c) eqn:Hp; [|done].
  intros Hk. exists (advance c rest s). split; [|done].
  by exists c, rest.
Qed.

(** Whatever the loop returns went through some number of iterations of
    the body and then through the continuation. *)
Lemma rep_loop_sound (body : (mstate → option mstate) → mstate → option mstate)
    (R : mstate → mstate → Prop) lo hi greedy k :
  (∀ k' s f, body k' s = Some f → ∃ s', R s s' ∧ k' s' = Some f) →
  ∀ fuel n s f,
    rep_loop body lo hi greedy k fuel n s = Some f →
    ∃ m s', niter R m s s' ∧ lo ≤ n + m
            ∧ match hi with Some h => n + m ≤ h ∨ m = 0 | None => True end
            ∧ k s' = Some f.
Proof.
  intros Hbody. induction fuel as [|fuel IH]; intros n s f Hrun.
  - simpl in Hrun. exists 0, s.
    assert ((if lo <=? n then k s else None) = Some f) as Hleave.
    { destruct greedy; simpl in Hrun; [done|].
      by apply orelse_Some in Hrun as [?|[? ?]]. }
    destruct (Nat.leb_spec lo n); [|done].
    repeat split; [lia | destruct hi; auto | done].
  - simpl in Hrun.
    assert ((if lo <=? n then k s else None) = Some f ∨
            (if match hi with Some h => n <? h | None => true end
             then body (λ s', if ms_pos s <? ms_pos s'
                              then rep_loop body lo hi greedy k fuel (S n) s'
                              else None) s
             else None) = Some f) as [Hleave|Hmore].
    { destruct greedy; apply orelse_Some in Hrun; tauto. }
    + exists 0, s. destruct (Nat.leb_spec lo n); [|done].
      repeat split; [lia | destruct hi; auto | done].
    + destruct (match hi with Some h => n <? h | None => true end) eqn:Hhi; [|done].
      apply Hbody in Hmore as (s1 & HR & Hk1).
      destruct (Nat.ltb_spec (ms_pos s) (ms_pos s1)) as [Hlt|]; [|done].
      apply IH in Hk1 as (m & s' & Hit & Hlo & Hbound & Hk).
      exists (S m), s'. repeat split; [by exists s1 | lia | | done].
      destruct hi as [h|]; [|done]. left.
      apply Nat.ltb_lt in Hhi. destruct Hbound; lia.
Qed.

Theorem mtch_sound r : ∀ k s f,
  mtch U fl r k s = Some f → ∃ s', matches r s s' ∧ k s' = Some f.
Proof.
  induction r as [|c|items| | | |r1 IH1 r2 IH2|r1 IH1 r2 IH2|lo hi g r IH|n r IH];
    intros k s f Hm; cbn [mtch] in Hm.
  - by exists s.
  - by apply one_sound in Hm.
  - by apply one_sound in Hm.
  - by apply one_sound in Hm.
  - destruct (Nat.eqb_spec (ms_pos s) 0); [|done]. by exists s.
  - destruct (at_boundary U s) eqn:Hb; [|done]. by exists s.
  - apply IH1 in Hm as (s1 & H1 & Hm). apply IH2 in Hm as (s2 & H2 & Hk).
    exists s2. split; [by exists s1 | done].
  - apply orelse_Some in Hm as [Hm|[_ Hm]].
    + apply IH1 in Hm as (s' & ? & ?). exists s'. split; [by left | done].
    + apply IH2 in Hm as (s' & ? & ?). exists s'. split; [by right | done].
  - apply (rep_loop_sound _ (matches r)) in Hm as (m & s' & Hit & Hlo & Hhi & Hk);
      [|exact IH].
    exists s'. split; [|done]. exists m. repeat split; [lia | | done].
    destruct hi; [|done]. destruct Hhi; lia.
  - apply IH in Hm as (s1 & H1 & Hk). eexists. split; [|exact Hk]. by exists s1.
Qed.

(** *** Groups that every match defines *)

(** [defines n r]: every path through [r] closes group [n]. *)
Fixpoint defines (n : nat) (r : regex) : bool :=
  match r with
  | Group k r' => Nat.eqb k n || defines n r'
  | Seq r1 r2 => defines n r1 || defines n r2
  | Alt r1 r2 => defines n r1 && defines n r2
  | Rep lo _ _ r' => (1 <=? lo) && defines n r'
  | _ => false
  end.

Definition has_cap (n : nat) (s : mstate) : Prop :=
  is_Some (cap_lookup n (ms_caps s)).

Lemma has_cap_set_cap n k a b s :
  has_cap n (set_cap k a b s) ↔ k = n ∨ has_cap n s.
Proof.
  unfold has_cap. simpl. destruct (Nat.eqb_spec k n); split; eauto.
  intros [?|?]; [done | auto].
Qed.

Lemma consumes_caps p s s' : consumes p s s' → ms_caps s' = ms_caps s.
Proof. by intros (c & rest & _ & _ & ->). Qed.

Lemma niter_caps_mono (R : mstate → mstate → Prop) :
  (∀ s s', R s s' → ∀ k, has_cap k s → has_cap k s') →
  ∀ n s s', niter R n s s' → ∀ k, has_cap k s → has_cap k s'.
Proof.
  intros HR. induction n as [|n IH]; simpl; intros s s' Hit k Hk.
  - by subst.
  - destruct Hit as (s1 & H1 & _ & Hit). eauto.
Qed.

Lemma matches_caps_mono r : ∀ s s',
  matches r s s' → ∀ k, has_cap k s → has_cap k s'.
Proof.
  induction r as [|c|items| | | |r1 IH1 r2 IH2|r1 IH1 r2 IH2|lo hi g r IH|n r IH];
    simpl; intros s s' Hm k Hk.
  - by subst.
  - unfold has_cap. by rewrite (consumes_caps _ _ _ Hm).
  - unfold has_cap. by rewrite (consumes_caps _ _ _ Hm).
  - unfold has_cap. by rewrite (consumes_caps _ _ _ Hm).
  - by destruct Hm as [_ ->].
  - by destruct Hm as [_ ->].
  - destruct Hm as (s1 & H1 & H2). eauto.
  - destruct Hm; eauto.
  - destruct Hm as (m & _ & _ & Hit). eapply niter_caps_mono; eauto.
  - destruct Hm as (s1 & H1 & ->). apply has_cap_set_cap. right. eauto.
Qed.

Lemma matches_defines r : ∀ n s s',
  defines n r = true → matches r s s' → has_cap n s'.
Proof.
  induction r as [|c|items| | | |r1 IH1 r2 IH2|r1 IH1 r2 IH2|lo hi g r IH|k r IH];
    simpl; intros n s s' Hd Hm; try done.
  - destruct Hm as (s1 & H1 & H2). apply orb_true_iff in Hd as [Hd|Hd].
    + eapply matches_caps_mono; eauto.
    + eauto.
  - apply andb_true_iff in Hd as [Hd1 Hd2]. destruct Hm; eauto.
  - apply andb_true_iff in Hd as [Hlo Hd].
    assert (1 ≤ lo) by (destruct lo; [done | lia]).
    destruct Hm as (m & Hm & _ & Hit).
    destruct m as [|m]; [lia|]. simpl in Hit.
    destruct Hit as (s1 & H1 & _ & Hit).
    eapply niter_caps_mono; [apply matches_caps_mono | exact Hit |]. eauto.
  - destruct Hm as (s1 & H1 & ->). apply has_cap_set_cap.
    apply orb_true_iff in Hd as [Hd|Hd]; [left; by apply Nat.eqb_eq | right; eauto].
Qed.

Lemma accept_Some adv i s f : accept adv i s = Some f → f = s.
Proof. unfold accept. by destruct (_ && _); intros [= ->]. Qed.

Lemma search_from_sound r : ∀ rest adv i prev st s,
  search_from U fl r adv i prev rest = Some (st, s) →
  ∃ s0, ms_caps s0 = [] ∧ ms_pos s0 = st ∧ matches r s0 s.
Proof.
  induction rest as [|c rest IH]; intros adv i prev st s; simpl;
    destruct (mtch U fl r _ _) as [f|] eqn:Hm; intros Hs; simplify_eq;
    try (apply mtch_sound in Hm as (s' & Hmat & Hk);
         apply accept_Some in Hk as ->; by eexists; split_and!; [..|exact Hmat]).
  eauto.
Qed.

Theorem re_search_defines r n text m :
  defines (S n) r = true →
  re_search U fl r text = Some m → is_Some (group m (S n)).
Proof.
  intros Hd. unfold re_search.
  destruct (search_from _ _ _ _ _ _ _) as [[st s]|] eqn:Hs; [|done].
  intros [= <-]. apply search_from_sound in Hs as (s0 & _ & _ & Hm).
  apply (matches_defines _ _ _ _ Hd) in Hm as [sp Hsp].
  unfold group, mk_match. simpl. rewrite Hsp. by eexists.
Qed.

End Declarative.

End ReFacts.
Export ReFacts.

(** ** Field records *)

Module RecordFacts.

(** The key set of a field record. *)
Definition field_keys : gset string := list_to_set FIELDS.

Lemma dom_fields_none : dom fields_none = field_keys.
Proof. unfold fields_none, field_keys. rewrite dom_list_to_map_L. by rewrite <- list_fmap_compose. Qed.

Lemma dom_insert_field (k : string) (v : option (list N)) (out : gmap string (option (list N))) :
  k ∈ FIELDS → dom out = field_keys → dom (<[k:=v]> out) = field_keys.
Proof.
  intros Hk Hout. rewrite dom_insert_L, Hout.
  apply subseteq_union_1_L, singleton_subseteq_l.
  by apply elem_of_list_to_set.
Qed.

(** A step of a routine that returns, and keeps the key set. *)
Definition keeps_keys (step : res (gmap string (option (list N)))) : Prop :=
  ∃ out, step = Ok out ∧ dom out = field_keys.

Lemma keeps_keys_bind step (f : gmap string (option (list N)) → res (gmap string (option (list N)))) :
  keeps_keys step →
  (∀ out, dom out = field_keys → keeps_keys (f out)) →
  keeps_keys (step ≫= f).
Proof. intros (out & -> & Hout) Hf. simpl. auto. Qed.

Lemma keeps_keys_ret out : dom out = field_keys → keeps_keys (mret out).
Proof. intros. by exists out. Qed.

Section Steps.
Variable U : UCD.

(** [m = re.search(...)] followed by [if m: out[k] = f(m.group(n))],
    where using the group as a string raises when it is [None]. *)
Lemma keeps_keys_search fl r n k (f : list N → option (list N))
    (out : gmap string (option (list N))) text :
  defines (S n) r = true → k ∈ FIELDS → dom out = field_keys →
  keeps_keys
    (match re_search U fl r text with
     | Some m => g ← as_str (group m (S n)); mret (<[k := f g]> out)
     | None => mret out
     end).
Proof.
  intros Hd Hk Hout. destruct (re_search U fl r text) as [m|] eqn:Hm.
  - destruct (re_search_defines U fl r n text m Hd Hm) as [g ->]. simpl.
    apply keeps_keys_ret. by apply dom_insert_field.
  - by apply keeps_keys_ret.
Qed.

(** [if m: out[k] = m.group(n)]: no use of the group as a string. *)
Lemma dom_search_store fl r n k (out : gmap string (option (list N))) text :
  k ∈ FIELDS → dom out = field_keys →
  dom (match re_search U fl r text with
       | Some m => <[k := group m n]> out
       | None => out
       end) = field_keys.
Proof. intros. destruct (re_search U fl r text); [by apply dom_insert_field | done]. Qed.

(** [if v: out[k] = f(v)] *)
Lemma dom_store_if_truthy (v : option (list N)) k (f : list N → list N)
    (out : gmap string (option (list N))) :
  k ∈ FIELDS → dom out = field_keys →
  dom (match v with
       | Some (c :: v') => <[k := Some (f (c :: v'))]> out
       | _ => out
       end) = field_keys.
Proof. intros. destruct v as [[|c v']|]; [done | by apply dom_insert_field | done]. Qed.

(** The label-window search returns whenever every match of the value
    pattern defines group 1. *)
Lemma find_value_returns text label value window :
  defines 1 value = true →
  ∃ v, _find_value_after_label U text label value window = Ok v.
Proof.
  intros Hd. unfold _find_value_after_label.
  destruct (re_search U IC label text) as [m|]; [|by eexists].
  destruct (re_search U IC value _) as [mv|] eqn:Hmv; [|by eexists].
  destruct (re_search_defines U IC value 0 _ mv Hd Hmv) as [g ->]. by eexists.
Qed.

Lemma field_elem k : k ∈ FIELDS ↔
  k = "total_balance" ∨ k = "payment_due_date" ∨ k = "minimum_payment"
  ∨ k = "last4" ∨ k = "statement_closing_date".
Proof. unfold FIELDS. rewrite !elem_of_cons, elem_of_nil. tauto. Qed.

Lemma bind_Ok {A B} (a : A) (f : A → res B) : (Ok a ≫= f) = f a.
Proof. reflexivity. Qed.

(** The same for a match object obtained in any way. *)
Lemma keeps_keys_use_group (m : option pymatch) n k (f : list N → option (list N))
    (out : gmap string (option (list N))) :
  (∀ m', m = Some m' → is_Some (group m' n)) → k ∈ FIELDS → dom out = field_keys →
  keeps_keys
    (match m with
     | Some m => g ← as_str (group m n); mret (<[k := f g]> out)
     | None => mret out
     end).
Proof.
  intros Hg Hk Hout. destruct m as [m|].
  - destruct (Hg m eq_refl) as [g ->]. simpl.
    apply keeps_keys_ret. by apply dom_insert_field.
  - by apply keeps_keys_ret.
Qed.

Ltac find_value :=
  match goal with
  | |- context [_find_value_after_label ?U ?t ?l ?v ?w] =>
    let x := fresh "v" in
    destruct (find_value_returns t l v w eq_refl) as [x ->]; rewrite bind_Ok
  end.

Ltac field := apply field_elem; tauto.

Ltac keys :=
  repeat first
    [ apply dom_fields_none
    | apply dom_search_store; [field|]
    | apply dom_store_if_truthy; [field|]
    | apply (dom_store_if_truthy _ _ (λ x, x)); [field|]
    | apply dom_insert_field; [field|]
    | assumption ].

Ltac search_step := apply keeps_keys_search; [done | field | keys].

Lemma parse_bank_1_keys text : keeps_keys (parse_bank_1 U text).
Proof.
  unfold parse_bank_1. cbv zeta.
  repeat (apply keeps_keys_bind; [|intros ? ?]); try search_step.
  - destruct (last _); keys.
  - by apply keeps_keys_ret.
Qed.

Lemma parse_bank_2_keys text : keeps_keys (parse_bank_2 U text).
Proof.
  unfold parse_bank_2. cbv zeta.
  repeat (apply keeps_keys_bind; [|intros ? ?]); try search_step.
  - apply keeps_keys_use_group; [|field|keys].
    intros m. destruct (re_search U IC b2_primary text) eqn:E; intros Hm.
    + rewrite <- E in Hm. eapply re_search_defines; [|exact Hm]; done.
    + eapply re_search_defines; [|exact Hm]; done.
  - apply keeps_keys_ret; keys.
Qed.

Lemma parse_bank_3_keys text : keeps_keys (parse_bank_3 U text).
Proof.
  unfold parse_bank_3. find_value.
  match goal with
  | |- context [let '(out, m) := ?p in _] =>
    assert (dom p.1 = field_keys ∧ ∀ m', p.2 = Some m' → is_Some (group m' 1))
      as Hp; [|destruct p as [out0 m]; destruct Hp as [Hout0 Hm]]
  end.
  { destruct v as [[|c v']|]; simpl; (split; [keys|]); intros m' Hm'; try done;
      (eapply re_search_defines; [|exact Hm']; done). }
  simpl in Hout0, Hm.
  apply keeps_keys_bind.
  - apply (keeps_keys_use_group _ _ _ (λ g, Some (_clean_amount U g)));
      [done | field | done].
  - intros out Hout. find_value. cbv zeta.
    apply keeps_keys_bind; [search_step|].
    intros. apply keeps_keys_ret; keys.
Qed.

Lemma parse_bank_4_keys text : keeps_keys (parse_bank_4 U text).
Proof.
  unfold parse_bank_4. find_value.
  assert (∃ v', (if truthy v then mret v
       else _find_value_after_label U text b4_balance_label2 dollar_amount 30)
      = Ok v') as [v' ->].
  { destruct (truthy v); [by eexists|]. by apply find_value_returns. }
  rewrite bind_Ok. find_value. cbv zeta.
  apply keeps_keys_bind; [search_step|].
  intros. apply keeps_keys_ret; keys.
Qed.

Lemma parse_bank_5_keys text : keeps_keys (parse_bank_5 U text).
Proof.
  unfold parse_bank_5. do 3 find_value. cbv zeta.
  apply keeps_keys_bind; [search_step|].
  intros. apply keeps_keys_ret; keys.
Qed.

Lemma identify_and_parse_keys text :
  ∃ data bank,
    identify_and_parse U text = Ok (data ∪ {["bank" := Some bank]})
    ∧ dom data = field_keys.
Proof.
  unfold identify_and_parse.
  set (bank := match detect_bank U text with Some (c :: b) => c :: b | _ => _ end).
  assert (∀ step, keeps_keys step →
    ∃ data, (step ≫= λ data, mret (data ∪ {["bank" := Some bank]}))
            = Ok (data ∪ {["bank" := Some bank]}) ∧ dom data = field_keys) as Hstep.
  { intros step (data & -> & Hd). by exists data. }
  repeat case_bool_decide;
    match goal with
    | |- ∃ d b, ?step ≫= _ = _ ∧ _ =>
      let H := fresh in
      assert (keeps_keys step) as H;
        [ first [ apply parse_bank_1_keys | apply parse_bank_2_keys
                | apply parse_bank_3_keys | apply parse_bank_4_keys
                | apply parse_bank_5_keys
                | apply keeps_keys_ret, dom_fields_none ]
        | destruct (Hstep _ H) as (data & Hd1 & Hd2); by exists data, bank ]
    end.
Qed.

End Steps.

End RecordFacts.
Export RecordFacts.

(** ** Properties of the package *)

(** C1. For every input text, each of the five per-bank routines returns
    (it raises nothing) a field record whose key set is exactly the five
    canonical field names, and so does every path of the dispatcher, the
    unclassified fallback included: its result is a field record with
    these five keys to which the bank id is attached. A field that was
    not located is therefore a key bound to [None], never a missing key. *)
Theorem C1_five_canonical_keys (U : UCD) (text : list N) :
  (∃ rec, parse_bank_1 U text = Ok rec ∧ dom rec = list_to_set FIELDS)
  ∧ (∃ rec, parse_bank_2 U text = Ok rec ∧ dom rec = list_to_set FIELDS)
  ∧ (∃ rec, parse_bank_3 U text = Ok rec ∧ dom rec = list_to_set FIELDS)
  ∧ (∃ rec, parse_bank_4 U text = Ok rec ∧ dom rec = list_to_set FIELDS)
  ∧ (∃ rec, parse_bank_5 U text = Ok rec ∧ dom rec = list_to_set FIELDS)
  ∧ (∃ rec bank,
       identify_and_parse U text = Ok (rec ∪ {["bank" := Some bank]})
       ∧ dom rec = list_to_set FIELDS)
  ∧ dom fields_none = list_to_set FIELDS.
Proof.
  split_and!.
  - apply parse_bank_1_keys.
  - apply parse_bank_2_keys.
  - apply parse_bank_3_keys.
  - apply parse_bank_4_keys.
  - apply parse_bank_5_keys.
  - apply identify_and_parse_keys.
  - apply dom_fields_none.
Qed.

(** ** The classifier *)

(** The classifier as the ordered table the specification describes: one
    test per bank, each the disjunction of the bank's cue phrases, tried
    in this order. *)
Definition cue_table : list (list (list N) * list N) :=
  [([lit "building blocks student handout"], lit "bank1");
   ([lit "connections checking"; lit "1000 walnut"], lit "bank2");
   ([lit "icici"; lit "your total amount due"], lit "bank3");
   ([lit "sample credit card statement"; lit "great lakes higher education"],
    lit "bank4");
   ([lit "idfcbank"; lit "customer relationship no."], lit "bank5")].

(** A test holds of the lower-cased text [t] when one of its phrases is
    a substring of [t]. *)
Definition test_holds (t : list N) (rule : list (list N) * list N) : bool :=
  existsb (λ phrase, contains phrase t) rule.1.

Definition first_match (t : list N) : option (list N) :=
  snd <$> List.find (test_holds t) cue_table.

Lemma find_first {A} (P : A → bool) (l : list A) i x :
  l !! i = Some x → P x = true →
  (∀ k y, k < i → l !! k = Some y → P y = false) →
  List.find P l = Some x.
Proof.
  revert i. induction l as [|a l IH]; intros i Hi Hx Hbefore; [done|].
  destruct i as [|i]; simpl in *.
  - injection Hi as ->. by rewrite Hx.
  - rewrite (Hbefore 0 a); [|lia|done].
    apply (IH i); [done..|]. intros k y Hk Hy. apply (Hbefore (S k)); [lia|done].
Qed.

Lemma find_none {A} (P : A → bool) (l : list A) :
  (∀ x, x ∈ l → P x = false) → List.find P l = None.
Proof.
  induction l as [|a l IH]; intros Hall; [done|]. simpl.
  rewrite Hall; [|by left]. apply IH. intros x Hx. apply Hall. by right.
Qed.

Lemma detect_bank_first_match (U : UCD) (text : list N) :
  detect_bank U text = first_match (uni_lower U text).
Proof.
  unfold detect_bank, first_match, cue_table, test_holds. simpl.
  repeat match goal with
         | |- context [contains ?p ?t] => destruct (contains p t); simpl; try done
         end.
Qed.

(** C2. The classifier lower-cases its input and runs the tests of the
    table in order, returning the bank of the first test that holds; so
    for a text with cue phrases of two different banks (and of no other)
    the bank whose test comes first is returned, and a text on which no
    test holds is classified unknown ([None]). *)
Theorem C2_first_matching_test_wins (U : UCD) (text : list N) :
  detect_bank U text = snd <$> List.find (test_holds (uni_lower U text)) cue_table
  ∧ (∀ i j ri rj,
       cue_table !! i = Some ri → cue_table !! j = Some rj → i < j →
       test_holds (uni_lower U text) ri = true →
       test_holds (uni_lower U text) rj = true →
       (∀ k rk, cue_table !! k = Some rk →
                test_holds (uni_lower U text) rk = true → k = i ∨ k = j) →
       detect_bank U text = Some ri.2)
  ∧ ((∀ rule, rule ∈ cue_table → test_holds (uni_lower U text) rule = false) →
     detect_bank U text = None).
Proof.
  rewrite detect_bank_first_match. unfold first_match. split_and!.
  - done.
  - intros i j ri rj Hi Hj Hij Hti Htj Honly.
    rewrite (find_first _ _ i ri); [done..|].
    intros k y Hk Hy. destruct (test_holds _ y) eqn:Hty; [|done].
    destruct (Honly k y Hy Hty); lia.
  - intros Hnone. by rewrite find_none.
Qed.

Lemma C2_witness :
  detect_bank basic_ucd (lit "ICICI Bank - CONNECTIONS CHECKING") = Some (lit "bank2")
  ∧ detect_bank basic_ucd (lit "Statement of account") = None.
Proof.
  destruct (C2_first_matching_test_wins basic_ucd
              (lit "ICICI Bank - CONNECTIONS CHECKING")) as (_ & Hfirst & _).
  destruct (C2_first_matching_test_wins basic_ucd
              (lit "Statement of account")) as (_ & _ & Hnone).
  split.
  - refine (Hfirst 1 2 _ _ eq_refl eq_refl _ eq_refl eq_refl _); [lia|].
    intros k rk Hk Ht.
    destruct k as [|[|[|[|[|k]]]]]; simpl in Hk; try discriminate;
      injection Hk as <-; vm_compute in Ht; try discriminate; auto.
  - apply Hnone. intros rule Hrule. unfold cue_table in Hrule.
    repeat (apply elem_of_cons in Hrule as [->|Hrule]; [by vm_compute|]).
    by apply elem_of_nil in Hrule.
Defined.

(** ** The dispatcher *)

(** C8. When the classifier returns unknown, [identify_and_parse] raises
    nothing and returns the record whose bank is "unknown" and whose five
    canonical fields are all absent. *)
Theorem C8_unknown_all_absent (U : UCD) (text : list N) :
  detect_bank U text = None →
  ∃ rec, identify_and_parse U text = Ok rec
         ∧ rec !! "bank" = Some (Some (lit "unknown"))
         ∧ (∀ k, k ∈ FIELDS → rec !! k = Some None)
         ∧ dom rec = {["bank"]} ∪ list_to_set FIELDS.
Proof.
  intros Hnone. exists (fields_none ∪ {["bank" := Some (lit "unknown")]}).
  split_and!.
  - unfold identify_and_parse. rewrite Hnone.
    repeat (rewrite bool_decide_eq_false_2; [|by vm_compute]). done.
  - by vm_compute.
  - intros k Hk. apply field_elem in Hk as [->|[->|[->|[->| ->]]]]; by vm_compute.
  - rewrite dom_union_L, dom_singleton_L, dom_fields_none. unfold field_keys.
    apply union_comm_L.
Qed.

Lemma C8_witness :
  ∃ rec, identify_and_parse basic_ucd (lit "Statement of account") = Ok rec
         ∧ rec !! "bank" = Some (Some (lit "unknown"))
         ∧ (∀ k, k ∈ FIELDS → rec !! k = Some None)
         ∧ dom rec = {["bank"]} ∪ list_to_set FIELDS.
Proof.
  apply (C8_unknown_all_absent basic_ucd (lit "Statement of account")).
  vm_compute. reflexivity.
Defined.

(** ** Text extraction *)

(** The exceptions an exception object carries: those reachable through
    its [__cause__] and [__context__] links. *)
Fixpoint exc_chain (e : exn) : list exn :=
  match e with
  | Exn _ _ cause context =>
    match cause with
    | Some c => c :: exc_chain c
    | None => []
    end ++
    match context with
    | Some c => c :: exc_chain c
    | None => []
    end
  end.

(** An engine produced content: it returned a non-empty text. *)
Definition usable (r : res (list N)) : bool :=
  match r with
  | Ok (_ :: _) => true
  | _ => false
  end.

Definition raised {A} (r : res A) : bool :=
  match r with
  | Raise _ => true
  | Ok _ => false
  end.

(** The record the logger receives for the outcome of an engine. *)
Definition debug_records (msg : string) (r : res (list N)) : list log_record :=
  match r with
  | Raise e => [LogDebug msg e]
  | Ok _ => []
  end.

(** A library set in which neither engine is installed. *)
Definition no_libs : Libs := {| fitz := None; pdfplumber := None |}.

(** C9, as the code has it. The primary engine is tried first and its
    non-empty text is returned; otherwise the secondary engine is tried
    and its non-empty text is returned; [extract_text] raises exactly
    when neither engine returned a non-empty text (each one raised or
    returned empty text, in any combination). The exception raised is
    then always the same [ValueError] with a fixed message and no chained
    exception: the underlying exceptions are only sent to the logger at
    debug level. *)
Theorem C9_two_stage_fallback (U : UCD) (L : Libs) (pdf_path password : list N) :
  let r1 := _extract_with_pymupdf U L pdf_path password in
  let r2 := _extract_with_pdfplumber U L pdf_path password in
  let out := extract_text U L pdf_path password in
  out.2 = (if usable r1 then r1 else if usable r2 then r2 else Raise extraction_failed)
  ∧ (raised out.2 = true ↔ usable r1 = false ∧ usable r2 = false)
  ∧ (∀ e, out.2 = Raise e →
       e = extraction_failed ∧ exc_class_of e = ValueError ∧ exc_chain e = [])
  ∧ (raised out.2 = true →
       ∀ e, LogDebug "PyMuPDF extraction failed: %s" e ∈ out.1 ↔ r1 = Raise e)
  ∧ (raised out.2 = true →
       ∀ e, LogDebug "pdfplumber extraction failed: %s" e ∈ out.1 ↔ r2 = Raise e).
Proof.
  unfold extract_text.
  destruct (_extract_with_pymupdf U L pdf_path password) as [[|c1 t1]|e1];
    destruct (_extract_with_pdfplumber U L pdf_path password) as [[|c2 t2]|e2];
    simpl; split_and!; try done; try (split; [done | by intros [? ?]]);
    try (by intros e [= <-]);
    intros _ e; rewrite ?elem_of_cons, ?elem_of_nil; naive_solver.
Qed.

Lemma C9_witness :
  (extract_text basic_ucd no_libs (lit "a.pdf") []).2 = Raise extraction_failed
  ∧ LogDebug "PyMuPDF extraction failed: %s"
      (new_exn ImportError "PyMuPDF (fitz) is not installed")
    ∈ (extract_text basic_ucd no_libs (lit "a.pdf") []).1.
Proof.
  destruct (C9_two_stage_fallback basic_ucd no_libs (lit "a.pdf") [])
    as (Hout & _ & _ & Hlog & _).
  split; [exact Hout|]. apply Hlog; reflexivity.
Defined.

(** C9 as stated fails: when both engines raise, the exception raised by
    [extract_text] carries neither of the two underlying exceptions. *)
Lemma C9_counterexample :
  _extract_with_pymupdf basic_ucd no_libs (lit "a.pdf") []
    = Raise (new_exn ImportError "PyMuPDF (fitz) is not installed")
  ∧ _extract_with_pdfplumber basic_ucd no_libs (lit "a.pdf") []
    = Raise (new_exn ImportError "pdfplumber is not installed")
  ∧ ∃ e, (extract_text basic_ucd no_libs (lit "a.pdf") []).2 = Raise e
         ∧ (new_exn ImportError "PyMuPDF (fitz) is not installed" ∉ exc_chain e)
         ∧ (new_exn ImportError "pdfplumber is not installed" ∉ exc_chain e)
         ∧ exc_cause e = None ∧ exc_context e = None.
Proof.
  split_and!; [done..|]. exists extraction_failed. simpl.
  split_and!; try done; apply not_elem_of_nil.
Qed.

(** A password-protected document whose password is always rejected, and
    a PDF on which pdfplumber fails. *)
Definition locked_doc : FitzDoc :=
  {| fd_needs_pass := Some true; fd_authenticate := λ _, false; fd_pages := [] |}.

Definition locked_libs : Libs :=
  {| fitz := Some (λ _, Ok locked_doc);
     pdfplumber := Some (λ _ _, Raise (new_exn (LibraryError "PdfminerException")
                                                "PDFPasswordIncorrect")) |}.

(** A document without password whose pages hold no text. *)
Definition blank_libs : Libs :=
  {| fitz := Some (λ _, Ok {| fd_needs_pass := Some false;
                               fd_authenticate := λ _, true;
                               fd_pages := [Ok []] |});
     pdfplumber := Some (λ _ _, Ok {| pp_pages := [Ok None] |}) |}.

Definition wrong_password : exn :=
  new_exn PermissionError "Incorrect password for encrypted PDF (PyMuPDF)".

(** C10, as the code has it. On a document that needs a password and
    rejects the one provided, the PyMuPDF helper raises a
    [PermissionError]; [extract_text] catches it, logs it at debug level
    and goes on to pdfplumber, so that the service returns pdfplumber's
    non-empty text or else raises the generic extraction failure, the
    same exception as for absent or empty content. *)
Theorem C10_rejected_password (U : UCD) (L : Libs) (pdf_path password : list N)
    (fitz_open : list N → res FitzDoc) (doc : FitzDoc) :
  fitz L = Some fitz_open →
  fitz_open pdf_path = Ok doc →
  fd_needs_pass doc = Some true →
  fd_authenticate doc password = false →
  _extract_with_pymupdf U L pdf_path password = Raise wrong_password
  ∧ (extract_text U L pdf_path password).2 =
      (let r2 := _extract_with_pdfplumber U L pdf_path password in
       if usable r2 then r2 else Raise extraction_failed)
  ∧ LogDebug "PyMuPDF extraction failed: %s" wrong_password
      ∈ (extract_text U L pdf_path password).1.
Proof.
  intros Hfitz Hopen Hneeds Hauth.
  assert (_extract_with_pymupdf U L pdf_path password = Raise wrong_password) as H1.
  { unfold _extract_with_pymupdf. rewrite Hfitz, Hopen. simpl.
    by rewrite Hneeds, Hauth. }
  split; [done|]. unfold extract_text. rewrite H1.
  destruct (_extract_with_pdfplumber U L pdf_path password) as [[|c t]|e]; simpl;
    split; try done; rewrite ?elem_of_cons; auto.
Qed.

Lemma C10_witness :
  _extract_with_pymupdf basic_ucd locked_libs (lit "a.pdf") (lit "guess")
    = Raise wrong_password
  ∧ (extract_text basic_ucd locked_libs (lit "a.pdf") (lit "guess")).2
    = Raise extraction_failed.
Proof.
  destruct (C10_rejected_password basic_ucd locked_libs (lit "a.pdf") (lit "guess")
              (λ _, Ok locked_doc) locked_doc eq_refl eq_refl eq_refl eq_refl)
    as (H1 & H2 & _).
  split; [exact H1 | exact H2].
Defined.

(** C10 as stated fails: with a rejected password the service raises the
    generic extraction failure, a [ValueError] and not the
    [PermissionError], and the very exception it raises for a document
    without text. *)
Lemma C10_counterexample :
  fd_needs_pass locked_doc = Some true
  ∧ fd_authenticate locked_doc (lit "guess") = false
  ∧ (extract_text basic_ucd locked_libs (lit "a.pdf") (lit "guess")).2
    = Raise extraction_failed
  ∧ exc_class_of extraction_failed ≠ PermissionError
  ∧ (extract_text basic_ucd blank_libs (lit "a.pdf") []).2
    = (extract_text basic_ucd locked_libs (lit "a.pdf") (lit "guess")).2.
Proof. split_and!; done. Qed.

(** ** Evaluating the matcher on texts of a known shape *)

Module ReEval.

Lemma basic_ucd_ok : UCD_ok basic_ucd.
Proof. by split. Qed.

Section ClassScan.
Variable U : UCD.
Variable fl : flags.
Variable items : list citem.

(** Membership in the character set [items]. *)
Definition in_set (ch : N) : bool := existsb (λ it, item_match U fl it ch) items.

Lemma accept_ne adv i s : ms_pos s ≠ i → accept adv i s = Some s.
Proof.
  intros Hne. unfold accept.
  destruct (Nat.eqb_spec (ms_pos s) i); [done|]. by rewrite andb_false_r.
Qed.

Lemma search_from_class_hit adv i prev c rest :
  in_set c = true →
  search_from U fl (Cset items) adv i prev (c :: rest)
  = Some (i, {| ms_pos := S i; ms_prev := Some c; ms_rest := rest; ms_caps := [] |}).
Proof.
  intros Hc. cbn [search_from mtch]. unfold one. cbn [ms_rest].
  fold (in_set c). rewrite Hc. rewrite accept_ne by (simpl; lia). done.
Qed.

Lemma search_from_class_miss adv i prev c rest :
  in_set c = false →
  search_from U fl (Cset items) adv i prev (c :: rest)
  = search_from U fl (Cset items) false (S i) (Some c) rest.
Proof.
  intros Hc. cbn [search_from mtch]. unfold one. cbn [ms_rest].
  fold (in_set c). by rewrite Hc.
Qed.

Lemma slice_one (pre : list N) c rest :
  slice (pre ++ c :: rest) (length pre) (S (length pre)) = [c].
Proof.
  unfold slice. rewrite drop_app_length.
  replace (S (length pre) - length pre) with 1 by lia. done.
Qed.

(** The matches of a one-character set are the characters of the set,
    in order. *)
Lemma scan_class rest : ∀ pre fuel adv prev,
  length rest < fuel →
  (λ m, default [] (group m 0)) <$>
    (mk_match (pre ++ rest) <$> scan U fl (Cset items) fuel adv (length pre) prev rest)
  = (λ c, [c]) <$> filter (λ c, in_set c = true) rest.
Proof.
  induction rest as [|c rest IH]; intros pre fuel adv prev Hfuel.
  - destruct fuel; [simpl in Hfuel; lia|]. done.
  - destruct fuel as [|fuel]; [simpl in Hfuel; lia|]. simpl in Hfuel.
    destruct (in_set c) eqn:Hc.
    + rewrite filter_cons_True by done.
      cbn [scan]. rewrite search_from_class_hit by done.
      cbn [ms_pos ms_prev ms_rest fmap list_fmap].
      f_equal.
      * unfold mk_match, group.
        cbn [m_string m_start m_end fst snd ms_pos default].
        by rewrite slice_one.
      * specialize (IH (pre ++ [c]) fuel (S (length pre) =? length pre) (Some c)).
        rewrite length_app, Nat.add_1_r, <- app_assoc in IH. apply IH. lia.
    + rewrite filter_cons_False by (by rewrite Hc).
      cbn [scan]. rewrite search_from_class_miss by done.
      specialize (IH (pre ++ [c]) (S fuel) false (Some c)).
      rewrite length_app, Nat.add_1_r, <- app_assoc in IH.
      rewrite <- IH by lia. done.
Qed.

Lemma re_findall0_class text :
  re_findall0 U fl (Cset items) text
  = (λ c, [c]) <$> filter (λ c, in_set c = true) text.
Proof.
  unfold re_findall0, re_finditer.
  apply (scan_class text [] (scan_fuel text) false None). unfold scan_fuel. lia.
Qed.

End ClassScan.

End ReEval.
Export ReEval.

(** ** Last four digits *)

(** The decimal digits of a text, in order. *)
Definition digits_of (U : UCD) (s : list N) : list N :=
  filter (λ c, uni_isdecimal U c = true) s.

Lemma concat_singletons (l : list N) : concat ((λ c, [c]) <$> l) = l.
Proof. induction l as [|c l IH]; [done|]. simpl. by f_equal. Qed.

Lemma findall_digits (U : UCD) (s : list N) :
  re_findall0 U NOFLAGS pat_digit s = (λ c, [c]) <$> digits_of U s.
Proof.
  unfold pat_digit, dg. rewrite re_findall0_class. f_equal.
  apply list_filter_iff. intros c. unfold in_set. simpl. by rewrite orb_false_r.
Qed.

Lemma last4_digits (U : UCD) (s : list N) :
  _last4_from_number_block U s
  = if 4 <=? length (digits_of U s)
    then Some (drop (length (digits_of U s) - 4) (digits_of U s))
    else None.
Proof.
  unfold _last4_from_number_block. cbv zeta.
  rewrite findall_digits, length_fmap, concat_singletons.
  destruct (digits_of U s) as [|d ds] eqn:Hd; [done|].
  rewrite bool_decide_eq_false_2 by done. done.
Qed.

Lemma digits_of_basic (U : UCD) (s : list N) :
  UCD_ok U → forallb is_basic s = true → digits_of U s = digits_of basic_ucd s.
Proof.
  intros HU. unfold digits_of. induction s as [|c s IH]; [done|]. simpl.
  intros [Hc Hs]%andb_true_iff.
  rewrite !filter_cons, (ok_isdecimal U HU c Hc), IH by done. done.
Qed.

(** C5. The routine collects the decimal digits of its input in order,
    whatever stands between them, and returns the last four of them when
    there are at least four; when there are fewer than four digits in
    all it returns absent; "4375 XXXX XXXX 8007" yields "8007". *)
Theorem C5_last_four_digits (U : UCD) :
  UCD_ok U →
  (∀ s, 4 ≤ length (digits_of U s) →
        ∃ d1 d2 d3 d4 front,
          digits_of U s = front ++ [d1; d2; d3; d4]
          ∧ _last4_from_number_block U s = Some [d1; d2; d3; d4])
  ∧ (∀ s, length (digits_of U s) < 4 → _last4_from_number_block U s = None)
  ∧ _last4_from_number_block U (lit "4375 XXXX XXXX 8007") = Some (lit "8007").
Proof.
  intros HU. split_and!.
  - intros s Hlen. rewrite last4_digits.
    destruct (Nat.leb_spec 4 (length (digits_of U s))) as [_|]; [|lia].
    remember (digits_of U s) as ds eqn:Hds. clear Hds.
    assert (length (drop (length ds - 4) ds) = 4) as Hl by (rewrite length_drop; lia).
    destruct (drop (length ds - 4) ds) as [|d1 [|d2 [|d3 [|d4 [|]]]]] eqn:Hdrop;
      try done.
    exists d1, d2, d3, d4, (take (length ds - 4) ds).
    split; [|done]. rewrite <- Hdrop. symmetry. apply take_drop.
  - intros s Hlen. rewrite last4_digits.
    destruct (Nat.leb_spec 4 (length (digits_of U s))); [lia | done].
  - rewrite last4_digits, digits_of_basic by done. by vm_compute.
Qed.

Lemma C5_witness :
  _last4_from_number_block basic_ucd (lit "4375 XXXX XXXX 8007") = Some (lit "8007")
  ∧ _last4_from_number_block basic_ucd (lit "43-7") = None.
Proof.
  destruct (C5_last_four_digits basic_ucd basic_ucd_ok) as (_ & Hfew & Hex).
  split; [exact Hex|]. apply Hfew. vm_compute. lia.
Defined.

(** ** Completeness of the matcher, and searching from a position *)

Module ReSearch.

Section Complete.
Variable U : UCD.
Variable fl : flags.

(** What a match consumes: the characters between the two states. *)
Definition span (s s' : mstate) (w : list N) : Prop :=
  ms_rest s = w ++ ms_rest s' ∧ ms_pos s' = ms_pos s + length w
  ∧ ms_prev s' = match last w with Some c => Some c | None => ms_prev s end.

Lemma span_nil s : span s s [].
Proof. unfold span. simpl. split_and!; [done | lia | done]. Qed.

Lemma span_trans s1 s2 s3 w1 w2 :
  span s1 s2 w1 → span s2 s3 w2 → span s1 s3 (w1 ++ w2).
Proof.
  intros (Hr1 & Hp1 & Hv1) (Hr2 & Hp2 & Hv2). unfold span.
  rewrite Hr1, Hr2, Hp2, Hp1, Hv2, Hv1, length_app, <- app_assoc.
  split_and!; [done | lia |].
  rewrite last_app. by destruct (last w2).
Qed.

Lemma consumes_span p s s' :
  consumes p s s' → ∃ c, p c = true ∧ span s s' [c].
Proof.
  intros (c & rest & Hr & Hp & ->). exists c. split; [done|].
  unfold span, advance. simpl. split_and!; [done | lia | done].
Qed.

Lemma span_set_cap s s' w n a b : span s s' w → span s (set_cap n a b s') w.
Proof. done. Qed.

Lemma niter_span (R : mstate → mstate → Prop) :
  (∀ s s', R s s' → ∃ w, span s s' w) →
  ∀ n s s', niter R n s s' → ∃ w, span s s' w ∧ n ≤ length w.
Proof.
  intros HR. induction n as [|n IH]; simpl; intros s s' Hit.
  - subst. exists []. split; [apply span_nil | simpl; lia].
  - destruct Hit as (s1 & H1 & Hlt & Hit).
    apply HR in H1 as (w1 & H1). apply IH in Hit as (w2 & H2 & Hn).
    exists (w1 ++ w2). split; [by eapply span_trans|].
    destruct H1 as (_ & Hp & _). rewrite length_app. lia.
Qed.

Lemma matches_span r : ∀ s s', matches U fl r s s' → ∃ w, span s s' w.
Proof.
  induction r as [|c|items| | | |r1 IH1 r2 IH2|r1 IH1 r2 IH2|lo hi g r IH|n r IH];
    simpl; intros s s' Hm.
  - subst. exists []. apply span_nil.
  - apply consumes_span in Hm as (c' & _ & ?). eauto.
  - apply consumes_span in Hm as (c' & _ & ?). eauto.
  - apply consumes_span in Hm as (c' & _ & ?). eauto.
  - destruct Hm as [_ ->]. exists []. apply span_nil.
  - destruct Hm as [_ ->]. exists []. apply span_nil.
  - destruct Hm as (s1 & H1 & H2).
    apply IH1 in H1 as (w1 & H1). apply IH2 in H2 as (w2 & H2).
    exists (w1 ++ w2). by eapply span_trans.
  - destruct Hm as [Hm|Hm]; eauto.
  - destruct Hm as (m & _ & _ & Hit).
    apply (niter_span _ IH) in Hit as (w & ? & _). eauto.
  - destruct Hm as (s1 & H1 & ->). apply IH in H1 as (w & H1). by exists w.
Qed.

Lemma one_complete p (k : mstate → option mstate) s s' :
  consumes p s s' → is_Some (k s') → is_Some (one p k s).
Proof. intros (c & rest & Hr & Hp & ->) Hk. unfold one. by rewrite Hr, Hp. Qed.

Lemma orelse_is_Some {A} (x y : option A) :
  is_Some x ∨ is_Some y → is_Some (orelse x y).
Proof. destruct x; simpl; [eauto | intros [[? [=]]|?]; done]. Qed.

Lemma rep_loop_complete (body : (mstate → option mstate) → mstate → option mstate)
    (R : mstate → mstate → Prop) lo hi greedy k :
  (∀ k' s s', R s s' → is_Some (k' s') → is_Some (body k' s)) →
  ∀ m n s s' fuel,
    niter R m s s' → m < fuel → lo ≤ n + m →
    match hi with Some h => n + m ≤ h | None => True end →
    is_Some (k s') →
    is_Some (rep_loop body lo hi greedy k fuel n s).
Proof.
  intros Hbody. induction m as [|m IH]; intros n s s' fuel Hit Hfuel Hlo Hhi Hk.
  - simpl in Hit. subst s'.
    assert (is_Some (if lo <=? n then k s else None)) as Hleave.
    { destruct (Nat.leb_spec lo n); [done | lia]. }
    destruct fuel as [|fuel]; [lia|]. simpl.
    destruct greedy; apply orelse_is_Some; auto.
  - simpl in Hit. destruct Hit as (s1 & H1 & Hlt & Hit).
    destruct fuel as [|fuel]; [lia|]. simpl.
    assert (is_Some
      (if match hi with Some h => n <? h | None => true end
       then body (λ s', if ms_pos s <? ms_pos s'
                        then rep_loop body lo hi greedy k fuel (S n) s'
                        else None) s
       else None)) as Hmore.
    { replace (match hi with Some h => n <? h | None => true end) with true.
      2:{ destruct hi as [h|]; [|done]. symmetry. apply Nat.ltb_lt. lia. }
      apply (Hbody _ s s1 H1).
      destruct (Nat.ltb_spec (ms_pos s) (ms_pos s1)); [|lia].
      apply (IH (S n) s1 s' fuel Hit); [lia | lia | | done].
      destruct hi; [lia | done]. }
    destruct greedy; apply orelse_is_Some; auto.
Qed.

Theorem mtch_complete r : ∀ k s s',
  matches U fl r s s' → is_Some (k s') → is_Some (mtch U fl r k s).
Proof.
  induction r as [|c|items| | | |r1 IH1 r2 IH2|r1 IH1 r2 IH2|lo hi g r IH|n r IH];
    intros k s s' Hm Hk; cbn [mtch]; simpl in Hm.
  - by subst.
  - by eapply one_complete.
  - by eapply one_complete.
  - by eapply one_complete.
  - destruct Hm as [-> ->]. done.
  - destruct Hm as [-> ->]. done.
  - destruct Hm as (s1 & H1 & H2). eauto.
  - apply orelse_is_Some. destruct Hm; eauto.
  - destruct Hm as (m & Hlo & Hhi & Hit).
    destruct (niter_span _ (matches_span r) _ _ _ Hit) as (w & (Hr & _ & _) & Hw).
    apply (rep_loop_complete _ (matches U fl r) lo hi g k IH m 0 s s'); try done.
    rewrite Hr, length_app. lia.
  - destruct Hm as (s1 & H1 & ->). by apply (IH _ s s1).
Qed.

Lemma mtch_no_match r k s :
  (∀ s', ¬ matches U fl r s s') → mtch U fl r k s = None.
Proof.
  intros Hno. destruct (mtch U fl r k s) as [f|] eqn:Hm; [|done].
  apply mtch_sound in Hm as (s' & Hm & _). by destruct (Hno s').
Qed.

Lemma mtch_None_matches r s :
  mtch U fl r Some s = None → ∀ s', ¬ matches U fl r s s'.
Proof.
  intros Hnone s' Hm.
  destruct (mtch_complete r Some s s' Hm) as [f Hf]; [by eexists|]. congruence.
Qed.

(** *** Searching a text from a position *)

(** The character before position [i] of [text]. *)
Definition prev_at (text : list N) (i : nat) : option N :=
  match i with
  | O => None
  | S j => text !! j
  end.

(** The matcher at position [i] of [text], with no group closed. *)
Definition st_at (text : list N) (i : nat) : mstate :=
  {| ms_pos := i; ms_prev := prev_at text i; ms_rest := drop i text; ms_caps := [] |}.

(** [re.compile(r).search(text, i)], with the [must_advance] flag of the
    scanner. *)
Definition search_at (text : list N) (r : regex) (adv : bool) (i : nat)
    : option (nat * mstate) :=
  search_from U fl r adv i (prev_at text i) (drop i text).

Lemma search_at_unfold text r adv i :
  search_at text r adv i
  = match mtch U fl r (accept adv i) (st_at text i) with
    | Some s => Some (i, s)
    | None => if i <? length text then search_at text r false (S i) else None
    end.
Proof.
  unfold search_at, st_at.
  destruct (Nat.ltb_spec i (length text)) as [Hlt|Hge].
  - destruct (lookup_lt_is_Some_2 text i Hlt) as [c Hc].
    rewrite (drop_S _ _ _ Hc). cbn [search_from prev_at]. by rewrite Hc.
  - rewrite drop_ge by done. done.
Qed.

Lemma re_search_at text r :
  re_search U fl r text = mk_match text <$> search_at text r false 0.
Proof. done. Qed.

(** A state that stands in [text]. *)
Definition at_text (text : list N) (s : mstate) : Prop :=
  ms_rest s = drop (ms_pos s) text ∧ ms_prev s = prev_at text (ms_pos s)
  ∧ ms_pos s ≤ length text.

Lemma st_at_at_text text i : i ≤ length text → at_text text (st_at text i).
Proof. done. Qed.

Lemma last_lookup_app (w : list N) c l n :
  drop n l = w ++ [c] ++ drop (n + length w + 1) l →
  l !! (n + length w) = Some c.
Proof.
  intros Hd. rewrite <- (Nat.add_0_r (n + length w)), <- Nat.add_assoc.
  rewrite <- lookup_drop, Hd, lookup_app_r by lia.
  by replace (length w + 0 - length w) with 0 by lia.
Qed.

Lemma span_at_text text s s' w :
  at_text text s → span s s' w →
  at_text text s' ∧ w = slice text (ms_pos s) (ms_pos s').
Proof.
  intros (Hr & Hv & Hp) (Hr' & Hp' & Hv').
  assert (length w + length (ms_rest s') = length text - ms_pos s) as Hlen.
  { rewrite <- length_app, <- Hr', Hr. apply length_drop. }
  assert (ms_rest s' = drop (ms_pos s') text) as Hrest.
  { rewrite Hp', <- drop_drop, <- Hr, Hr', drop_app_length. done. }
  split; [split_and!|].
  - done.
  - rewrite Hv', Hp'. destruct w as [|c w _] using rev_ind.
    + simpl. by rewrite Nat.add_0_r.
    + rewrite last_snoc, length_app. simpl.
      replace (ms_pos s + (length w + 1)) with (S (ms_pos s + length w)) by lia.
      simpl. symmetry. apply (last_lookup_app w c).
      rewrite <- Hr, Hr', <- app_assoc. simpl. do 2 f_equal.
      rewrite Hrest, Hp', length_app. simpl. f_equal. lia.
  - lia.
  - unfold slice. rewrite <- Hr, Hr', Hp'.
    replace (ms_pos s + length w - ms_pos s) with (length w) by lia.
    by rewrite take_app_length.
Qed.

Lemma accept_Some' adv i s f : accept adv i s = Some f → f = s ∧ (adv = true → ms_pos s ≠ i).
Proof.
  unfold accept. destruct adv; simpl.
  - destruct (Nat.eqb_spec (ms_pos s) i); [done|]. by intros [= ->].
  - by intros [= ->].
Qed.

Lemma mtch_at_Some text r adv i f :
  i ≤ length text →
  mtch U fl r (accept adv i) (st_at text i) = Some f →
  matches U fl r (st_at text i) f ∧ at_text text f ∧ i ≤ ms_pos f
  ∧ (adv = true → i < ms_pos f).
Proof.
  intros Hi Hm. apply mtch_sound in Hm as (s' & Hm & Hacc).
  apply accept_Some' in Hacc as [-> Hadv].
  destruct (matches_span r _ _ Hm) as (w & Hw).
  destruct (span_at_text text _ _ w (st_at_at_text text i Hi) Hw) as [Hat _].
  destruct Hw as (_ & Hpos & _). simpl in Hpos.
  split_and!; [done | done | lia |]. intros Ha. specialize (Hadv Ha). lia.
Qed.

(** What a successful search returns: the leftmost position from [i] on
    at which the pattern matches, and a match from there. *)
Lemma search_at_Some text r : ∀ n adv i st s,
  length text - i = n →
  i ≤ length text →
  search_at text r adv i = Some (st, s) →
  i ≤ st ≤ length text
  ∧ matches U fl r (st_at text st) s
  ∧ at_text text s
  ∧ st ≤ ms_pos s
  ∧ (adv = true → st = i → st < ms_pos s)
  ∧ (∀ j, i ≤ j < st → mtch U fl r (accept (adv && Nat.eqb j i) j) (st_at text j) = None).
Proof.
  induction n as [|n IH]; intros adv i st s Hn Hi; rewrite search_at_unfold;
    destruct (mtch U fl r (accept adv i) (st_at text i)) as [f|] eqn:Hm.
  - intros [= <- <-]. apply mtch_at_Some in Hm as (? & ? & ? & ?); [|done].
    split_and!; [lia | lia | done | done | done | auto | intros j Hj; lia].
  - destruct (Nat.ltb_spec i (length text)); [lia | done].
  - intros [= <- <-]. apply mtch_at_Some in Hm as (? & ? & ? & ?); [|done].
    split_and!; [lia | lia | done | done | done | auto | intros j Hj; lia].
  - destruct (Nat.ltb_spec i (length text)); [|done].
    intros Hs. apply (IH false (S i)) in Hs as (Hst & Hmat & Hat & Hle & _ & Hbefore);
      [|lia..].
    split_and!; [lia | lia | done | done | done | intros; lia |].
    intros j Hj. destruct (decide (j = i)) as [->|Hne].
    + by rewrite Nat.eqb_refl, andb_true_r.
    + replace (adv && (j =? i)) with (false && (j =? S i)).
      * apply Hbefore. lia.
      * simpl. destruct (Nat.eqb_spec j i); [done|]. by rewrite andb_false_r.
Qed.

Lemma search_at_None text r : ∀ n adv i,
  length text - i = n →
  search_at text r adv i = None →
  ∀ j, i ≤ j ≤ length text →
       mtch U fl r (accept (adv && Nat.eqb j i) j) (st_at text j) = None.
Proof.
  induction n as [|n IH]; intros adv i Hn; rewrite search_at_unfold;
    destruct (mtch U fl r (accept adv i) (st_at text i)) as [f|] eqn:Hm; try done.
  - intros _ j Hj. assert (j = i) as -> by lia.
    by rewrite Nat.eqb_refl, andb_true_r.
  - destruct (Nat.ltb_spec i (length text)); [|lia].
    intros Hs j Hj. destruct (decide (j = i)) as [->|Hne].
    + by rewrite Nat.eqb_refl, andb_true_r.
    + replace (adv && (j =? i)) with (false && (j =? S i)).
      * apply (IH false (S i)); [lia | done | lia].
      * simpl. destruct (Nat.eqb_spec j i); [done|]. by rewrite andb_false_r.
Qed.

End Complete.

End ReSearch.
Export ReSearch.

(** ** Running the matcher over a text given piece by piece *)

Module ReZipper.

Section Zipper.
Variable U : UCD.
Variable fl : flags.

(** The character before the position reached after consuming [w]. *)
Definition last_or (p : option N) (w : list N) : option N :=
  match last w with
  | Some c => Some c
  | None => p
  end.

(** The state reached from [s] by consuming [w], with [rest] left. *)
Definition after (w rest : list N) (s : mstate) : mstate :=
  {| ms_pos := ms_pos s + length w; ms_prev := last_or (ms_prev s) w;
     ms_rest := rest; ms_caps := ms_caps s |}.

Lemma after_nil rest s : ms_rest s = rest → after [] rest s = s.
Proof.
  intros <-. destruct s as [i p r cs]. unfold after, last_or. simpl.
  f_equal. lia.
Qed.

Lemma last_or_cons p c w : last_or p (c :: w) = last_or (Some c) w.
Proof.
  unfold last_or. destruct w as [|c' w]; [done|].
  change (last (c :: c' :: w)) with (last (c' :: w)).
  destruct (last_is_Some (c' :: w)) as [_ [x ->]]; done.
Qed.

Lemma after_cons c w rest s :
  after (c :: w) rest s = after w rest (advance c (w ++ rest) s).
Proof.
  unfold after, advance. simpl. rewrite last_or_cons. f_equal. lia.
Qed.

Lemma last_or_app p w1 w2 : last_or p (w1 ++ w2) = last_or (last_or p w1) w2.
Proof. unfold last_or. rewrite last_app. by destruct (last w2). Qed.

Lemma after_app w1 w2 rest s :
  after (w1 ++ w2) rest s = after w2 rest (after w1 (w2 ++ rest) s).
Proof.
  unfold after. simpl. rewrite last_or_app, length_app. f_equal. lia.
Qed.

(** [p] does not hold of the next character, if any. *)
Definition stops (p : N → bool) (rest : list N) : Prop :=
  match rest with
  | [] => True
  | c :: _ => p c = false
  end.

Lemma one_hit p (k : mstate → option mstate) s c rest :
  ms_rest s = c :: rest → p c = true → one p k s = k (advance c rest s).
Proof. intros Hr Hp. unfold one. by rewrite Hr, Hp. Qed.

Lemma one_miss p (k : mstate → option mstate) s :
  stops p (ms_rest s) → one p k s = None.
Proof. unfold one, stops. destruct (ms_rest s); [done|]. by intros ->. Qed.

Lemma orelse_None_r {A} (x : option A) : orelse x None = x.
Proof. by destruct x. Qed.

Section Loop.
Variable body : (mstate → option mstate) → mstate → option mstate.
Variable p : N → bool.
Hypothesis body_one : ∀ k s, body k s = one p k s.

(** No iteration is possible: the loop can only leave. *)
Lemma rep_loop_stops lo hi greedy k fuel n s :
  stops p (ms_rest s) →
  rep_loop body lo hi greedy k fuel n s = if lo <=? n then k s else None.
Proof.
  intros Hstop.
  assert (∀ K, body K s = None) as Hbody by (intros; by rewrite body_one, one_miss).
  destruct fuel; simpl; rewrite ?Hbody;
    destruct greedy, hi as [h|]; simpl; try destruct (n <? h);
    by rewrite ?orelse_None_r.
Qed.

(** A greedy loop first tries the longest run it can take. *)
Lemma rep_loop_longest lo hi k f : ∀ w fuel n s rest,
  ms_rest s = w ++ rest →
  Forall (λ c, p c = true) w →
  match hi with
  | Some h => n + length w = h ∨ (n + length w < h ∧ stops p rest)
  | None => stops p rest
  end →
  length w < fuel →
  lo ≤ n + length w →
  k (after w rest s) = Some f →
  rep_loop body lo hi true k fuel n s = Some f.
Proof.
  induction w as [|c w IH]; intros fuel n s rest Hr Hw Hhalt Hfuel Hlo Hk.
  - rewrite after_nil in Hk by done. simpl in *.
    destruct fuel as [|fuel]; [lia|]. simpl.
    destruct (Nat.leb_spec lo n); [|lia].
    assert ((if match hi with Some h => n <? h | None => true end
             then body (λ s', if ms_pos s <? ms_pos s'
                              then rep_loop body lo hi true k fuel (S n) s'
                              else None) s
             else None) = None) as ->; [|done].
    destruct hi as [h|].
    + destruct Hhalt as [<-|[_ Hstop]].
      * by rewrite Nat.add_0_r, Nat.ltb_irrefl.
      * rewrite body_one, one_miss by (by rewrite Hr). by destruct (n <? h).
    + by rewrite body_one, one_miss by (by rewrite Hr).
  - simpl in *. destruct fuel as [|fuel]; [lia|]. simpl.
    apply Forall_cons in Hw as [Hc Hw].
    assert (match hi with Some h => n <? h | None => true end = true) as ->.
    { destruct hi as [h|]; [|done]. apply Nat.ltb_lt.
      destruct Hhalt as [?|[? _]]; lia. }
    rewrite body_one, (one_hit _ _ _ c (w ++ rest)) by done.
    replace (ms_pos s <? ms_pos (advance c (w ++ rest) s)) with true
      by (symmetry; apply Nat.ltb_lt; simpl; lia).
    rewrite (IH fuel (S n) (advance c (w ++ rest) s) rest); try done.
    + destruct hi as [h|]; [|done].
      destruct Hhalt as [?|[? ?]]; [left; lia | right; split; [lia | done]].
    + lia.
    + lia.
    + by rewrite <- after_cons.
Qed.

End Loop.

Lemma rep_set_stops items lo hi greedy k s :
  stops (in_set U fl items) (ms_rest s) →
  mtch U fl (Rep lo hi greedy (Cset items)) k s = if lo <=? 0 then k s else None.
Proof. intros. cbn [mtch]. by apply (rep_loop_stops _ (in_set U fl items)). Qed.

Lemma rep_set_longest items lo hi k s w rest f :
  ms_rest s = w ++ rest →
  Forall (λ c, in_set U fl items c = true) w →
  match hi with
  | Some h => length w = h ∨ (length w < h ∧ stops (in_set U fl items) rest)
  | None => stops (in_set U fl items) rest
  end →
  lo ≤ length w →
  k (after w rest s) = Some f →
  mtch U fl (Rep lo hi true (Cset items)) k s = Some f.
Proof.
  intros Hr Hw Hhalt Hlo Hk. cbn [mtch].
  apply (rep_loop_longest _ (in_set U fl items)) with (w := w) (rest := rest);
    try done.
  rewrite Hr, length_app. lia.
Qed.

(** A literal word, character by character. *)
Lemma word_hit (w0 : list N) : ∀ w k s rest,
  ms_rest s = w ++ rest →
  Forall2 (λ c0 c, item_match U fl (CLit c0) c = true) w0 w →
  mtch U fl (seqs (Lit <$> w0)) k s = k (after w rest s).
Proof.
  induction w0 as [|c0 w0 IH]; intros w k s rest Hr Hw.
  - apply Forall2_nil_inv_l in Hw as ->. by rewrite after_nil.
  - apply Forall2_cons_inv_l in Hw as (c & w' & Hc & Hw & ->).
    cbn [fmap list_fmap seqs foldr mtch].
    rewrite (one_hit _ _ _ c (w' ++ rest)) by done.
    fold (seqs (Lit <$> w0)). rewrite (IH w' _ _ rest) by done.
    by rewrite <- after_cons.
Qed.

Lemma search_from_hit r adv i prev rest f :
  mtch U fl r (accept adv i)
    {| ms_pos := i; ms_prev := prev; ms_rest := rest; ms_caps := [] |} = Some f →
  search_from U fl r adv i prev rest = Some (i, f).
Proof. intros Hm. destruct rest; simpl; by rewrite Hm. Qed.

(** The scan moves over characters at which no match can start. *)
Lemma search_from_skip r (dead : N → Prop) :
  (∀ c, dead c → ∀ k s rest, ms_rest s = c :: rest → mtch U fl r k s = None) →
  ∀ w adv i prev rest,
    Forall dead w →
    search_from U fl r adv i prev (w ++ rest)
    = search_from U fl r (adv && bool_decide (w = [])) (i + length w)
        (last_or prev w) rest.
Proof.
  intros Hdead. induction w as [|c w IH]; intros adv i prev rest Hw.
  - simpl. by rewrite andb_true_r, Nat.add_0_r.
  - apply Forall_cons in Hw as [Hc Hw]. simpl.
    rewrite (Hdead c Hc _ _ (w ++ rest)) by done.
    rewrite IH by done. rewrite andb_false_r, last_or_cons.
    cbn [andb]. by replace (S i + length w) with (i + S (length w)) by lia.
Qed.

End Zipper.

End ReZipper.
Export ReZipper.

(** ** Characters of the reference repertoire, stripping and replacing *)

Module CharFacts.

(** Characters on which the reference tables decide. *)
Definition item_basic (it : citem) : bool :=
  match it with
  | CLit c => is_basic c
  | CRange _ hi => (hi <? 128)%N
  | _ => true
  end.

Lemma elem_of_crange c lo hi : c ∈ crange lo hi → (lo ≤ c ≤ hi)%N.
Proof.
  unfold crange. intros (i & -> & Hi)%list_elem_of_fmap.
  apply elem_of_seq in Hi. lia.
Qed.

Section BasicChars.
Variable U : UCD.
Hypothesis HU : UCD_ok U.
Variable fl : flags.

Lemma item_match_basic it ch :
  item_basic it = true → is_basic ch = true →
  item_match U fl it ch = item_match basic_ucd fl it ch.
Proof.
  intros Hit Hch. destruct it as [c|lo hi| | |]; simpl in *.
  - destruct (IGNORECASE fl); [|done]. by apply (ok_ieq U HU).
  - destruct (IGNORECASE fl); [|done].
    assert (Forall (λ c, is_basic c = true) (crange lo hi)) as Hr.
    { apply Forall_forall. intros c Hc%elem_of_crange.
      apply N.ltb_lt in Hit. unfold is_basic.
      replace (c <? 128)%N with true by (symmetry; apply N.ltb_lt; lia). done. }
    induction Hr as [|c l Hc _ IH]; [done|]. simpl.
    by rewrite IH, (ok_ieq U HU c ch).
  - by apply (ok_isdecimal U HU).
  - by apply (ok_isspace U HU).
  - by rewrite (ok_isspace U HU).
Qed.

Lemma in_set_basic items ch :
  forallb item_basic items = true → is_basic ch = true →
  in_set U fl items ch = in_set basic_ucd fl items ch.
Proof.
  intros Hitems Hch. unfold in_set.
  induction items as [|it items IH]; [done|]. simpl in *.
  apply andb_true_iff in Hitems as [Hit Hitems].
  by rewrite IH, item_match_basic.
Qed.

Lemma is_word_basic ch :
  is_basic ch = true → is_word U ch = is_word basic_ucd ch.
Proof. intros Hch. unfold is_word. by rewrite (ok_isalnum U HU). Qed.

End BasicChars.

(** A property of the reference tables that holds of every character of
    a finite alphabet holds of each character taken from it. *)
Lemma alphabet_forall (P : N → bool) (alphabet : list N) c :
  forallb P alphabet = true → c ∈ alphabet → P c = true.
Proof.
  intros Hall Hc. rewrite forallb_forall in Hall. apply Hall.
  by apply list_elem_of_In.
Qed.

Section Strip.
Variable isspace : N → bool.

Lemma lstrip_spaces (w rest : list N) :
  Forall (λ c, isspace c = true) w → lstrip isspace (w ++ rest) = lstrip isspace rest.
Proof. induction 1 as [|c w Hc _ IH]; [done|]. simpl. by rewrite Hc. Qed.

Lemma lstrip_stops (rest : list N) :
  stops isspace rest → lstrip isspace rest = rest.
Proof. destruct rest as [|c rest]; [done|]. simpl. by intros ->. Qed.

Lemma lstrip_app (a b : list N) :
  stops isspace b → b ≠ [] → lstrip isspace (a ++ b) = lstrip isspace a ++ b.
Proof.
  intros Hb Hne. induction a as [|c a IH]; simpl.
  - by apply lstrip_stops.
  - by destruct (isspace c).
Qed.

Lemma lstrip_Forall (P : N → Prop) (s : list N) :
  Forall P s → Forall P (lstrip isspace s).
Proof.
  induction 1 as [|c s Hc Hs IH]; [done|]. simpl.
  destruct (isspace c); [done | by constructor].
Qed.

Lemma rstrip_spaces (a w : list N) :
  Forall (λ c, isspace c = true) w → rstrip isspace (a ++ w) = rstrip isspace a.
Proof.
  intros Hw. unfold rstrip. rewrite reverse_app, lstrip_spaces; [done|].
  by apply Forall_reverse.
Qed.

Lemma rstrip_stops (a : list N) c :
  isspace c = false → rstrip isspace (a ++ [c]) = a ++ [c].
Proof.
  intros Hc. unfold rstrip. rewrite reverse_app. simpl. rewrite Hc.
  change (c :: reverse a) with (reverse [c] ++ reverse a).
  by rewrite <- reverse_app, reverse_involutive.
Qed.

Lemma rstrip_nil : rstrip isspace [] = [].
Proof. done. Qed.

End Strip.

Lemma replace1_app old new (a b : list N) :
  replace1 old new (a ++ b) = replace1 old new a ++ replace1 old new b.
Proof. unfold replace1. apply bind_app. Qed.

Lemma replace1_id old new (s : list N) :
  Forall (λ c, c ≠ old) s → replace1 old new s = s.
Proof.
  unfold replace1. induction 1 as [|c s Hc _ IH]; [done|]. simpl.
  destruct (N.eqb_spec c old); [done|]. simpl. by f_equal.
Qed.

Lemma replace1_map old new (s : list N) :
  replace1 old [new] s = (λ c, if (c =? old)%N then new else c) <$> s.
Proof.
  unfold replace1. induction s as [|c s IH]; [done|]. simpl.
  destruct (c =? old)%N; simpl; by f_equal.
Qed.

End CharFacts.
Export CharFacts.

(** ** Substitutions of [_clean_amount] *)

Section Subs.
Variable U : UCD.
Hypothesis HU : UCD_ok U.

Section Unfold.
Variable fl : flags.
Implicit Types (k : mstate → option mstate) (s : mstate).

Lemma mtch_Empty k s : mtch U fl Empty k s = k s.
Proof. done. Qed.
Lemma mtch_Lit c k s : mtch U fl (Lit c) k s = one (item_match U fl (CLit c)) k s.
Proof. done. Qed.
Lemma mtch_Cset items k s : mtch U fl (Cset items) k s = one (in_set U fl items) k s.
Proof. done. Qed.
Lemma mtch_Bol k s : mtch U fl Bol k s = if Nat.eqb (ms_pos s) 0 then k s else None.
Proof. done. Qed.
Lemma mtch_WordB k s : mtch U fl WordB k s = if at_boundary U s then k s else None.
Proof. done. Qed.
Lemma mtch_Seq r1 r2 k s : mtch U fl (Seq r1 r2) k s = mtch U fl r1 (mtch U fl r2 k) s.
Proof. done. Qed.
Lemma mtch_Alt r1 r2 k s :
  mtch U fl (Alt r1 r2) k s = orelse (mtch U fl r1 k s) (mtch U fl r2 k s).
Proof. done. Qed.
Lemma mtch_Group n r k s :
  mtch U fl (Group n r) k s
  = mtch U fl r (λ s', k (set_cap n (ms_pos s) (ms_pos s') s')) s.
Proof. done. Qed.
Lemma mtch_seqs_cons r rs k s :
  mtch U fl (seqs (r :: rs)) k s = mtch U fl r (mtch U fl (seqs rs) k) s.
Proof. done. Qed.
Lemma mtch_seqs_nil k s : mtch U fl (seqs []) k s = k s.
Proof. done. Qed.

End Unfold.

Lemma search_from_miss fl r adv i prev rest :
  mtch U fl r (accept adv i)
    {| ms_pos := i; ms_prev := prev; ms_rest := rest; ms_caps := [] |} = None →
  search_from U fl r adv i prev rest
  = match rest with
    | [] => None
    | c :: rest' => search_from U fl r false (S i) (Some c) rest'
    end.
Proof. intros Hm. destruct rest; simpl; by rewrite Hm. Qed.

(** [^] only matches at the start of the text. *)
Lemma search_from_bol fl r : ∀ rest adv i prev,
  0 < i → search_from U fl (Seq Bol r) adv i prev rest = None.
Proof.
  induction rest as [|c rest IH]; intros adv i prev Hi; simpl;
    destruct (Nat.eqb_spec i 0); try lia; [done|]. apply IH. lia.
Qed.

Lemma sub_loop_no_match fl r repl fuel adv i prev rest :
  search_from U fl r adv i prev rest = None →
  sub_loop U fl r repl fuel adv i prev rest = rest.
Proof. intros Hs. destruct fuel; simpl; [done|]. by rewrite Hs. Qed.

Lemma scan_fuel_S (text : list N) : ∃ fuel, scan_fuel text = S (S fuel).
Proof. exists (2 * length text). unfold scan_fuel. lia. Qed.

Lemma sub_loop_hit fl r repl fuel adv i prev rest st f :
  search_from U fl r adv i prev rest = Some (st, f) →
  sub_loop U fl r repl (S fuel) adv i prev rest
  = take (st - i) rest ++ repl ++
    sub_loop U fl r repl fuel (Nat.eqb (ms_pos f) st)
      (ms_pos f) (ms_prev f) (ms_rest f).
Proof. intros Hs. simpl. by rewrite Hs. Qed.

(** The characters that [^[₹r\s]+] removes. *)
Definition prefix_items : list citem := [cl "₹"; cl "r"; CSpace].

Lemma sub_currency_prefix (pre rest : list N) :
  Forall (λ c, in_set U NOFLAGS prefix_items c = true) pre →
  stops (in_set U NOFLAGS prefix_items) rest →
  re_sub U NOFLAGS pat_currency_prefix [] (pre ++ rest) = rest.
Proof.
  intros Hpre Hrest. unfold re_sub, pat_currency_prefix, plus.
  destruct pre as [|c pre].
  - apply sub_loop_no_match. rewrite search_from_miss.
    + destruct rest; [done|]. apply search_from_bol. lia.
    + rewrite mtch_Seq, mtch_Bol. cbn [ms_pos Nat.eqb]. by rewrite rep_set_stops.
  - destruct (scan_fuel_S ((c :: pre) ++ rest)) as [fuel ->].
    rewrite (sub_loop_hit _ _ _ _ _ _ _ _ 0
      (after (c :: pre) rest {| ms_pos := 0; ms_prev := None;
                                ms_rest := (c :: pre) ++ rest; ms_caps := [] |})).
    + cbn [after ms_pos ms_prev ms_rest length Nat.add Nat.sub take app].
      rewrite sub_loop_no_match; [done|]. apply search_from_bol. lia.
    + apply search_from_hit. rewrite mtch_Seq, mtch_Bol. cbn [ms_pos Nat.eqb].
      apply rep_set_longest with (w := c :: pre) (rest := rest); try done.
      simpl. lia.
Qed.

(** The characters at which [\s*CR\b] cannot start. *)
Definition cr_dead (c : N) : Prop :=
  uni_isspace U c = false ∧ uni_ieq U (chr "C") c = false.

Lemma cr_suffix_dead c : cr_dead c →
  ∀ k s rest, ms_rest s = c :: rest → mtch U IC pat_cr_suffix k s = None.
Proof.
  intros [Hsp HC] k s rest Hr. unfold pat_cr_suffix, star, sp.
  rewrite mtch_seqs_cons, rep_set_stops.
  2:{ rewrite Hr. unfold stops, in_set. simpl. by rewrite Hsp. }
  cbn [Nat.leb]. rewrite mtch_seqs_cons.
  change (word "CR") with (seqs [Lit (chr "C"); Lit (chr "R")]).
  rewrite mtch_seqs_cons, mtch_Lit.
  apply one_miss. rewrite Hr. simpl. exact HC.
Qed.


(** [\s*CR\b] on whitespace followed by a final "CR" in any case. *)
Lemma cr_suffix_hit adv i prev (ws : list N) c1 c2 :
  Forall (λ c, uni_isspace U c = true) ws →
  c1 ∈ lit "Cc" → c2 ∈ lit "Rr" →
  mtch U IC pat_cr_suffix (accept adv i)
    {| ms_pos := i; ms_prev := prev; ms_rest := ws ++ [c1; c2]; ms_caps := [] |}
  = Some {| ms_pos := i + length ws + 2; ms_prev := Some c2; ms_rest := [];
            ms_caps := [] |}.
Proof.
  intros Hws H1 H2.
  assert (is_basic c1 = true ∧ basic_isspace c1 = false
          ∧ (ascii_lower (chr "C") =? ascii_lower c1)%N = true) as (Hb1 & Hs1 & Hi1).
  { apply (alphabet_forall
      (λ c, bool_decide (is_basic c = true ∧ basic_isspace c = false
        ∧ (ascii_lower (chr "C") =? ascii_lower c)%N = true)) (lit "Cc")) in H1;
      [by apply bool_decide_eq_true in H1 | done]. }
  assert (is_basic c2 = true ∧ basic_isalnum c2 = true
          ∧ (ascii_lower (chr "R") =? ascii_lower c2)%N = true) as (Hb2 & Hw2 & Hi2).
  { apply (alphabet_forall
      (λ c, bool_decide (is_basic c = true ∧ basic_isalnum c = true
        ∧ (ascii_lower (chr "R") =? ascii_lower c)%N = true)) (lit "Rr")) in H2;
      [by apply bool_decide_eq_true in H2 | done]. }
  unfold pat_cr_suffix, star, sp. rewrite mtch_seqs_cons.
  apply rep_set_longest with (w := ws) (rest := [c1; c2]); try done.
  - apply Forall_impl with (1 := Hws). intros c Hc. unfold in_set. simpl.
    by rewrite Hc.
  - unfold stops, in_set. simpl. by rewrite (ok_isspace U HU), Hs1.
  - lia.
  - rewrite mtch_seqs_cons.
    rewrite (word_hit U IC (lit "CR") [c1; c2] _ _ []); [|done|].
    2:{ repeat constructor; simpl; by rewrite (ok_ieq U HU). }
    rewrite mtch_seqs_cons, mtch_WordB.
    replace (at_boundary U _) with true.
    2:{ unfold at_boundary, after, last_or. simpl.
        by rewrite (is_word_basic U HU), xorb_false_r; unfold is_word; simpl;
          rewrite ?Hw2. }
    rewrite mtch_seqs_nil, accept_ne by (simpl; lia).
    unfold after, last_or. simpl. repeat f_equal; lia.
Qed.

Lemma cr_suffix_end k s : ms_rest s = [] → mtch U IC pat_cr_suffix k s = None.
Proof.
  intros Hr. unfold pat_cr_suffix, star, sp.
  rewrite mtch_seqs_cons, rep_set_stops by (by rewrite Hr).
  cbn [Nat.leb]. rewrite mtch_seqs_cons.
  change (word "CR") with (seqs [Lit (chr "C"); Lit (chr "R")]).
  rewrite mtch_seqs_cons, mtch_Lit. apply one_miss. by rewrite Hr.
Qed.

Lemma sub_cr_none (body : list N) :
  Forall cr_dead body → re_sub U IC pat_cr_suffix [] body = body.
Proof.
  intros Hbody. unfold re_sub. apply sub_loop_no_match.
  rewrite <- (app_nil_r body).
  rewrite (search_from_skip U IC _ cr_dead cr_suffix_dead) by done.
  apply search_from_miss. by apply cr_suffix_end.
Qed.

Lemma sub_cr_suffix (body ws : list N) c1 c2 :
  Forall cr_dead body →
  Forall (λ c, uni_isspace U c = true) ws →
  c1 ∈ lit "Cc" → c2 ∈ lit "Rr" →
  re_sub U IC pat_cr_suffix [] (body ++ ws ++ [c1; c2]) = body.
Proof.
  intros Hbody Hws H1 H2. unfold re_sub.
  destruct (scan_fuel_S (body ++ ws ++ [c1; c2])) as [fuel ->].
  erewrite sub_loop_hit.
  2:{ rewrite (search_from_skip U IC _ cr_dead cr_suffix_dead) by done.
      apply search_from_hit. by apply cr_suffix_hit. }
  cbn [ms_pos ms_prev ms_rest].
  rewrite sub_loop_no_match.
  - replace (0 + length body - 0) with (length body) by lia.
    rewrite take_app_length. by rewrite !app_nil_r.
  - apply search_from_miss. by apply cr_suffix_end.
Qed.

End Subs.

(** ** Amount normalization *)

(** The characters of an amount: digits, grouping and decimal marks, and
    a sign written as a hyphen or as the unicode minus. *)
Definition amount_chars : list N := lit "0123456789,.-−".

(** The text with every unicode minus turned into an ASCII hyphen. *)
Definition hyphenate (s : list N) : list N :=
  (λ c, if (c =? chr "−")%N then chr "-" else c) <$> s.

Section Clean.
Variable U : UCD.
Hypothesis HU : UCD_ok U.

Lemma amount_char_facts c :
  c ∈ amount_chars →
  is_basic c = true ∧ basic_isspace c = false
  ∧ (ascii_lower (chr "C") =? ascii_lower c)%N = false
  ∧ (chr "₹" =? c)%N = false ∧ (chr "r" =? c)%N = false.
Proof.
  intros Hc.
  apply (alphabet_forall
    (λ c, bool_decide (is_basic c = true ∧ basic_isspace c = false
      ∧ (ascii_lower (chr "C") =? ascii_lower c)%N = false
      ∧ (chr "₹" =? c)%N = false ∧ (chr "r" =? c)%N = false)) amount_chars) in Hc;
    [by apply bool_decide_eq_true in Hc | done].
Qed.

Lemma hyphenate_amount body :
  Forall (λ c, c ∈ amount_chars) body →
  Forall (λ c, c ∈ amount_chars) (hyphenate body).
Proof.
  intros Hb. unfold hyphenate. apply Forall_fmap.
  apply Forall_impl with (1 := Hb). intros c Hc. simpl.
  destruct (c =? chr "−")%N; [|done]. by vm_compute; repeat constructor.
Qed.

Lemma space_not_minus c : uni_isspace U c = true → c ≠ chr "−".
Proof. intros Hc ->. by rewrite (ok_isspace U HU) in Hc. Qed.

Lemma amount_dead body :
  Forall (λ c, c ∈ amount_chars) body → Forall (cr_dead U) body.
Proof.
  intros Hb. apply Forall_impl with (1 := Hb). intros c Hc.
  destruct (amount_char_facts c Hc) as (Hbasic & Hsp & HC & _).
  split; [by rewrite (ok_isspace U HU) | by rewrite (ok_ieq U HU)].
Qed.

Lemma amount_stops body rest :
  Forall (λ c, c ∈ amount_chars) body → body ≠ [] →
  stops (uni_isspace U) (body ++ rest)
  ∧ stops (in_set U NOFLAGS prefix_items) (body ++ rest).
Proof.
  intros Hb Hne. destruct body as [|c body]; [done|].
  apply Forall_cons in Hb as [Hc _].
  destruct (amount_char_facts c Hc) as (Hbasic & Hsp & _ & Hru & Hr).
  unfold stops, in_set, prefix_items, cl.
  cbn [app existsb item_match IGNORECASE NOFLAGS].
  by rewrite (ok_isspace U HU), Hsp, Hru, Hr.
Qed.

(** The four steps of [_clean_amount] on a marked-up amount, [pre]
    already without leading whitespace. *)
Lemma clean_steps (pre body tail : list N) :
  Forall (λ c, c ∈ lit "₹r" ∨ uni_isspace U c = true) pre →
  Forall (λ c, c ∈ amount_chars) body → body ≠ [] →
  Forall (λ c, c ≠ chr "−") tail →
  re_sub U IC pat_cr_suffix [] (hyphenate body ++ tail) = hyphenate body →
  re_sub U IC pat_cr_suffix []
    (re_sub U NOFLAGS pat_currency_prefix []
       (replace1 (chr "−") (lit "-") (pre ++ body ++ tail)))
  = hyphenate body.
Proof.
  intros Hpre Hbody Hne Htail Hcr.
  rewrite !replace1_app.
  rewrite (replace1_id _ _ pre), (replace1_id _ _ tail); [|done|].
  2:{ apply Forall_impl with (1 := Hpre). intros c [Hc|Hc].
      - intros ->. by vm_compute in Hc; repeat (apply elem_of_cons in Hc as [?|Hc]);
          try apply elem_of_nil in Hc.
      - by apply space_not_minus. }
  change (lit "-") with [chr "-"]. rewrite replace1_map. fold (hyphenate body).
  rewrite sub_currency_prefix; [done | |].
  - apply Forall_impl with (1 := Hpre).
    intros c [Hc|Hc]; unfold in_set, prefix_items, cl;
      cbn [existsb item_match IGNORECASE NOFLAGS].
    + apply elem_of_cons in Hc as [->|Hc]; [done|].
      apply elem_of_cons in Hc as [->|Hc]; [by rewrite orb_true_r|].
      by apply elem_of_nil in Hc.
    + by rewrite Hc, !orb_true_r.
  - apply amount_stops; [by apply hyphenate_amount|]. by destruct body.
Qed.


Lemma strip_shape (isspace : N → bool) (a b0 ws' : list N) z :
  stops isspace (b0 ++ [z]) → isspace z = false →
  Forall (λ c, isspace c = true) ws' →
  strip isspace (a ++ (b0 ++ [z]) ++ ws') = lstrip isspace a ++ b0 ++ [z].
Proof.
  intros Hb Hz Hws. unfold strip.
  rewrite lstrip_app.
  - rewrite app_assoc, rstrip_spaces by done.
    by rewrite app_assoc, rstrip_stops, <- app_assoc.
  - destruct b0; simpl in *; done.
  - by destruct b0.
Qed.

Lemma hyphenate_strip (s : list N) :
  strip (uni_isspace U) (hyphenate s) = hyphenate (strip (uni_isspace U) s).
Proof.
  assert (∀ c, uni_isspace U (if (c =? chr "−")%N then chr "-" else c)
               = uni_isspace U c) as Hsp.
  { intros c. destruct (N.eqb_spec c (chr "−")) as [->|]; [|done].
    by rewrite !(ok_isspace U HU). }
  assert (∀ t, lstrip (uni_isspace U) (hyphenate t)
               = hyphenate (lstrip (uni_isspace U) t)) as Hl.
  { induction t as [|c t IH]; [done|]. unfold hyphenate in *. simpl.
    rewrite Hsp. by destruct (uni_isspace U c). }
  unfold strip, rstrip. rewrite Hl. unfold hyphenate at 1.
  rewrite <- fmap_reverse. fold (hyphenate (reverse (lstrip (uni_isspace U) s))).
  rewrite Hl. unfold hyphenate. by rewrite fmap_reverse.
Qed.

Lemma hyphenate_no_minus (s : list N) : Forall (λ c, c ≠ chr "−") (hyphenate s).
Proof.
  unfold hyphenate. apply Forall_fmap, Forall_true. intros c. simpl.
  destruct (N.eqb_spec c (chr "−")); done.
Qed.

Lemma clean_hyphenate (s : list N) :
  _clean_amount U (hyphenate s) = _clean_amount U s.
Proof.
  unfold _clean_amount. rewrite hyphenate_strip.
  rewrite (replace1_id _ _ (hyphenate _)) by apply hyphenate_no_minus.
  change (lit "-") with [chr "-"]. by rewrite replace1_map.
Qed.

Lemma mark_not_minus (ws : list N) c1 c2 :
  Forall (λ c, uni_isspace U c = true) ws → c1 ∈ lit "Cc" → c2 ∈ lit "Rr" →
  Forall (λ c, c ≠ chr "−") (ws ++ [c1; c2]).
Proof.
  intros Hws H1 H2. apply Forall_app. split.
  - apply Forall_impl with (1 := Hws). intros c. apply space_not_minus.
  - repeat constructor; intros ->.
    + by vm_compute in H1; repeat (apply elem_of_cons in H1 as [?|H1]);
        try apply elem_of_nil in H1.
    + by vm_compute in H2; repeat (apply elem_of_cons in H2 as [?|H2]);
        try apply elem_of_nil in H2.
Qed.

Lemma clean_marked (pre body ws ws' : list N) c1 c2 :
  Forall (λ c, c ∈ lit "₹r" ∨ uni_isspace U c = true) pre →
  Forall (λ c, c ∈ amount_chars) body → body ≠ [] →
  Forall (λ c, uni_isspace U c = true) ws →
  c1 ∈ lit "Cc" → c2 ∈ lit "Rr" →
  Forall (λ c, uni_isspace U c = true) ws' →
  _clean_amount U (pre ++ body ++ ws ++ [c1; c2] ++ ws') = hyphenate body.
Proof.
  intros Hpre Hbody Hne Hws H1 H2 Hws'. unfold _clean_amount.
  assert (uni_isspace U c2 = false) as Hc2.
  { apply (alphabet_forall (λ c, is_basic c && negb (basic_isspace c)) (lit "Rr"))
      in H2 as [Hb Hs]%andb_true_iff; [|done].
    rewrite (ok_isspace U HU) by done. by destruct (basic_isspace c2). }
  replace (pre ++ body ++ ws ++ [c1; c2] ++ ws')
    with (pre ++ ((body ++ ws ++ [c1]) ++ [c2]) ++ ws')
    by (by rewrite <- !app_assoc).
  rewrite strip_shape; [|rewrite <- !app_assoc; by apply amount_stops|done..].
  replace (lstrip (uni_isspace U) pre ++ (body ++ ws ++ [c1]) ++ [c2])
    with (lstrip (uni_isspace U) pre ++ body ++ ws ++ [c1; c2])
    by (by rewrite <- !app_assoc).
  apply clean_steps; try done.
  - by apply lstrip_Forall.
  - by apply mark_not_minus.
  - apply sub_cr_suffix; try done. apply amount_dead, hyphenate_amount, Hbody.
Qed.

Lemma clean_plain (pre body ws' : list N) :
  Forall (λ c, c ∈ lit "₹r" ∨ uni_isspace U c = true) pre →
  Forall (λ c, c ∈ amount_chars) body → body ≠ [] →
  Forall (λ c, uni_isspace U c = true) ws' →
  _clean_amount U (pre ++ body ++ ws') = hyphenate body.
Proof.
  intros Hpre Hbody Hne Hws'. unfold _clean_amount.
  destruct body as [|z body0 _] using rev_ind; [done|].
  assert (uni_isspace U z = false) as Hz.
  { apply Forall_app in Hbody as [_ [Hz _]%Forall_cons].
    destruct (amount_char_facts z Hz) as (? & ? & _).
    by rewrite (ok_isspace U HU). }
  rewrite strip_shape; [|by apply (amount_stops _ []) in Hbody;
                          [rewrite app_nil_r in Hbody; apply Hbody|]|done..].
  rewrite <- (app_nil_r (body0 ++ [z])) at 1.
  apply clean_steps; try done.
  - by apply lstrip_Forall.
  - rewrite app_nil_r. apply sub_cr_none, amount_dead, hyphenate_amount, Hbody.
Qed.

End Clean.

(** C4. [_clean_amount] takes off leading currency markers, stray "r"
    prefixes and whitespace, turns the unicode minus into an ASCII
    hyphen, and removes a final "CR" in any case with the whitespace
    before it; what is left is the amount as written, digit grouping and
    decimal mark untouched. The minus sign is replaced before the
    patterns look at the text: the result is the same as on the text
    written with hyphens. "₹ 1,234.56 CR" yields "1,234.56". *)
Theorem C4_clean_amount (U : UCD) :
  UCD_ok U →
  (∀ pre body ws ws' c1 c2,
     Forall (λ c, c ∈ lit "₹r" ∨ uni_isspace U c = true) pre →
     Forall (λ c, c ∈ amount_chars) body → body ≠ [] →
     Forall (λ c, uni_isspace U c = true) ws →
     c1 ∈ lit "Cc" → c2 ∈ lit "Rr" →
     Forall (λ c, uni_isspace U c = true) ws' →
     _clean_amount U (pre ++ body ++ ws ++ [c1; c2] ++ ws') = hyphenate body)
  ∧ (∀ pre body ws',
       Forall (λ c, c ∈ lit "₹r" ∨ uni_isspace U c = true) pre →
       Forall (λ c, c ∈ amount_chars) body → body ≠ [] →
       Forall (λ c, uni_isspace U c = true) ws' →
       _clean_amount U (pre ++ body ++ ws') = hyphenate body)
  ∧ (∀ s, _clean_amount U (hyphenate s) = _clean_amount U s)
  ∧ _clean_amount U (lit "₹ 1,234.56 CR") = lit "1,234.56".
Proof.
  intros HU. split_and!.
  - intros. by apply clean_marked.
  - intros. by apply clean_plain.
  - intros. by apply clean_hyphenate.
  - apply (clean_marked U HU (lit "₹ ") (lit "1,234.56") (lit " ") [] (chr "C") (chr "R")).
    + change (lit "₹ ") with [chr "₹"; chr " "].
      apply Forall_cons; split; [left; by vm_compute; left|].
      apply Forall_cons; split; [right; by rewrite (ok_isspace U HU) | done].
    + by vm_compute; repeat constructor.
    + done.
    + change (lit " ") with [chr " "].
      apply Forall_cons; split; [by rewrite (ok_isspace U HU) | done].
    + by vm_compute; left.
    + by vm_compute; left.
    + done.
Qed.

Lemma C4_witness :
  _clean_amount basic_ucd (lit "  r −1,234.56cr ") = lit "-1,234.56".
Proof.
  destruct (C4_clean_amount basic_ucd basic_ucd_ok) as (Hmarked & _).
  apply (Hmarked (lit "  r ") (lit "−1,234.56") [] (lit " ") (chr "c") (chr "r")).
  - change (lit "  r ") with [chr " "; chr " "; chr "r"; chr " "].
    repeat (apply Forall_cons; split; [first [by right | left; by vm_compute; right; left]|]).
    done.
  - by vm_compute; repeat constructor.
  - done.
  - done.
  - by vm_compute; right; left.
  - by vm_compute; right; left.
  - change (lit " ") with [chr " "]. by repeat constructor.
Defined.

(** ** The scanner of [findall] over a text *)

Section ScanText.
Variable U : UCD.
Variable fl : flags.
Variable text : list N.
Variable r : regex.

(** The scanner of [findall] from position [i] of [text]. *)
Definition scan_at (fuel : nat) (adv : bool) (i : nat) : list (nat * mstate) :=
  scan U fl r fuel adv i (prev_at text i) (drop i text).

Lemma scan_at_S fuel adv i :
  i ≤ length text →
  scan_at (S fuel) adv i
  = match search_at U fl text r adv i with
    | None => []
    | Some (st, s) => (st, s) :: scan_at fuel (Nat.eqb (ms_pos s) st) (ms_pos s)
    end.
Proof.
  intros Hi. unfold scan_at. cbn [scan]. fold (search_at U fl text r adv i).
  destruct (search_at U fl text r adv i) as [[st s]|] eqn:Hs; [|done].
  apply (search_at_Some U fl text r _ adv i st s eq_refl Hi) in Hs
    as (_ & _ & (Hrest & Hprev & _) & _).
  by rewrite Hrest, Hprev.
Qed.

Lemma re_finditer_scan_at :
  re_finditer U fl r text = mk_match text <$> scan_at (scan_fuel text) false 0.
Proof. done. Qed.

Lemma search_at_finds : ∀ n adv i j f,
  j - i = n → i ≤ j ≤ length text →
  mtch U fl r (accept (adv && Nat.eqb j i) j) (st_at text j) = Some f →
  ∃ st s, search_at U fl text r adv i = Some (st, s) ∧ st ≤ j ∧ (st = j → s = f).
Proof.
  induction n as [|n IH]; intros adv i j f Hn Hij Hm; rewrite search_at_unfold.
  - assert (j = i) as -> by lia. rewrite Nat.eqb_refl, andb_true_r in Hm.
    rewrite Hm. by exists i, f.
  - destruct (mtch U fl r (accept adv i) (st_at text i)) as [s|] eqn:Hi.
    + exists i, s. split_and!; [done | lia | lia].
    + destruct (Nat.ltb_spec i (length text)); [|lia].
      apply (IH false (S i) j f); [lia | lia |].
      replace (adv && (j =? i)) with false in Hm; [done|].
      destruct (Nat.eqb_spec j i); [lia|]. by rewrite andb_false_r.
Qed.

Lemma search_at_none_intro : ∀ n adv i,
  length text - i = n → i ≤ length text →
  (∀ j, i ≤ j ≤ length text → ∀ k, mtch U fl r k (st_at text j) = None) →
  search_at U fl text r adv i = None.
Proof.
  induction n as [|n IH]; intros adv i Hn Hi Hnone; rewrite search_at_unfold;
    rewrite Hnone by lia; destruct (Nat.ltb_spec i (length text)); try done; try lia.
  apply IH; [lia | lia |]. intros j Hj. apply Hnone. lia.
Qed.

(** The last match the scanner reports is the one at [P] when a match
    starts there, no match that starts earlier runs past [P], no match is
    empty, and no match starts after [P]. *)
Lemma scan_last_hit (P : nat) (f : mstate) :
  P ≤ length text →
  (∀ adv, mtch U fl r (accept adv P) (st_at text P) = Some f) →
  (∀ j s', j < P → matches U fl r (st_at text j) s' → ms_pos s' ≤ P) →
  (∀ j s', j ≤ length text → matches U fl r (st_at text j) s' → j < ms_pos s') →
  (∀ j, P < j ≤ length text → ∀ k, mtch U fl r k (st_at text j) = None) →
  ∀ n fuel adv i,
    P - i = n → i ≤ P → n < fuel →
    last (scan_at fuel adv i) = Some (P, f).
Proof.
  intros HP Hhit Hcross Hprog Hafter.
  assert (∀ fuel adv, scan_at (S fuel) adv P = [(P, f)]) as HatP.
  { intros fuel adv. rewrite scan_at_S by done.
    rewrite search_at_unfold, Hhit.
    destruct (mtch_at_Some U fl text r adv P f HP (Hhit adv)) as (Hm & _ & _ & _).
    specialize (Hprog P f HP Hm).
    destruct fuel as [|fuel]; [done|].
    destruct (matches_span U fl r _ _ Hm) as (w & Hw).
    destruct (span_at_text text _ _ w (st_at_at_text text P HP) Hw)
      as [(_ & _ & Hle) _].
    rewrite scan_at_S by done.
    rewrite (search_at_none_intro _ _ _ eq_refl Hle); [done|].
    intros j Hj. apply Hafter. lia. }
  induction n as [n IH] using lt_wf_ind. intros fuel adv i Hn Hi Hfuel.
  destruct fuel as [|fuel]; [lia|].
  destruct (decide (i = P)) as [->|Hne]; [by rewrite HatP|].
  rewrite scan_at_S by lia.
  destruct (search_at_finds (P - i) adv i P f eq_refl) as (st & s & Hs & Hst & Heq).
  { lia. }
  { replace (adv && (P =? i)) with false; [apply Hhit|].
    destruct (Nat.eqb_spec P i); [lia|]. by rewrite andb_false_r. }
  rewrite Hs.
  apply (search_at_Some U fl text r _ adv i st s eq_refl) in Hs
    as (Hist & Hm & _ & _ & _ & _); [|lia].
  assert (st < ms_pos s) as Hlt by (apply Hprog; [lia | done]).
  destruct (decide (st = P)) as [->|HstP].
  - rewrite (Heq eq_refl).
    destruct (mtch_at_Some U fl text r false P f HP (Hhit false)) as (Hmf & _ & _ & _).
    destruct (matches_span U fl r _ _ Hmf) as (w & Hw).
    destruct (span_at_text text _ _ w (st_at_at_text text P HP) Hw)
      as [(_ & _ & Hle) _].
    destruct fuel as [|fuel]; [done|].
    rewrite scan_at_S by done.
    rewrite (search_at_none_intro _ _ _ eq_refl Hle); [done|].
    intros j Hj. apply Hafter. specialize (Hprog P f HP Hmf). lia.
  - assert (ms_pos s ≤ P) as Hle by (apply (Hcross st); [lia | done]).
    specialize (IH (P - ms_pos s)).
    rewrite last_cons.
    rewrite (IH ltac:(lia) fuel (ms_pos s =? st) (ms_pos s) eq_refl Hle ltac:(lia)).
    done.
Qed.

End ScanText.

(** ** Patterns that cannot read a given character *)

Section Avoid.
Variable U : UCD.
Variable fl : flags.

(** No character-reading part of [r] accepts [c]. *)
Fixpoint avoids (c : N) (r : regex) : bool :=
  match r with
  | Empty | Bol | WordB => true
  | Lit c0 => negb (item_match U fl (CLit c0) c)
  | Cset items => negb (in_set U fl items c)
  | Dot => negb (DOTALL fl || negb (c =? 10)%N)
  | Seq r1 r2 | Alt r1 r2 => avoids c r1 && avoids c r2
  | Rep _ _ _ r' | Group _ r' => avoids c r'
  end.

Variable text : list N.

Lemma consumes_at p s s' :
  consumes p s s' → at_text text s →
  ∃ ch, text !! ms_pos s = Some ch ∧ p ch = true
        ∧ ms_pos s' = S (ms_pos s) ∧ at_text text s'.
Proof.
  intros Hc Hat. destruct (consumes_span _ _ _ Hc) as (ch & Hp & Hspan).
  exists ch. destruct (span_at_text text _ _ _ Hat Hspan) as [Hat' _].
  destruct Hspan as (Hr & Hpos & _). destruct Hat as (Hrest & _ & _).
  split_and!; [|done|simpl in Hpos; lia|done].
  rewrite Hrest in Hr. rewrite <- (Nat.add_0_r (ms_pos s)), <- lookup_drop, Hr. done.
Qed.

Lemma matches_at r s s' :
  matches U fl r s s' → at_text text s → at_text text s' ∧ ms_pos s ≤ ms_pos s'.
Proof.
  intros Hm Hat. destruct (matches_span U fl r _ _ Hm) as (w & Hw).
  destruct (span_at_text text _ _ w Hat Hw) as [Hat' _].
  destruct Hw as (_ & Hpos & _). split; [done | lia].
Qed.

(** A pattern that cannot read the character at [P] cannot take the
    matcher from before [P] to after it. *)
Lemma avoids_sound c P r : text !! P = Some c → avoids c r = true →
  ∀ s s', at_text text s → ms_pos s ≤ P → matches U fl r s s' → ms_pos s' ≤ P.
Proof.
  intros HP.
  assert (∀ p s s', p c = false → at_text text s → ms_pos s ≤ P →
            consumes p s s' → ms_pos s' ≤ P) as Hstep.
  { intros p s s' Hpc Hat Hle Hc.
    destruct (consumes_at _ _ _ Hc Hat) as (ch & Hch & Hp & Hpos & _).
    destruct (decide (ms_pos s = P)) as [Heq|]; [|lia].
    rewrite Heq, HP in Hch. injection Hch as <-. congruence. }
  induction r as [|c0|items| | | |r1 IH1 r2 IH2|r1 IH1 r2 IH2|lo hi g r IH|n r IH];
    simpl; intros Hav s s' Hat Hle Hm.
  - by subst.
  - refine (Hstep _ s s' _ Hat Hle Hm). by apply negb_true_iff.
  - refine (Hstep _ s s' _ Hat Hle Hm). by apply negb_true_iff.
  - refine (Hstep _ s s' _ Hat Hle Hm). by apply negb_true_iff.
  - by destruct Hm as [_ ->].
  - by destruct Hm as [_ ->].
  - apply andb_true_iff in Hav as [H1 H2]. destruct Hm as (s1 & Hm1 & Hm2).
    apply (IH2 H2 s1 s'); [by eapply matches_at | by eapply IH1 | done].
  - apply andb_true_iff in Hav as [H1 H2]. destruct Hm; eauto.
  - destruct Hm as (m & _ & _ & Hit). clear -Hit IH Hav Hat Hle.
    revert s Hat Hle Hit. induction m as [|m IHm]; simpl; intros s Hat Hle Hit.
    + by subst.
    + destruct Hit as (s1 & Hm1 & _ & Hit).
      apply (IHm s1); [by eapply matches_at | by eapply IH | done].
  - destruct Hm as (s1 & Hm1 & ->). simpl. eauto.
Qed.

End Avoid.

(** Patterns over the reference repertoire. *)
Fixpoint regex_basic (r : regex) : bool :=
  match r with
  | Lit c => is_basic c
  | Cset items => forallb item_basic items
  | Seq r1 r2 | Alt r1 r2 => regex_basic r1 && regex_basic r2
  | Rep _ _ _ r' | Group _ r' => regex_basic r'
  | _ => true
  end.

Lemma avoids_basic (U : UCD) fl c r :
  UCD_ok U → is_basic c = true → regex_basic r = true →
  avoids U fl c r = avoids basic_ucd fl c r.
Proof.
  intros HU Hc.
  induction r as [|c0|items| | | |r1 IH1 r2 IH2|r1 IH1 r2 IH2|lo hi g r IH|n r IH];
    cbn [avoids regex_basic]; intros Hr; try done.
  - by rewrite (item_match_basic U HU fl (CLit c0)).
  - by rewrite in_set_basic.
  - apply andb_true_iff in Hr as [? ?]. by rewrite IH1, IH2.
  - apply andb_true_iff in Hr as [? ?]. by rewrite IH1, IH2.
  - auto.
  - auto.
Qed.

(** ** The balance of bank 1 *)

Section Balance.
Variable U : UCD.
Hypothesis HU : UCD_ok U.
Variable text : list N.
Variable P : nat.
Hypothesis text_P : text !! P = Some (chr "N").
Hypothesis text_SP : text !! S P = Some (chr "e").

Lemma seqs_cons_inv fl r rs s s' :
  matches U fl (seqs (r :: rs)) s s' →
  ∃ s1, matches U fl r s s1 ∧ matches U fl (seqs rs) s1 s'.
Proof. done. Qed.

(** Peel a leading part that cannot read the "N" at [P]. *)
Lemma peel_avoiding r rs s s' :
  regex_basic r = true → avoids basic_ucd IC (chr "N") r = true →
  at_text text s → ms_pos s ≤ P →
  matches U IC (seqs (r :: rs)) s s' →
  ∃ s1, at_text text s1 ∧ ms_pos s1 ≤ P ∧ matches U IC (seqs rs) s1 s'.
Proof.
  intros Hb Hav Hat Hle (s1 & H1 & H2)%seqs_cons_inv.
  exists s1. split_and!; [by eapply matches_at | | done].
  eapply (avoids_sound U IC text (chr "N") P r); try done.
  by rewrite avoids_basic.
Qed.

Lemma balance_label_no_cross s s' :
  at_text text s → ms_pos s < P →
  matches U IC b1_balance_label s s' → at_text text s' ∧ ms_pos s' ≤ P.
Proof.
  intros Hat Hlt Hm. unfold b1_balance_label in Hm.
  apply seqs_cons_inv in Hm as (s1 & Hnew & Hm).
  change (word "New") with (seqs [Lit (chr "N"); Lit (chr "e"); Lit (chr "w")]) in Hnew.
  apply seqs_cons_inv in Hnew as (sN & HN & Hnew).
  destruct (consumes_at text _ _ _ HN Hat) as (_ & _ & _ & HposN & HatN).
  do 2 (apply peel_avoiding in Hnew as (? & ? & ? & Hnew); [|done|done|done|lia]).
  simpl in Hnew. subst s1.
  apply peel_avoiding in Hm as (s2 & Hat2 & Hle2 & Hm); [|done..].
  apply seqs_cons_inv in Hm as (s3 & Hbal & ->).
  change (word "Balance")
    with (seqs [Lit (chr "B"); Lit (chr "a"); Lit (chr "l"); Lit (chr "a");
                Lit (chr "n"); Lit (chr "c"); Lit (chr "e")]) in Hbal.
  do 4 (apply peel_avoiding in Hbal as (? & ? & ? & Hbal); [|done..]).
  apply seqs_cons_inv in Hbal as (sn & Hn & Hbal).
  match goal with H : at_text text ?x, H' : matches _ _ (Lit (chr "n")) ?x sn |- _ =>
    destruct (consumes_at text _ _ _ H' H) as (_ & _ & _ & Hposn & Hatn);
    destruct (decide (ms_pos x = P)) as [HeqP|]
  end.
  - apply seqs_cons_inv in Hbal as (sc & Hc & _).
    destruct (consumes_at text _ _ _ Hc Hatn) as (ch & Hch & Hieq & _).
    rewrite Hposn, HeqP, text_SP in Hch. injection Hch as <-.
    simpl in Hieq. by rewrite (ok_ieq U HU) in Hieq.
  - do 2 (apply peel_avoiding in Hbal as (? & ? & ? & Hbal); [|done|done|done|lia]).
    simpl in Hbal. by subst.
Qed.

Lemma balance_no_cross j s' :
  j < P → matches U IC b1_balance (st_at text j) s' → ms_pos s' ≤ P.
Proof.
  intros Hj Hm. unfold b1_balance in Hm.
  assert (P < length text) by (by eapply lookup_lt_Some).
  apply seqs_cons_inv in Hm as (s1 & Hlabel & Hm).
  apply balance_label_no_cross in Hlabel as [Hat1 Hle1];
    [|apply st_at_at_text; lia|simpl; lia].
  do 2 (apply peel_avoiding in Hm as (? & ? & ? & Hm); [|done..]).
  simpl in Hm. by subst.
Qed.

End Balance.

Section MoreEval.
Variable U : UCD.
Variable fl : flags.

Lemma rep_lit_stops c lo hi greedy k s :
  stops (item_match U fl (CLit c)) (ms_rest s) →
  mtch U fl (Rep lo hi greedy (Lit c)) k s = if lo <=? 0 then k s else None.
Proof. intros. cbn [mtch]. by apply (rep_loop_stops _ (item_match U fl (CLit c))). Qed.

Lemma rep_lit_longest c lo hi k s w rest f :
  ms_rest s = w ++ rest →
  Forall (λ ch, item_match U fl (CLit c) ch = true) w →
  match hi with
  | Some h => length w = h ∨ (length w < h ∧ stops (item_match U fl (CLit c)) rest)
  | None => stops (item_match U fl (CLit c)) rest
  end →
  lo ≤ length w →
  k (after w rest s) = Some f →
  mtch U fl (Rep lo hi true (Lit c)) k s = Some f.
Proof.
  intros Hr Hw Hhalt Hlo Hk. cbn [mtch].
  apply (rep_loop_longest _ (item_match U fl (CLit c))) with (w := w) (rest := rest);
    try done.
  rewrite Hr, length_app. lia.
Qed.

(** An optional part that is there. *)
Lemma opt_hit r k s s1 f :
  (∀ K, K s1 = Some f → mtch U fl r K s = Some f) →
  ms_pos s < ms_pos s1 →
  k s1 = Some f →
  mtch U fl (opt r) k s = Some f.
Proof.
  intros Hbody Hlt Hk. unfold opt. cbn [mtch rep_loop].
  change (0 <? 1) with true. cbv iota.
  rewrite Hbody; [done|]. cbv beta.
  destruct (Nat.ltb_spec (ms_pos s) (ms_pos s1)); [|lia].
  destruct (length (ms_rest s)); simpl; by rewrite Hk.
Qed.

(** An optional part that is not there. *)
Lemma opt_miss r k s :
  (∀ K, mtch U fl r K s = None) → mtch U fl (opt r) k s = k s.
Proof.
  intros Hbody. unfold opt. cbn [mtch rep_loop].
  change (0 <? 1) with true. cbv iota. by rewrite Hbody.
Qed.

Lemma slice_middle (x y z : list N) a b :
  a = length x → b = a + length y → slice (x ++ y ++ z) a b = y.
Proof.
  intros -> ->. unfold slice. rewrite drop_app_length.
  replace (length x + length y - length x) with (length y) by lia.
  by rewrite take_app_length.
Qed.

End MoreEval.

Lemma word_self (U : UCD) (w : list N) :
  UCD_ok U → forallb is_basic w = true →
  Forall2 (λ c0 c, item_match U IC (CLit c0) c = true) w w.
Proof.
  intros HU. induction w as [|c w IH]; simpl; [constructor|].
  intros [Hc Hw]%andb_true_iff. constructor; [|auto].
  by rewrite (ok_ieq U HU), N.eqb_refl.
Qed.

(** The reference repertoire, listed. *)
Definition basic_alphabet : list N := crange 0 127 ++ [8377; 8211; 8722]%N.

(** A property of the reference tables that holds on the whole
    repertoire holds of each of its characters. *)
Lemma basic_forall (P : N → bool) c :
  forallb P basic_alphabet = true → is_basic c = true → P c = true.
Proof.
  intros Hall Hc. apply (alphabet_forall P basic_alphabet); [done|].
  unfold basic_alphabet, is_basic in *. apply elem_of_app.
  repeat (apply orb_true_iff in Hc as [Hc|Hc]).
  - left. unfold crange. apply list_elem_of_fmap. apply N.ltb_lt in Hc.
    exists (N.to_nat c). split; [lia|]. apply elem_of_seq. lia.
  - right. apply N.eqb_eq in Hc as ->. by repeat constructor.
  - right. apply N.eqb_eq in Hc as ->. by repeat constructor.
  - right. apply N.eqb_eq in Hc as ->. by repeat constructor.
Qed.

(** Digits, and digits with the grouping comma. *)
Definition digit_chars : list N := lit "0123456789".
Definition group_chars : list N := lit "0123456789,".

(** The text does not go on with a character that could extend an
    amount. *)
Definition ends_amount (post : list N) : Prop :=
  match post with
  | [] => True
  | c :: _ => is_basic c = true ∧ c ∉ lit "0123456789,."
  end.

(** The decimal part of an amount, given what follows: none, or a dot
    and two digits. *)
Inductive fraction : list N → list N → Prop :=
| no_fraction post : ends_amount post → fraction [] post
| two_decimals d1 d2 post :
    d1 ∈ digit_chars → d2 ∈ digit_chars → fraction [chr "."; d1; d2] post.

Section BalanceHit.
Variable U : UCD.
Hypothesis HU : UCD_ok U.

Definition amount_items : list citem := [CDigit; cl ","].

Lemma group_char_facts c :
  c ∈ group_chars →
  in_set U IC amount_items c = true
  ∧ in_set U IC [cl ":"; CSpace] c = false
  ∧ item_match U IC (CLit (chr "$")) c = false.
Proof.
  intros Hc.
  assert (is_basic c = true) as Hb
    by (by apply (alphabet_forall is_basic group_chars)).
  rewrite (in_set_basic U HU IC amount_items),
    (in_set_basic U HU IC [cl ":"; CSpace]), (item_match_basic U HU) by done.
  apply (alphabet_forall
    (λ c, bool_decide (in_set basic_ucd IC amount_items c = true
      ∧ in_set basic_ucd IC [cl ":"; CSpace] c = false
      ∧ item_match basic_ucd IC (CLit (chr "$")) c = false)) group_chars) in Hc;
    [by apply bool_decide_eq_true in Hc | done].
Qed.

Lemma digit_char_facts c :
  c ∈ digit_chars → in_set U IC [CDigit] c = true.
Proof.
  intros Hc.
  assert (is_basic c = true) as Hb
    by (by apply (alphabet_forall is_basic digit_chars)).
  rewrite in_set_basic by done.
  by apply (alphabet_forall (in_set basic_ucd IC [CDigit]) digit_chars).
Qed.

Lemma ends_amount_stops post :
  ends_amount post →
  stops (in_set U IC amount_items) post
  ∧ stops (item_match U IC (CLit (chr "."))) post.
Proof.
  destruct post as [|c post]; [done|]. intros [Hb Hc]. unfold stops.
  rewrite in_set_basic, (item_match_basic U HU) by done.
  apply (basic_forall
    (λ c, bool_decide (c ∉ lit "0123456789,." →
       in_set basic_ucd IC amount_items c = false
       ∧ item_match basic_ucd IC (CLit (chr ".")) c = false))) in Hb; [|done].
  apply bool_decide_eq_true in Hb. auto.
Qed.


Lemma stops_app_cons p (a : list N) c rest :
  a = c :: rest → p c = false → ∀ more, stops p (a ++ more).
Proof. by intros -> Hc more. Qed.

(** The balance pattern at an occurrence of the label followed by
    separators, an optional dollar sign and an amount. *)
Lemma mstate_eq (s1 s2 : mstate) :
  ms_pos s1 = ms_pos s2 → ms_prev s1 = ms_prev s2 → ms_rest s1 = ms_rest s2 →
  ms_caps s1 = ms_caps s2 → s1 = s2.
Proof. destruct s1, s2. simpl. by intros -> -> -> ->. Qed.

Lemma amount_hit (grp frac post : list N) k s f :
  Forall (λ c, c ∈ group_chars) grp → grp ≠ [] →
  fraction frac post →
  ms_rest s = grp ++ frac ++ post →
  k (set_cap 1 (ms_pos s) (ms_pos s + length (grp ++ frac))
       (after (grp ++ frac) post s)) = Some f →
  mtch U IC (Group 1 amount) k s = Some f.
Proof.
  intros Hgrp Hne Hfrac Hs Hk. rewrite mtch_Group. unfold amount. rewrite mtch_Seq.
  apply rep_set_longest with (w := grp) (rest := frac ++ post); [done| | | |].
  { apply Forall_impl with (1 := Hgrp). intros c Hc.
    by destruct (group_char_facts c Hc) as (? & _). }
  { destruct Hfrac as [post Hends|d1 d2 post _ _].
    - by apply ends_amount_stops in Hends as [? ?].
    - unfold stops. cbn [app]. rewrite (in_set_basic U HU) by done. done. }
  { destruct grp; [done | simpl; lia]. }
  destruct Hfrac as [post Hends|d1 d2 post Hd1 Hd2].
  - rewrite opt_miss.
    + rewrite app_nil_r in Hk. exact Hk.
    + intros K. rewrite mtch_Seq, mtch_Lit. apply one_miss. simpl.
      by apply ends_amount_stops in Hends as [? ?].
  - apply opt_hit with (s1 := after [chr "."; d1; d2] post (after grp ([chr "."; d1; d2] ++ post) s)).
    + intros K HK. rewrite mtch_Seq, mtch_Lit.
      rewrite (one_hit _ _ _ (chr ".") ([d1; d2] ++ post)); [|done|].
      2:{ simpl. by rewrite (ok_ieq U HU). }
      apply rep_set_longest with (w := [d1; d2]) (rest := post); [done| | |simpl; lia|].
      { repeat constructor; by apply digit_char_facts. }
      { by left. }
      rewrite <- HK. f_equal. apply mstate_eq; simpl; try done; lia.
    + simpl. lia.
    + rewrite <- Hk. f_equal. rewrite after_app.
      apply mstate_eq; simpl; try done; rewrite ?length_app; simpl;
        rewrite ?Nat.add_assoc; try done; lia.
Qed.

(** The balance pattern at an occurrence of the label followed by
    separators, an optional dollar sign and an amount. *)
Lemma balance_hit (pre seps dollar grp frac post : list N) prev :
  Forall (λ c, c = chr ":" ∨ uni_isspace U c = true) seps →
  dollar = [] ∨ dollar = lit "$" →
  Forall (λ c, c ∈ group_chars) grp → grp ≠ [] →
  fraction frac post →
  ∃ f,
    (∀ adv, mtch U IC b1_balance (accept adv (length pre))
              {| ms_pos := length pre; ms_prev := prev;
                 ms_rest := lit "New Balance" ++ seps ++ dollar ++ grp ++ frac ++ post;
                 ms_caps := [] |} = Some f)
    ∧ cap_lookup 1 (ms_caps f)
      = Some (length pre + 11 + length seps + length dollar,
              length pre + 11 + length seps + length dollar
              + length (grp ++ frac)).
Proof.
  intros Hseps Hdollar Hgrp Hne Hfrac.
  destruct grp as [|g0 grp0] eqn:Egrp; [done|]. rewrite <- Egrp in *.
  assert (g0 ∈ group_chars) as Hg0
    by (rewrite Egrp in Hgrp; by apply Forall_cons in Hgrp as [? _]).
  destruct (group_char_facts g0 Hg0) as (_ & Hg0sep & Hg0dollar).
  change (lit "$") with [chr "$"] in Hdollar.
  eexists. split.
  - intros adv. unfold b1_balance, b1_balance_label.
    change (lit "New Balance") with (lit "New" ++ [chr " "] ++ lit "Balance").
    rewrite <- !app_assoc.
    do 2 rewrite mtch_seqs_cons.
    rewrite (word_hit U IC (lit "New") (lit "New") _ _
               ([chr " "] ++ lit "Balance" ++ seps ++ dollar ++ grp ++ frac ++ post));
      [|done|by apply word_self].
    (* \s* *)
    rewrite mtch_seqs_cons.
    apply rep_set_longest with (w := [chr " "])
      (rest := lit "Balance" ++ seps ++ dollar ++ grp ++ frac ++ post); [done| | |simpl; lia|].
    { repeat constructor. unfold in_set. simpl. by rewrite (ok_isspace U HU). }
    { unfold stops, in_set. simpl. by rewrite (ok_isspace U HU). }
    rewrite mtch_seqs_cons.
    rewrite (word_hit U IC (lit "Balance") (lit "Balance") _ _
               (seps ++ dollar ++ grp ++ frac ++ post));
      [|done|by apply word_self].
    rewrite mtch_seqs_nil, mtch_seqs_cons.
    (* [:\s]* *)
    apply rep_set_longest with (w := seps) (rest := dollar ++ grp ++ frac ++ post);
      [done| | |lia|].
    { apply Forall_impl with (1 := Hseps). intros c [-> | Hc]; unfold in_set; simpl.
      - by rewrite (ok_ieq U HU).
      - by rewrite Hc, orb_true_r. }
    { destruct Hdollar as [-> | ->].
      - rewrite Egrp. exact Hg0sep.
      - unfold stops. cbn [app]. rewrite (in_set_basic U HU) by done. done. }
    rewrite mtch_seqs_cons. unfold dollar_amount. rewrite mtch_Seq.
    apply rep_lit_longest with (w := dollar) (rest := grp ++ frac ++ post); [done| | |lia|].
    { destruct Hdollar as [-> | ->]; [done|].
      repeat constructor. simpl. by rewrite (ok_ieq U HU). }
    { destruct Hdollar as [-> | ->]; [right | by left].
      split; [simpl; lia|]. rewrite Egrp. exact Hg0dollar. }
    apply amount_hit with (grp := grp) (frac := frac) (post := post); try done.
    rewrite mtch_seqs_nil. apply accept_ne.
    cbn [set_cap after ms_pos]. rewrite Egrp. simpl. lia.
  - cbn [set_cap after ms_pos ms_caps cap_lookup Nat.eqb].
    change (length (lit "New")) with 3. change (length (lit "Balance")) with 7.
    f_equal. f_equal; simpl; lia.
Qed.

End BalanceHit.

Section LastBalance.
Variable U : UCD.
Hypothesis HU : UCD_ok U.

Lemma matches_pos_le fl r s s' : matches U fl r s s' → ms_pos s ≤ ms_pos s'.
Proof. intros (w & _ & Hpos & _)%matches_span. lia. Qed.

Lemma balance_progress s s' :
  matches U IC b1_balance s s' → ms_pos s < ms_pos s'.
Proof.
  unfold b1_balance, b1_balance_label.
  intros (s1 & (s2 & Hnew & Hl)%seqs_cons_inv & Hrest)%seqs_cons_inv.
  change (word "New") with (seqs [Lit (chr "N"); Lit (chr "e"); Lit (chr "w")]) in Hnew.
  apply seqs_cons_inv in Hnew as (sN & (c & rest & _ & _ & ->) & Hnew).
  apply matches_pos_le in Hnew, Hl, Hrest. simpl in *. lia.
Qed.

(** Where the label does not occur, the balance pattern does not match. *)
Lemma balance_needs_label text j :
  mtch U IC b1_balance_label Some (st_at text j) = None →
  ∀ k, mtch U IC b1_balance k (st_at text j) = None.
Proof.
  intros Hnone k. apply mtch_no_match. intros s' Hm.
  unfold b1_balance in Hm. apply seqs_cons_inv in Hm as (s1 & Hl & _).
  by apply (mtch_None_matches U IC _ _ Hnone s1).
Qed.

Lemma parse_bank_1_total text rec :
  parse_bank_1 U text = Ok rec →
  rec !! "total_balance"
  = Some (_clean_amount U <$> last (re_findall1 U IC b1_balance text)).
Proof.
  unfold parse_bank_1. cbv zeta.
  set (out0 := match last (re_findall1 U IC b1_balance text) with
               | Some v => _ | None => _ end).
  assert (out0 !! "total_balance"
          = Some (_clean_amount U <$> last (re_findall1 U IC b1_balance text))) as H0.
  { unfold out0. destruct (last _); [apply lookup_insert_eq | done]. }
  clearbody out0.
  repeat match goal with
         | |- context [re_search U ?fl ?r text] =>
           destruct (re_search U fl r text) as [?m|]
         end;
    repeat match goal with
           | |- context [as_str (group ?m ?n)] => destruct (group m n)
           end;
    intros Heq; cbn [mbind mret res_bind res_ret as_str] in Heq;
    first [discriminate Heq | injection Heq as <-];
    by rewrite ?lookup_insert_ne.
Qed.

Lemma amount_is_clean (grp frac post : list N) :
  Forall (λ c, c ∈ group_chars) grp → grp ≠ [] → fraction frac post →
  _clean_amount U (grp ++ frac) = grp ++ frac.
Proof.
  intros Hgrp Hne Hfrac.
  assert (Forall (λ c, c ∈ amount_chars ∧ c ≠ chr "−") (grp ++ frac)) as Hall.
  { apply Forall_app. split.
    - apply Forall_impl with (1 := Hgrp). intros c Hc.
      apply (alphabet_forall
        (λ c, bool_decide (c ∈ amount_chars ∧ c ≠ chr "−")) group_chars) in Hc;
        [by apply bool_decide_eq_true in Hc | done].
    - destruct Hfrac as [|d1 d2 post' Hd1 Hd2]; [done|].
      assert (∀ d, d ∈ digit_chars → d ∈ amount_chars ∧ d ≠ chr "−") as Hd.
      { intros d Hd. apply (alphabet_forall
          (λ c, bool_decide (c ∈ amount_chars ∧ c ≠ chr "−")) digit_chars) in Hd;
          [by apply bool_decide_eq_true in Hd | done]. }
      apply Forall_cons; split;
        [|repeat (apply Forall_cons; split; [by apply Hd|]); done].
      split; [by vm_compute; repeat constructor | by vm_compute]. }
  assert (_clean_amount U (grp ++ frac) = hyphenate (grp ++ frac)) as ->.
  { pose proof (clean_plain U HU [] (grp ++ frac) []) as Hclean.
    rewrite app_nil_r in Hclean. apply Hclean; try done.
    - apply Forall_impl with (1 := Hall). by intros c [? _].
    - by destruct grp. }
  unfold hyphenate. rewrite <- (list_fmap_id (grp ++ frac)) at 2.
  apply Forall_fmap_ext. apply Forall_impl with (1 := Hall).
  intros c [_ Hc]. simpl. by destruct (N.eqb_spec c (chr "−")).
Qed.

End LastBalance.

(** C6. In the bank-1 routine the balance is the amount attached to the
    last occurrence of the "New Balance" label: whatever stands before an
    occurrence of the label that is followed by separators, an optional
    dollar sign and an amount, and after which the label does not occur
    again, the routine returns and [total_balance] is that amount. *)
Theorem C6_last_balance_wins (U : UCD) (pre seps dollar grp frac post : list N) :
  UCD_ok U →
  Forall (λ c, c = chr ":" ∨ uni_isspace U c = true) seps →
  dollar = [] ∨ dollar = lit "$" →
  Forall (λ c, c ∈ group_chars) grp → grp ≠ [] →
  fraction frac post →
  search_at U IC (pre ++ lit "New Balance" ++ seps ++ dollar ++ grp ++ frac ++ post)
    b1_balance_label false (S (length pre)) = None →
  ∃ rec,
    parse_bank_1 U (pre ++ lit "New Balance" ++ seps ++ dollar ++ grp ++ frac ++ post)
    = Ok rec
    ∧ rec !! "total_balance" = Some (Some (grp ++ frac)).
Proof.
  intros HU Hseps Hdollar Hgrp Hne Hfrac Hlast.
  set (text := pre ++ lit "New Balance" ++ seps ++ dollar ++ grp ++ frac ++ post) in *.
  destruct (parse_bank_1_keys U text) as (rec & Hrec & _).
  exists rec. split; [done|].
  rewrite (parse_bank_1_total U text rec Hrec). do 2 f_equal.
  assert (text !! length pre = Some (chr "N")) as HP.
  { unfold text. by rewrite lookup_app_r, Nat.sub_diag by lia. }
  assert (text !! S (length pre) = Some (chr "e")) as HSP.
  { unfold text. rewrite lookup_app_r by lia.
    by replace (S (length pre) - length pre) with 1 by lia. }
  assert (length pre < length text) as Hlen by (by eapply lookup_lt_Some).
  destruct (balance_hit U HU pre seps dollar grp frac post (prev_at text (length pre))
              Hseps Hdollar Hgrp Hne Hfrac) as (f & Hhit & Hcap).
  assert (st_at text (length pre)
          = {| ms_pos := length pre; ms_prev := prev_at text (length pre);
               ms_rest := lit "New Balance" ++ seps ++ dollar ++ grp ++ frac ++ post;
               ms_caps := [] |}) as Hst.
  { unfold st_at, text. by rewrite drop_app_length. }
  rewrite <- Hst in Hhit.
  assert (last (scan_at U IC text b1_balance (scan_fuel text) false 0)
          = Some (length pre, f)) as Hscan.
  { apply (scan_last_hit U IC text b1_balance (length pre) f) with (n := length pre);
      try done; try lia.
    - intros j s' Hj. by apply (balance_no_cross U HU text (length pre)).
    - intros j s' _. apply balance_progress.
    - intros j Hj. apply balance_needs_label.
      apply (search_at_None U IC text b1_balance_label _ false (S (length pre)) eq_refl Hlast).
      lia.
    - unfold scan_fuel. lia. }
  unfold re_findall1. rewrite re_finditer_scan_at, !fmap_last, Hscan. simpl.
  rewrite Hcap. simpl.
  assert (slice text (length pre + 11 + length seps + length dollar)
            (length pre + 11 + length seps + length dollar + length (grp ++ frac))
          = grp ++ frac) as ->.
  { unfold text.
    replace (pre ++ lit "New Balance" ++ seps ++ dollar ++ grp ++ frac ++ post)
      with ((pre ++ lit "New Balance" ++ seps ++ dollar) ++ (grp ++ frac) ++ post)
      by (by rewrite <- !app_assoc).
    apply slice_middle; [|done].
    rewrite !length_app. change (length (lit "New Balance")) with 11. lia. }
  by rewrite (amount_is_clean U HU grp frac post).
Qed.

Lemma C6_witness :
  ∃ rec,
    parse_bank_1 basic_ucd
      (lit "New Balance $100.00 and later New Balance: $2,345.67 due") = Ok rec
    ∧ rec !! "total_balance" = Some (Some (lit "2,345.67")).
Proof.
  apply (C6_last_balance_wins basic_ucd (lit "New Balance $100.00 and later ")
           (lit ": ") (lit "$") (lit "2,345") (lit ".67") (lit " due")).
  - apply basic_ucd_ok.
  - change (lit ": ") with [chr ":"; chr " "].
    apply Forall_cons; split; [by left|].
    apply Forall_cons; split; [by right | done].
  - by right.
  - by vm_compute; repeat constructor.
  - done.
  - apply (two_decimals (chr "6") (chr "7")); by vm_compute; repeat constructor.
  - by vm_compute.
Defined.

(** ** Leaving a greedy run early *)


Section Backtrack.
Variable U : UCD.
Variable fl : flags.
Variable body : (mstate → option mstate) → mstate → option mstate.
Variable p : N → bool.
Hypothesis body_one : ∀ k s, body k s = one p k s.

(** Every way of leaving the loop fails: after each prefix of the run
    the continuation fails. *)
Lemma rep_loop_none lo hi greedy k : ∀ w fuel n s rest,
  ms_rest s = w ++ rest →
  Forall (λ c, p c = true) w →
  stops p rest →
  (∀ j, j ≤ length w → k (after (take j w) (drop j w ++ rest) s) = None) →
  rep_loop body lo hi greedy k fuel n s = None.
Proof.
  induction w as [|c w IH]; intros fuel n s rest Hr Hw Hstop Hk.
  - rewrite (rep_loop_stops body p body_one) by (by rewrite Hr).
    specialize (Hk 0 ltac:(simpl; lia)). simpl in Hk.
    rewrite after_nil in Hk by done. rewrite Hk. by destruct (lo <=? n).
  - apply Forall_cons in Hw as [Hc Hw].
    assert (k s = None) as Hks.
    { specialize (Hk 0 ltac:(simpl; lia)). simpl in Hk.
      by rewrite after_nil in Hk. }
    assert (∀ fuel' n', rep_loop body lo hi greedy k fuel' n'
                          (advance c (w ++ rest) s) = None) as Hnext.
    { intros fuel' n'. apply (IH fuel' n' _ rest); try done.
      intros j Hj. specialize (Hk (S j) ltac:(simpl; lia)). simpl in Hk.
      by rewrite after_cons in Hk. }
    destruct fuel as [|fuel]; simpl; rewrite Hks.
    + by destruct greedy, (lo <=? n).
    + rewrite body_one, (one_hit _ _ _ c (w ++ rest)) by done.
      cbv beta. rewrite Hnext.
      destruct (ms_pos s <? ms_pos (advance c (w ++ rest) s)), greedy,
        (lo <=? n), hi as [h|]; simpl; try destruct (n <? h); done.
Qed.

(** A greedy loop gives back what the continuation cannot use: it ends
    after [w1] when the continuation fails after every longer prefix of
    the run [w1 ++ w2] and succeeds after [w1]. *)
Lemma rep_loop_backtrack lo k f w2 rest : ∀ w1 fuel n s,
  ms_rest s = w1 ++ w2 ++ rest →
  Forall (λ c, p c = true) (w1 ++ w2) →
  stops p rest →
  (∀ j, 0 < j ≤ length w2 →
        k (after (w1 ++ take j w2) (drop j w2 ++ rest) s) = None) →
  length w1 < fuel →
  lo ≤ n + length w1 →
  k (after w1 (w2 ++ rest) s) = Some f →
  rep_loop body lo None true k fuel n s = Some f.
Proof.
  induction w1 as [|c w1 IH]; intros fuel n s Hr Hw Hstop Hfail Hfuel Hlo Hk.
  - simpl in *. rewrite after_nil in Hk by done.
    destruct fuel as [|fuel]; [lia|]. simpl.
    destruct (Nat.leb_spec lo n); [|lia]. rewrite Hk.
    destruct w2 as [|c2 w2].
    + by rewrite body_one, one_miss by (by rewrite Hr).
    + apply Forall_cons in Hw as [Hc2 Hw].
      rewrite body_one, (one_hit _ _ _ c2 (w2 ++ rest)) by done.
      replace (ms_pos s <? ms_pos (advance c2 (w2 ++ rest) s)) with true
        by (symmetry; apply Nat.ltb_lt; simpl; lia).
      rewrite (rep_loop_none lo None true k w2 fuel (S n) _ rest); try done.
      intros j Hj. specialize (Hfail (S j) ltac:(simpl; lia)). simpl in Hfail.
      by rewrite after_cons in Hfail.
  - simpl in *. destruct fuel as [|fuel]; [lia|]. simpl.
    apply Forall_cons in Hw as [Hc Hw].
    rewrite body_one, (one_hit _ _ _ c (w1 ++ w2 ++ rest)) by done.
    replace (ms_pos s <? ms_pos (advance c (w1 ++ w2 ++ rest) s)) with true
      by (symmetry; apply Nat.ltb_lt; simpl; lia).
    rewrite (IH fuel (S n) (advance c (w1 ++ w2 ++ rest) s)); try done; try lia.
    + intros j Hj. specialize (Hfail j Hj). by rewrite after_cons in Hfail.
    + by rewrite <- after_cons.
Qed.

End Backtrack.

Section SetBacktrack.
Variable U : UCD.
Variable fl : flags.

Lemma rep_set_none items lo hi greedy k s w rest :
  ms_rest s = w ++ rest →
  Forall (λ c, in_set U fl items c = true) w →
  stops (in_set U fl items) rest →
  (∀ j, j ≤ length w → k (after (take j w) (drop j w ++ rest) s) = None) →
  mtch U fl (Rep lo hi greedy (Cset items)) k s = None.
Proof.
  intros. cbn [mtch].
  by apply (rep_loop_none _ (in_set U fl items)) with (w := w) (rest := rest).
Qed.

Lemma rep_set_backtrack items lo k s w1 w2 rest f :
  ms_rest s = w1 ++ w2 ++ rest →
  Forall (λ c, in_set U fl items c = true) (w1 ++ w2) →
  stops (in_set U fl items) rest →
  (∀ j, 0 < j ≤ length w2 →
        k (after (w1 ++ take j w2) (drop j w2 ++ rest) s) = None) →
  lo ≤ length w1 →
  k (after w1 (w2 ++ rest) s) = Some f →
  mtch U fl (Rep lo None true (Cset items)) k s = Some f.
Proof.
  intros Hr Hw Hstop Hfail Hlo Hk. cbn [mtch].
  apply (rep_loop_backtrack _ (in_set U fl items)) with (w1 := w1) (w2 := w2) (rest := rest);
    try done.
  rewrite Hr, length_app. lia.
Qed.

End SetBacktrack.

(** ** The closing date of bank 1 *)

(** The characters of a date, and ASCII whitespace. *)
Definition date_chars : list N :=
  lit "ABCDEFGHIJKLMNOPQRSTUVWXYZabcdefghijklmnopqrstuvwxyz0123456789/-".
Definition blank_chars : list N := crange 9 13 ++ crange 28 32.

(** The sets [[A-Za-z0-9/\-]] and [[–-]] of the pattern. *)
Definition token_items : list citem :=
  [cr "A" "Z"; cr "a" "z"; cr "0" "9"; cl "/"; cl "-"].
Definition sep_items : list citem := [cl "–"; cl "-"].

(** The separator is a hyphen written right after the first date. *)
Definition tight (ws2 : list N) (sep : N) : Prop := ws2 = [] ∧ sep = chr "-".

(** What may follow the second date: nothing, or a character that
    cannot extend it. *)
Definition ends_date (post : list N) : Prop :=
  match post with
  | [] => True
  | c :: _ => is_basic c = true ∧ c ∉ date_chars
  end.

(** No dash comes next in [post], whitespace apart. *)
Definition no_dash_ahead (post : list N) : Prop :=
  ∃ ws rest,
    post = ws ++ rest ∧ Forall (λ c, c ∈ blank_chars) ws
    ∧ match rest with
      | [] => True
      | c :: _ => is_basic c = true ∧ (c ∉ blank_chars) ∧ c ∉ lit "–-"
      end.

Section Closing.
Variable U : UCD.
Hypothesis HU : UCD_ok U.

Lemma date_char_facts c :
  c ∈ date_chars →
  in_set U IC token_items c = true ∧ uni_isspace U c = false
  ∧ in_set U IC [CSpace] c = false
  ∧ (c ≠ chr "-" → in_set U IC sep_items c = false).
Proof.
  intros Hc.
  assert (is_basic c = true) as Hb
    by (by apply (alphabet_forall is_basic date_chars)).
  rewrite (in_set_basic U HU IC token_items), (in_set_basic U HU IC sep_items),
    (in_set_basic U HU IC [CSpace]), (ok_isspace U HU) by done.
  apply (alphabet_forall
    (λ c, bool_decide (in_set basic_ucd IC token_items c = true
      ∧ basic_isspace c = false
      ∧ in_set basic_ucd IC [CSpace] c = false
      ∧ (c ≠ chr "-" → in_set basic_ucd IC sep_items c = false))) date_chars) in Hc;
    [by apply bool_decide_eq_true in Hc | done].
Qed.

Lemma blank_char_facts c :
  c ∈ blank_chars →
  uni_isspace U c = true ∧ in_set U IC [CSpace] c = true
  ∧ in_set U IC token_items c = false ∧ in_set U IC sep_items c = false.
Proof.
  intros Hc.
  assert (is_basic c = true) as Hb
    by (by apply (alphabet_forall is_basic blank_chars)).
  rewrite (in_set_basic U HU IC token_items), (in_set_basic U HU IC sep_items),
    (in_set_basic U HU IC [CSpace]), (ok_isspace U HU) by done.
  apply (alphabet_forall
    (λ c, bool_decide (basic_isspace c = true
      ∧ in_set basic_ucd IC [CSpace] c = true
      ∧ in_set basic_ucd IC token_items c = false
      ∧ in_set basic_ucd IC sep_items c = false)) blank_chars) in Hc;
    [by apply bool_decide_eq_true in Hc | done].
Qed.

Lemma sep_char_facts c :
  c ∈ lit "–-" →
  in_set U IC sep_items c = true ∧ in_set U IC [CSpace] c = false
  ∧ (c ≠ chr "-" → in_set U IC token_items c = false)
  ∧ (c = chr "-" → in_set U IC token_items c = true).
Proof.
  intros Hc.
  assert (is_basic c = true) as Hb
    by (by apply (alphabet_forall is_basic (lit "–-"))).
  rewrite (in_set_basic U HU IC token_items), (in_set_basic U HU IC sep_items),
    (in_set_basic U HU IC [CSpace]) by done.
  apply (alphabet_forall
    (λ c, bool_decide (in_set basic_ucd IC sep_items c = true
      ∧ in_set basic_ucd IC [CSpace] c = false
      ∧ (c ≠ chr "-" → in_set basic_ucd IC token_items c = false)
      ∧ (c = chr "-" → in_set basic_ucd IC token_items c = true))) (lit "–-")) in Hc;
    [by apply bool_decide_eq_true in Hc | done].
Qed.

Lemma ends_date_facts post :
  ends_date post → stops (in_set U IC token_items) post.
Proof.
  destruct post as [|c post]; [done|]. intros (Hb & Htok).
  unfold stops. rewrite (in_set_basic U HU IC token_items) by done.
  apply (basic_forall
    (λ c, bool_decide (c ∉ date_chars → in_set basic_ucd IC token_items c = false)))
    in Hb; [|done].
  apply bool_decide_eq_true in Hb. auto.
Qed.

Lemma no_dash_ahead_facts post :
  no_dash_ahead post →
  ∃ ws rest,
    post = ws ++ rest ∧ Forall (λ c, c ∈ blank_chars) ws
    ∧ stops (in_set U IC [CSpace]) rest ∧ stops (in_set U IC sep_items) rest.
Proof.
  intros (ws & rest & -> & Hws & Hrest). exists ws, rest.
  split_and!; [done|done| |]; destruct rest as [|c rest]; try done;
    destruct Hrest as (Hb & Hbl & Hsep); unfold stops;
    rewrite ?(in_set_basic U HU IC sep_items), ?(in_set_basic U HU IC [CSpace]) by done;
    apply (basic_forall
      (λ c, bool_decide (
         (c ∉ blank_chars → in_set basic_ucd IC [CSpace] c = false)
         ∧ (c ∉ lit "–-" → in_set basic_ucd IC sep_items c = false))))
      in Hb; try done;
    apply bool_decide_eq_true in Hb as (H1 & H2); auto.
Qed.


Lemma after_one c rest s : after [c] rest s = advance c rest s.
Proof. apply mstate_eq; simpl; try done. lia. Qed.

(** The part of the pattern after the first date:
    [\s*[–-]\s*([A-Za-z0-9/\-]+)]. *)
Definition closing_tail : regex :=
  seqs [star sp; Cset sep_items; star sp; Group 2 date_token].

Lemma closing_tail_hit (ws2 ws3 Y post : list N) sep k s f :
  Forall (λ c, c ∈ blank_chars) ws2 → sep ∈ lit "–-" →
  Forall (λ c, c ∈ blank_chars) ws3 →
  Forall (λ c, c ∈ date_chars) Y → Y ≠ [] →
  stops (in_set U IC token_items) post →
  ms_rest s = ws2 ++ [sep] ++ ws3 ++ Y ++ post →
  k (set_cap 2 (ms_pos s + length ws2 + 1 + length ws3)
       (ms_pos s + length ws2 + 1 + length ws3 + length Y)
       (after (ws2 ++ [sep] ++ ws3 ++ Y) post s)) = Some f →
  mtch U IC closing_tail k s = Some f.
Proof.
  intros Hws2 Hsep Hws3 HY Hne Hpost Hr Hk.
  destruct (sep_char_facts sep Hsep) as (Hsep1 & Hsep2 & _).
  destruct Y as [|y0 Y0] eqn:EY; [done|]. rewrite <- EY in *.
  assert (y0 ∈ date_chars) as Hy0
    by (rewrite EY in HY; by apply Forall_cons in HY as [? _]).
  destruct (date_char_facts y0 Hy0) as (_ & _ & Hy0sp & _).
  unfold closing_tail, star, sp. rewrite mtch_seqs_cons.
  apply rep_set_longest with (w := ws2) (rest := [sep] ++ ws3 ++ Y ++ post);
    [done| |exact Hsep2|lia|].
  { apply Forall_impl with (1 := Hws2). intros c Hc.
    by destruct (blank_char_facts c Hc) as (_ & ? & _). }
  rewrite mtch_seqs_cons, mtch_Cset.
  rewrite (one_hit _ _ _ sep (ws3 ++ Y ++ post)); [|done|done].
  rewrite mtch_seqs_cons.
  apply rep_set_longest with (w := ws3) (rest := Y ++ post); [done| | |lia|].
  { apply Forall_impl with (1 := Hws3). intros c Hc.
    by destruct (blank_char_facts c Hc) as (_ & ? & _). }
  { by rewrite EY. }
  rewrite mtch_seqs_cons, mtch_Group. unfold date_token, plus.
  apply rep_set_longest with (w := Y) (rest := post); [done| |done| |].
  { apply Forall_impl with (1 := HY). intros c Hc.
    by destruct (date_char_facts c Hc) as (? & _). }
  { rewrite EY. simpl. lia. }
  rewrite mtch_seqs_nil. rewrite <- Hk. f_equal.
  rewrite !(after_app _ _ post), after_one.
  apply mstate_eq; simpl; try done; try lia.
  do 2 f_equal. f_equal; lia.
Qed.


Lemma stops_drop_app (p : N → bool) (w rest : list N) j :
  Forall (λ c, p c = false) w → stops p rest → stops p (drop j w ++ rest).
Proof.
  intros Hw Hrest. apply (Forall_drop _ j) in Hw.
  destruct (drop j w) as [|c w']; [done|]. simpl.
  by apply Forall_cons in Hw as [? _].
Qed.

(** No separator ahead: after whitespace comes something that is
    neither whitespace nor a dash. *)
Lemma closing_tail_miss (ws rest : list N) k s :
  Forall (λ c, c ∈ blank_chars) ws →
  stops (in_set U IC [CSpace]) rest → stops (in_set U IC sep_items) rest →
  ms_rest s = ws ++ rest →
  mtch U IC closing_tail k s = None.
Proof.
  intros Hws Hsp Hsep Hr. unfold closing_tail, star, sp. rewrite mtch_seqs_cons.
  apply rep_set_none with (w := ws) (rest := rest); [done| |done|].
  { apply Forall_impl with (1 := Hws). intros c Hc.
    by destruct (blank_char_facts c Hc) as (_ & ? & _). }
  intros j Hj. rewrite mtch_seqs_cons, mtch_Cset. apply one_miss. simpl.
  apply stops_drop_app; [|done].
  apply Forall_impl with (1 := Hws). intros c Hc.
  by destruct (blank_char_facts c Hc) as (_ & _ & _ & ?).
Qed.

(** The two dates and what separates them. *)
Lemma closing_range_hit (X ws2 ws3 Y post : list N) sep k s f :
  Forall (λ c, c ∈ date_chars) X → X ≠ [] →
  Forall (λ c, c ∈ blank_chars) ws2 → sep ∈ lit "–-" →
  Forall (λ c, c ∈ blank_chars) ws3 →
  Forall (λ c, c ∈ date_chars) Y → Y ≠ [] →
  ends_date post →
  (tight ws2 sep → (chr "-" ∉ Y) ∧ no_dash_ahead post) →
  ms_rest s = X ++ ws2 ++ [sep] ++ ws3 ++ Y ++ post →
  k (set_cap 2 (ms_pos s + length X + length ws2 + 1 + length ws3)
       (ms_pos s + length X + length ws2 + 1 + length ws3 + length Y)
       (after (ws2 ++ [sep] ++ ws3 ++ Y) post
          (set_cap 1 (ms_pos s) (ms_pos s + length X)
             (after X (ws2 ++ [sep] ++ ws3 ++ Y ++ post) s)))) = Some f →
  mtch U IC (Group 1 date_token) (mtch U IC closing_tail k) s = Some f.
Proof.
  intros HX HXne Hws2 Hsep Hws3 HY HYne Hpost Htight Hr Hk.
  pose proof (ends_date_facts post Hpost) as Hpost_tok.
  destruct (sep_char_facts sep Hsep) as (_ & _ & Hsep_ne & Hsep_eq).
  assert (Forall (λ c, in_set U IC token_items c = true) X) as HXin.
  { apply Forall_impl with (1 := HX). intros c Hc.
    by destruct (date_char_facts c Hc) as (? & _). }
  assert (Forall (λ c, in_set U IC token_items c = true) Y) as HYin.
  { apply Forall_impl with (1 := HY). intros c Hc.
    by destruct (date_char_facts c Hc) as (? & _). }
  assert (∀ s1, ms_rest s1 = ws2 ++ [sep] ++ ws3 ++ Y ++ post →
            ms_pos s1 = ms_pos s + length X →
            s1 = after X (ws2 ++ [sep] ++ ws3 ++ Y ++ post) s →
            mtch U IC closing_tail k
              (set_cap 1 (ms_pos s) (ms_pos s1) s1) = Some f) as Hgo.
  { intros s1 Hr1 Hp1 ->.
    apply closing_tail_hit with (ws2 := ws2) (ws3 := ws3) (Y := Y) (post := post)
      (sep := sep); done. }
  rewrite mtch_Group. unfold date_token, plus.
  destruct (decide (ws2 = [] ∧ sep = chr "-")) as [Ht|Hloose].
  - (* a hyphen right after the first date: the run goes on past it *)
    destruct (Htight Ht) as (Hhy & Hahead).
    destruct (no_dash_ahead_facts post Hahead)
      as (wsp & restp & Epost & Hwsp & Hpost_sp & Hpost_sep).
    destruct Ht as [-> ->].
    assert (Forall (λ c, in_set U IC [CSpace] c = false) Y
            ∧ Forall (λ c, in_set U IC sep_items c = false) Y) as [HYsp HYsep].
    { split; apply Forall_forall; intros c Hc;
        destruct (date_char_facts c (proj1 (Forall_forall _ _) HY c Hc))
          as (_ & _ & Hsp & Hns); [done|].
      apply Hns. by intros ->. }
    destruct ws3 as [|b ws3'] eqn:Ews3.
    + apply rep_set_backtrack with (w1 := X) (w2 := [chr "-"] ++ Y) (rest := post);
        [done| |done| |destruct X; [done | simpl; lia]|].
      * apply Forall_app. split; [done|]. apply Forall_cons. split; [|done].
        by apply Hsep_eq.
      * intros j Hj. destruct j as [|j]; [lia|]. cbv beta.
        destruct (drop j Y) as [|y Y'] eqn:Ed.
        -- apply closing_tail_miss with (ws := wsp) (rest := restp); try done.
           simpl. by rewrite Ed.
        -- apply (Forall_drop _ j) in HYsp, HYsep. rewrite Ed in HYsp, HYsep.
           apply Forall_cons in HYsp as [Hysp _], HYsep as [Hysep _].
           apply closing_tail_miss with (ws := []) (rest := (y :: Y') ++ post);
             try done.
           simpl. by rewrite Ed.
      * cbv beta. apply Hgo; try done; simpl; lia.
    + assert (b ∈ blank_chars) as Hb by (by apply Forall_cons in Hws3 as [? _]).
      destruct (blank_char_facts b Hb) as (_ & _ & Hbtok & _).
      apply rep_set_backtrack with (w1 := X) (w2 := [chr "-"])
        (rest := (b :: ws3') ++ Y ++ post);
        [done| |done| |destruct X; [done | simpl; lia]|].
      * apply Forall_app. split; [done|]. apply Forall_cons. split; [|done].
        by apply Hsep_eq.
      * intros j Hj. assert (j = 1) as -> by (simpl in Hj; lia). cbv beta.
        apply closing_tail_miss with (ws := b :: ws3') (rest := Y ++ post);
          try done.
        -- destruct Y as [|y Y']; [done|]. by apply Forall_cons in HYsp as [? _].
        -- destruct Y as [|y Y']; [done|]. by apply Forall_cons in HYsep as [? _].
      * cbv beta. apply Hgo; try done; simpl; lia.
  - (* whitespace or an en dash ends the first date *)
    apply rep_set_longest with (w := X) (rest := ws2 ++ [sep] ++ ws3 ++ Y ++ post);
      [done|done| |destruct X; [done | simpl; lia]|].
    + destruct ws2 as [|b ws2'].
      * simpl. apply Hsep_ne. intros ->. by apply Hloose.
      * apply Forall_cons in Hws2 as [Hb _].
        by destruct (blank_char_facts b Hb) as (_ & _ & ? & _).
    + cbv beta. apply Hgo; try done; simpl; lia.
Qed.

End Closing.

Section ClosingHit.
Variable U : UCD.
Hypothesis HU : UCD_ok U.

(** The closing pattern at an occurrence of the label followed by a
    range of two dates. *)
Lemma closing_hit (pre ws0 ws1 X ws2 ws3 Y post : list N) sep prev :
  Forall (λ c, c ∈ blank_chars) ws0 → Forall (λ c, c ∈ blank_chars) ws1 →
  Forall (λ c, c ∈ date_chars) X → X ≠ [] →
  Forall (λ c, c ∈ blank_chars) ws2 → sep ∈ lit "–-" →
  Forall (λ c, c ∈ blank_chars) ws3 →
  Forall (λ c, c ∈ date_chars) Y → Y ≠ [] →
  ends_date post →
  (tight ws2 sep → (chr "-" ∉ Y) ∧ no_dash_ahead post) →
  ∃ f,
    mtch U IC b1_closing (accept false (length pre))
      {| ms_pos := length pre; ms_prev := prev;
         ms_rest := lit "Opening/Closing" ++ ws0 ++ lit "Date" ++ ws1
                    ++ X ++ ws2 ++ [sep] ++ ws3 ++ Y ++ post;
         ms_caps := [] |} = Some f
    ∧ cap_lookup 2 (ms_caps f)
      = Some (length pre + 15 + length ws0 + 4 + length ws1
              + length X + length ws2 + 1 + length ws3,
              length pre + 15 + length ws0 + 4 + length ws1
              + length X + length ws2 + 1 + length ws3 + length Y).
Proof.
  intros Hws0 Hws1 HX HXne Hws2 Hsep Hws3 HY HYne Hpost Htight.
  assert (∀ ws, Forall (λ c, c ∈ blank_chars) ws →
            Forall (λ c, in_set U IC [CSpace] c = true) ws) as Hblank.
  { intros ws Hws. apply Forall_impl with (1 := Hws). intros c Hc.
    by destruct (blank_char_facts U HU c Hc) as (_ & ? & _). }
  destruct X as [|x0 X0] eqn:EX; [done|]. rewrite <- EX in *.
  assert (x0 ∈ date_chars) as Hx0
    by (rewrite EX in HX; by apply Forall_cons in HX as [? _]).
  destruct (date_char_facts U HU x0 Hx0) as (_ & _ & Hx0sp & _).
  eexists. split.
  - unfold b1_closing. rewrite mtch_seqs_cons.
    rewrite (word_hit U IC (lit "Opening/Closing") (lit "Opening/Closing") _ _
               (ws0 ++ lit "Date" ++ ws1 ++ X ++ ws2 ++ [sep] ++ ws3 ++ Y ++ post));
      [|done|by apply word_self].
    rewrite mtch_seqs_cons.
    apply rep_set_longest with (w := ws0)
      (rest := lit "Date" ++ ws1 ++ X ++ ws2 ++ [sep] ++ ws3 ++ Y ++ post);
      [done|by apply Hblank| |simpl; lia|].
    { unfold stops, in_set. simpl. by rewrite (ok_isspace U HU). }
    rewrite mtch_seqs_cons.
    rewrite (word_hit U IC (lit "Date") (lit "Date") _ _
               (ws1 ++ X ++ ws2 ++ [sep] ++ ws3 ++ Y ++ post));
      [|done|by apply word_self].
    rewrite mtch_seqs_cons.
    apply rep_set_longest with (w := ws1)
      (rest := X ++ ws2 ++ [sep] ++ ws3 ++ Y ++ post);
      [done|by apply Hblank| |simpl; lia|].
    { by rewrite EX. }
    rewrite mtch_seqs_cons.
    apply (closing_range_hit U HU X ws2 ws3 Y post sep); try done.
  - cbn [set_cap after ms_pos ms_caps cap_lookup Nat.eqb].
    change (length (lit "Opening/Closing")) with 15.
    change (length (lit "Date")) with 4.
    f_equal.
Qed.

(** Where the label does not occur, the closing pattern does not match. *)
Lemma closing_needs_label text j :
  mtch U IC (word "Opening/Closing") Some (st_at text j) = None →
  ∀ k, mtch U IC b1_closing k (st_at text j) = None.
Proof.
  intros Hnone k. apply mtch_no_match. intros s' Hm.
  unfold b1_closing in Hm. apply seqs_cons_inv in Hm as (s1 & Hl & _).
  by apply (mtch_None_matches U IC _ _ Hnone s1).
Qed.

Lemma strip_date (Y : list N) :
  Forall (λ c, c ∈ date_chars) Y → strip (uni_isspace U) Y = Y.
Proof.
  intros HY.
  assert (Forall (λ c, uni_isspace U c = false) Y) as Hns.
  { apply Forall_impl with (1 := HY). intros c Hc.
    by destruct (date_char_facts U HU c Hc) as (_ & ? & _). }
  unfold strip. rewrite lstrip_stops.
  - destruct Y as [|c Y' _] using rev_ind; [done|].
    apply Forall_app in Hns as [_ [Hc _]%Forall_cons]. by apply rstrip_stops.
  - destruct Y; [done|]. by apply Forall_cons in Hns as [? _].
Qed.

Lemma parse_bank_1_closing text rec m :
  parse_bank_1 U text = Ok rec →
  re_search U IC b1_closing text = Some m →
  rec !! "statement_closing_date"
  = Some (strip (uni_isspace U) <$> group m 2).
Proof.
  unfold parse_bank_1. cbv zeta. intros Heq Hm. rewrite Hm in Heq. revert Heq.
  generalize (match last (re_findall1 U IC b1_balance text) with
              | Some v => <["total_balance" := Some (_clean_amount U v)]> fields_none
              | None => fields_none end).
  intros out0.
  repeat match goal with
         | |- context [re_search U ?fl ?r text] =>
           destruct (re_search U fl r text) as [?m|]
         end;
    repeat match goal with
           | |- context [as_str (group ?m ?n)] => destruct (group m n)
           end;
    intros Heq; cbn [mbind mret res_bind res_ret as_str] in Heq;
    first [discriminate Heq | injection Heq as <-];
    by rewrite lookup_insert_eq.
Qed.

End ClosingHit.

Section FirstHit.
Variable U : UCD.
Variable fl : flags.

(** The search returns the match at [P] when no match starts before. *)
Lemma search_at_first text r (P : nat) (f : mstate) :
  P ≤ length text →
  (∀ j, j < P → ∀ k, mtch U fl r k (st_at text j) = None) →
  mtch U fl r (accept false P) (st_at text P) = Some f →
  search_at U fl text r false 0 = Some (P, f).
Proof.
  intros HP Hnone Hhit.
  destruct (search_at_finds U fl text r (P - 0) false 0 P f eq_refl) as (st & s & Hs & Hle & Heq).
  - lia.
  - done.
  - destruct (decide (st = P)) as [->|Hne]; [by rewrite Hs, Heq|].
    exfalso. assert (st < P) as Hlt by lia. clear Heq Hne Hle.
    destruct (search_at_Some U fl text r (length text - 0) false 0 st s eq_refl)
      as (_ & Hm & _); [lia|done|].
    destruct (mtch_complete U fl r Some _ _ Hm) as [f' Hf']; [by eexists|].
    by rewrite Hnone in Hf'.
Qed.

End FirstHit.

(** A decidable fact about given characters, by evaluation. *)
Ltac by_computation :=
  match goal with
  | |- ?P => apply (bool_decide_unpack P); vm_compute; exact I
  end.

(** A text in which the label, a first date, a dash and a second date
    follow [pre], with whitespace [ws0] .. [ws3] in between. *)
Definition range_text (pre ws0 ws1 X ws2 : list N) (sep : N) (ws3 Y post : list N)
    : list N :=
  pre ++ lit "Opening/Closing" ++ ws0 ++ lit "Date" ++ ws1
  ++ X ++ ws2 ++ [sep] ++ ws3 ++ Y ++ post.

(** Where the bank-1 routine does take the second endpoint: after the
    first occurrence of the label "Opening/Closing Date", for two runs
    [X] and [Y] of letters, digits, slashes and hyphens with a dash
    between them and any whitespace around it, [statement_closing_date]
    is [Y] when the dash is an en dash or has whitespace before it. When
    a hyphen stands right after [X] the first group runs through it and
    the matcher comes back to the last hyphen that a second group can
    follow: [Y] is then returned only if it has no hyphen and no further
    dash follows it. The range "01/02/2024 – 01/31/2024" gives
    "01/31/2024", with either dash. *)
Lemma closing_date_of_range (U : UCD) :
  UCD_ok U →
  (∀ (pre ws0 ws1 X ws2 : list N) (sep : N) (ws3 Y post : list N),
     Forall (λ c, c ∈ blank_chars) ws0 → Forall (λ c, c ∈ blank_chars) ws1 →
     Forall (λ c, c ∈ date_chars) X → X ≠ [] →
     Forall (λ c, c ∈ blank_chars) ws2 → sep ∈ lit "–-" →
     Forall (λ c, c ∈ blank_chars) ws3 →
     Forall (λ c, c ∈ date_chars) Y → Y ≠ [] →
     ends_date post →
     (tight ws2 sep → (chr "-" ∉ Y) ∧ no_dash_ahead post) →
     m_start <$> re_search U IC (word "Opening/Closing")
                   (range_text pre ws0 ws1 X ws2 sep ws3 Y post)
     = Some (length pre) →
     ∃ rec,
       parse_bank_1 U (range_text pre ws0 ws1 X ws2 sep ws3 Y post) = Ok rec
       ∧ rec !! "statement_closing_date" = Some (Some Y))
  ∧ (∀ sep : N, sep ∈ lit "–-" →
     ∃ rec,
       parse_bank_1 U (lit "Opening/Closing Date 01/02/2024 " ++ [sep] ++ lit " 01/31/2024")
       = Ok rec
       ∧ rec !! "statement_closing_date" = Some (Some (lit "01/31/2024"))).
Proof.
  intros HU.
  assert (∀ (pre ws0 ws1 X ws2 : list N) (sep : N) (ws3 Y post : list N),
     Forall (λ c, c ∈ blank_chars) ws0 → Forall (λ c, c ∈ blank_chars) ws1 →
     Forall (λ c, c ∈ date_chars) X → X ≠ [] →
     Forall (λ c, c ∈ blank_chars) ws2 → sep ∈ lit "–-" →
     Forall (λ c, c ∈ blank_chars) ws3 →
     Forall (λ c, c ∈ date_chars) Y → Y ≠ [] →
     ends_date post →
     (tight ws2 sep → (chr "-" ∉ Y) ∧ no_dash_ahead post) →
     m_start <$> re_search U IC (word "Opening/Closing")
                   (range_text pre ws0 ws1 X ws2 sep ws3 Y post)
     = Some (length pre) →
     ∃ rec,
       parse_bank_1 U (range_text pre ws0 ws1 X ws2 sep ws3 Y post) = Ok rec
       ∧ rec !! "statement_closing_date" = Some (Some Y)) as Hgen.
  { intros pre ws0 ws1 X ws2 sep ws3 Y post
      Hws0 Hws1 HX HXne Hws2 Hsep Hws3 HY HYne Hpost Htight Hfirst.
    set (text := range_text pre ws0 ws1 X ws2 sep ws3 Y post) in *.
    destruct (parse_bank_1_keys U text) as (rec & Hrec & _).
    exists rec. split; [done|].
    assert (length pre ≤ length text) as Hlen.
    { unfold text, range_text. rewrite length_app. lia. }
    destruct (closing_hit U HU pre ws0 ws1 X ws2 ws3 Y post sep
                (prev_at text (length pre))) as (f & Hhit & Hcap); try done.
    assert (st_at text (length pre)
            = {| ms_pos := length pre; ms_prev := prev_at text (length pre);
                 ms_rest := lit "Opening/Closing" ++ ws0 ++ lit "Date" ++ ws1
                            ++ X ++ ws2 ++ [sep] ++ ws3 ++ Y ++ post;
                 ms_caps := [] |}) as Hst.
    { unfold st_at, text, range_text. by rewrite drop_app_length. }
    rewrite <- Hst in Hhit.
    assert (re_search U IC b1_closing text = Some (mk_match text (length pre, f)))
      as Hm.
    { rewrite re_search_at.
      rewrite (search_at_first U IC text b1_closing (length pre) f); try done.
      intros j Hj. apply closing_needs_label.
      rewrite re_search_at in Hfirst.
      destruct (search_at U IC text (word "Opening/Closing") false 0)
        as [[st s]|] eqn:Hs; [|done].
      injection Hfirst as ->.
      destruct (search_at_Some U IC text _ (length text - 0) false 0 _ s
                  eq_refl ltac:(lia) Hs) as (_ & _ & _ & _ & _ & Hnone).
      apply (Hnone j). lia. }
    rewrite (parse_bank_1_closing U text rec _ Hrec Hm). do 2 f_equal.
    unfold group, mk_match. cbn [m_caps m_string snd]. rewrite Hcap. simpl.
    assert (slice text
              (length pre + 15 + length ws0 + 4 + length ws1 + length X
               + length ws2 + 1 + length ws3)
              (length pre + 15 + length ws0 + 4 + length ws1 + length X
               + length ws2 + 1 + length ws3 + length Y) = Y) as ->.
    { unfold text, range_text.
      replace (pre ++ lit "Opening/Closing" ++ ws0 ++ lit "Date" ++ ws1
               ++ X ++ ws2 ++ [sep] ++ ws3 ++ Y ++ post)
        with ((pre ++ lit "Opening/Closing" ++ ws0 ++ lit "Date" ++ ws1
               ++ X ++ ws2 ++ [sep] ++ ws3) ++ Y ++ post)
        by (by rewrite <- !app_assoc).
      apply slice_middle; [|done].
      rewrite !length_app. change (length (lit "Opening/Closing")) with 15.
      change (length (lit "Date")) with 4. simpl. lia. }
    by rewrite (strip_date U HU Y HY). }
  split; [exact Hgen|].
  intros sep Hsep.
  change (lit "Opening/Closing Date 01/02/2024 " ++ [sep] ++ lit " 01/31/2024")
    with (range_text [] [chr " "] [chr " "] (lit "01/02/2024") [chr " "] sep
            [chr " "] (lit "01/31/2024") []).
  apply Hgen; try done; try (by vm_compute; repeat constructor).
  - by intros [? _].
  - unfold range_text, re_search. cbn [app].
    erewrite search_from_hit; [done|].
    unfold word.
    by rewrite (word_hit U IC (lit "Opening/Closing") (lit "Opening/Closing") _ _
               ([chr " "] ++ lit "Date" ++ [chr " "] ++ lit "01/02/2024" ++ [chr " "]
                ++ [sep] ++ [chr " "] ++ lit "01/31/2024" ++ []));
      [|done|by apply word_self].
Qed.

Lemma label_at_start (U : UCD) (rest : list N) :
  UCD_ok U →
  m_start <$> re_search U IC (word "Opening/Closing") (lit "Opening/Closing" ++ rest)
  = Some 0.
Proof.
  intros HU. unfold re_search. erewrite search_from_hit; [done|].
  unfold word.
  by rewrite (word_hit U IC (lit "Opening/Closing") (lit "Opening/Closing") _ _ rest);
    [|done|by apply word_self].
Qed.

(** C7. The routine does not select the second endpoint of every range
    written with a hyphen. The class of the first date holds the hyphen
    and its repetition is greedy, so a hyphen written right after the
    first date is read as part of it: of "01/02/2024-01/31/2024 - Page 1
    of 3" the closing date returned is "Page", and of
    "2024-01-02-2024-01-31" it is "31", where the second endpoint is
    "01/31/2024" and "2024-01-31". *)
Theorem C7_hyphen_after_first_date (U : UCD) :
  UCD_ok U →
  (∃ rec,
     parse_bank_1 U (lit "Opening/Closing Date 01/02/2024-01/31/2024 - Page 1 of 3")
     = Ok rec
     ∧ rec !! "statement_closing_date" = Some (Some (lit "Page")))
  ∧ (∃ rec,
       parse_bank_1 U (lit "Opening/Closing Date 2024-01-02-2024-01-31") = Ok rec
       ∧ rec !! "statement_closing_date" = Some (Some (lit "31"))).
Proof.
  intros HU. destruct (closing_date_of_range U HU) as [Hgen _]. split.
  - change (lit "Opening/Closing Date 01/02/2024-01/31/2024 - Page 1 of 3")
      with (range_text [] [chr " "] [chr " "] (lit "01/02/2024-01/31/2024")
              [chr " "] (chr "-") [chr " "] (lit "Page") (lit " 1 of 3")).
    apply Hgen; try done; try (by vm_compute; repeat constructor).
    + split; [done|]. by_computation.
    + by intros [? _].
    + by apply label_at_start.
  - change (lit "Opening/Closing Date 2024-01-02-2024-01-31")
      with (range_text [] [chr " "] [chr " "] (lit "2024-01-02-2024-01")
              [] (chr "-") [] (lit "31") []).
    apply Hgen; try done; try (by vm_compute; repeat constructor).
    + intros _. split; [by_computation|]. by exists [], [].
    + by apply label_at_start.
Qed.

Lemma C7_witness :
  (∃ rec,
     parse_bank_1 basic_ucd
       (lit "Opening/Closing Date 01/02/2024-01/31/2024 - Page 1 of 3") = Ok rec
     ∧ rec !! "statement_closing_date" = Some (Some (lit "Page")))
  ∧ (∃ rec,
       parse_bank_1 basic_ucd (lit "Opening/Closing Date 2024-01-02-2024-01-31")
       = Ok rec
       ∧ rec !! "statement_closing_date" = Some (Some (lit "31"))).
Proof. apply (C7_hyphen_after_first_date basic_ucd). apply basic_ucd_ok. Defined.

(** ** The label-anchored windowed search *)

(** The pattern matches from position [j] of [text]. *)
Definition occurs (U : UCD) (fl : flags) (r : regex) (text : list N) (j : nat) : Prop :=
  ∃ s', matches U fl r (st_at text j) s'.

Section Occurrences.
Variable U : UCD.
Variable fl : flags.

Lemma re_search_absent r text :
  (∀ j, j ≤ length text → ¬ occurs U fl r text j) →
  re_search U fl r text = None.
Proof.
  intros Hno. rewrite re_search_at.
  rewrite (search_at_none_intro U fl text r (length text - 0)); [done|done|lia|].
  intros j Hj k. apply mtch_no_match. intros s' Hm. apply (Hno j); [lia|].
  by exists s'.
Qed.

(** [re.search] returns a match at the first position where the pattern
    occurs. *)
Lemma re_search_first r text m :
  re_search U fl r text = Some m →
  m_start m ≤ m_end m ≤ length text
  ∧ (∃ s, matches U fl r (st_at text (m_start m)) s
          ∧ ms_pos s = m_end m ∧ ms_caps s = m_caps m)
  ∧ (∀ j, j < m_start m → ¬ occurs U fl r text j).
Proof.
  rewrite re_search_at.
  destruct (search_at U fl text r false 0) as [[st s]|] eqn:Hs; [|done].
  intros [= <-]. unfold mk_match. simpl.
  destruct (search_at_Some U fl text r (length text - 0) false 0 st s
              eq_refl ltac:(lia) Hs) as (Hst & Hm & Hat & Hle & _ & Hnone).
  destruct Hat as (_ & _ & Hend).
  split_and!; [done|done|by exists s|].
  intros j Hj [s' Hs']. specialize (Hnone j ltac:(lia)).
  by apply (mtch_None_matches U fl r _ Hnone s').
Qed.

Lemma re_search_present r text j :
  j ≤ length text → occurs U fl r text j → is_Some (re_search U fl r text).
Proof.
  intros Hj [s' Hm].
  destruct (re_search U fl r text) as [m|] eqn:Hs; [by eexists|].
  rewrite re_search_at in Hs.
  destruct (search_at U fl text r false 0) as [?|] eqn:Hn; [done|].
  pose proof (search_at_None U fl text r (length text - 0) false 0 eq_refl Hn j
                ltac:(lia)) as Hnone.
  by destruct (mtch_None_matches U fl r _ Hnone s').
Qed.

End Occurrences.

(** [text[start:start + window]], the part of the text that is searched
    for the value. *)
Definition snippet_of (text : list N) (start window : nat) : list N :=
  slice text start (start + window).

Lemma slice_window (text : list N) start window :
  slice text start (start + window) = take window (drop start text).
Proof. unfold slice. by replace (start + window - start) with window by lia. Qed.

(** Trimming leaves a text without whitespace as it is. *)
Lemma strip_solid (isspace : N → bool) (s : list N) :
  Forall (λ c, isspace c = false) s → strip isspace s = s.
Proof.
  intros Hns. unfold strip. rewrite lstrip_stops.
  - destruct s as [|c s' _] using rev_ind; [done|].
    apply Forall_app in Hns as [_ [Hc _]%Forall_cons]. by apply rstrip_stops.
  - destruct s; [done|]. by apply Forall_cons in Hns as [? _].
Qed.

Section Window.
Variable U : UCD.

Lemma find_value_no_label text label value window :
  (∀ j, j ≤ length text → ¬ occurs U IC label text j) →
  _find_value_after_label U text label value window = Ok None.
Proof.
  intros Hno. unfold _find_value_after_label.
  by rewrite (re_search_absent U IC label text Hno).
Qed.

Lemma find_value_no_value text label value window m :
  re_search U IC label text = Some m →
  (∀ j, j ≤ length (snippet_of text (m_end m) window) →
        ¬ occurs U IC value (snippet_of text (m_end m) window) j) →
  _find_value_after_label U text label value window = Ok None.
Proof.
  intros Hm Hno. unfold _find_value_after_label. rewrite Hm. cbv zeta.
  fold (snippet_of text (m_end m) window).
  by rewrite (re_search_absent U IC value _ Hno).
Qed.

Lemma find_value_some text label value window m j :
  re_search U IC label text = Some m →
  defines 1 value = true →
  j ≤ length (snippet_of text (m_end m) window) →
  occurs U IC value (snippet_of text (m_end m) window) j →
  ∃ st s a b,
    (∀ i, i < st → ¬ occurs U IC value (snippet_of text (m_end m) window) i)
    ∧ matches U IC value (st_at (snippet_of text (m_end m) window) st) s
    ∧ cap_lookup 1 (ms_caps s) = Some (a, b)
    ∧ _find_value_after_label U text label value window
      = Ok (Some (strip (uni_isspace U)
                    (slice (snippet_of text (m_end m) window) a b))).
Proof.
  intros Hm Hd Hj Hocc. unfold _find_value_after_label. rewrite Hm. cbv zeta.
  fold (snippet_of text (m_end m) window).
  set (snippet := snippet_of text (m_end m) window) in *.
  destruct (re_search_present U IC value snippet j Hj Hocc) as [mv Hmv].
  rewrite Hmv.
  destruct (re_search_first U IC value snippet mv Hmv)
    as (_ & (s & Hs & _ & Hcaps) & Hfirst).
  destruct (re_search_defines U IC value 0 snippet mv Hd Hmv) as [g Hg].
  rewrite Hg. unfold group in Hg. rewrite <- Hcaps in Hg.
  destruct (cap_lookup 1 (ms_caps s)) as [[a b]|] eqn:Hcap; [|done].
  injection Hg as <-.
  assert (m_string mv = snippet) as ->.
  { unfold re_search in Hmv. destruct (search_from _ _ _ _ _ _ _); [|done].
    by injection Hmv as <-. }
  by exists (m_start mv), s, a, b.
Qed.

Lemma snippet_of_length (text : list N) start window :
  length (snippet_of text start window) ≤ window.
Proof. unfold snippet_of. rewrite slice_window, length_take. lia. Qed.

End Window.

(** *** The balance of bank 4 and a distant amount *)

Section Decoy.
Variable U : UCD.
Hypothesis HU : UCD_ok U.

Lemma blank_char_value_facts c :
  c ∈ blank_chars →
  is_word U c = false ∧ in_set U IC amount_items c = false
  ∧ item_match U IC (CLit (chr "$")) c = false.
Proof.
  intros Hc.
  assert (is_basic c = true) as Hb
    by (by apply (alphabet_forall is_basic blank_chars)).
  rewrite (in_set_basic U HU IC amount_items), (item_match_basic U HU),
    (is_word_basic U HU) by done.
  apply (alphabet_forall
    (λ c, bool_decide (is_word basic_ucd c = false
      ∧ in_set basic_ucd IC amount_items c = false
      ∧ item_match basic_ucd IC (CLit (chr "$")) c = false)) blank_chars) in Hc;
    [by apply bool_decide_eq_true in Hc | done].
Qed.

(** The label [NEW\s+BALANCE\b] at the start of a text that goes on with
    something else than a word character. *)
Lemma new_balance_hit (rest : list N) :
  stops (is_word U) rest →
  ∃ m, re_search U IC b4_balance_label (lit "NEW BALANCE" ++ rest) = Some m
       ∧ m_start m = 0 ∧ m_end m = 11.
Proof.
  intros Hrest. eexists. split.
  - unfold re_search. erewrite search_from_hit; [done|].
    unfold b4_balance_label.
    change (lit "NEW BALANCE") with (lit "NEW" ++ [chr " "] ++ lit "BALANCE").
    rewrite <- !app_assoc. rewrite mtch_seqs_cons.
    rewrite (word_hit U IC (lit "NEW") (lit "NEW") _ _
               ([chr " "] ++ lit "BALANCE" ++ rest)); [|done|by apply word_self].
    rewrite mtch_seqs_cons.
    apply rep_set_longest with (w := [chr " "]) (rest := lit "BALANCE" ++ rest);
      [done| | |simpl; lia|].
    { repeat constructor. unfold in_set. simpl. by rewrite (ok_isspace U HU). }
    { unfold stops, in_set. simpl. by rewrite (ok_isspace U HU). }
    rewrite mtch_seqs_cons.
    rewrite (word_hit U IC (lit "BALANCE") (lit "BALANCE") _ _ rest);
      [|done|by apply word_self].
    rewrite mtch_seqs_cons, mtch_WordB.
    assert (at_boundary U
              (after (lit "BALANCE") rest
                 (after [chr " "] (lit "BALANCE" ++ rest)
                    (after (lit "NEW") ([chr " "] ++ lit "BALANCE" ++ rest)
                       {| ms_pos := 0; ms_prev := None;
                          ms_rest := lit "NEW" ++ [chr " "] ++ lit "BALANCE" ++ rest;
                          ms_caps := [] |}))) = true) as ->.
    { unfold at_boundary. cbn [after ms_prev ms_rest].
      change (last_or _ (lit "BALANCE")) with (Some (chr "E")).
      cbn [opt_word]. rewrite (is_word_basic U HU) by done.
      change (is_word basic_ucd (chr "E")) with true.
      destruct rest as [|c rest]; [done|]. simpl in Hrest. simpl. by rewrite Hrest. }
    rewrite mtch_seqs_nil. reflexivity.
  - done.
Qed.

(** No amount starts at a character that is neither a dollar sign, a
    digit nor a comma, or at the end of the text. *)
Lemma dollar_amount_dead k s :
  stops (in_set U IC amount_items) (ms_rest s) →
  stops (item_match U IC (CLit (chr "$"))) (ms_rest s) →
  mtch U IC dollar_amount k s = None.
Proof.
  intros Hamt Hdollar. unfold dollar_amount, opt. rewrite mtch_Seq.
  rewrite rep_lit_stops by done. change (0 <=? 0) with true. cbv iota.
  rewrite mtch_Group. unfold amount, plus. rewrite mtch_Seq.
  by rewrite rep_set_stops by done.
Qed.

Lemma dollar_amount_blank (w : list N) :
  Forall (λ c, c ∈ blank_chars) w →
  re_search U IC dollar_amount w = None.
Proof.
  intros Hw. unfold re_search. rewrite <- (app_nil_r w).
  rewrite (search_from_skip U IC dollar_amount (λ c, c ∈ blank_chars)); [| |done].
  - cbn [search_from]. by rewrite dollar_amount_dead.
  - intros c Hc k s rest Hr.
    destruct (blank_char_value_facts c Hc) as (_ & ? & ?).
    apply dollar_amount_dead; by rewrite Hr.
Qed.

Lemma dollar_amount_found (filler grp frac : list N) :
  Forall (λ c, c ∈ blank_chars) filler →
  Forall (λ c, c ∈ group_chars) grp → grp ≠ [] → fraction frac [] →
  ∃ f,
    search_from U IC dollar_amount false 0 None
      (filler ++ lit "$" ++ grp ++ frac ++ []) = Some (length filler, f)
    ∧ cap_lookup 1 (ms_caps f)
      = Some (length filler + 1, length filler + 1 + length (grp ++ frac)).
Proof.
  intros Hfill Hgrp Hne Hfrac. eexists. split.
  - rewrite (search_from_skip U IC dollar_amount (λ c, c ∈ blank_chars)); [| |done].
    + apply search_from_hit. unfold dollar_amount, opt. rewrite mtch_Seq.
      change (lit "$") with [chr "$"].
      apply rep_lit_longest with (w := [chr "$"]) (rest := grp ++ frac ++ []);
        [done| |by left|simpl; lia|].
      { repeat constructor. simpl. by rewrite (ok_ieq U HU). }
      by apply amount_hit with (grp := grp) (frac := frac) (post := []).
    + intros c Hc k s rest Hr.
      destruct (blank_char_value_facts c Hc) as (_ & ? & ?).
      apply dollar_amount_dead; by rewrite Hr.
  - cbn [set_cap after ms_pos ms_caps cap_lookup Nat.eqb]. f_equal.
Qed.

Lemma strip_amount (grp frac : list N) :
  Forall (λ c, c ∈ group_chars) grp → fraction frac [] →
  strip (uni_isspace U) (grp ++ frac) = grp ++ frac.
Proof.
  intros Hgrp Hfrac. apply strip_solid.
  assert (∀ c, c ∈ lit "0123456789,." → uni_isspace U c = false) as Hsolid.
  { intros c Hc.
    assert (is_basic c = true) as Hb
      by (by apply (alphabet_forall is_basic (lit "0123456789,."))).
    rewrite (ok_isspace U HU) by done.
    apply (alphabet_forall (λ c, negb (basic_isspace c)) (lit "0123456789,.")) in Hc;
      [by apply negb_true_iff in Hc | done]. }
  assert (∀ c, c ∈ group_chars → c ∈ lit "0123456789,.") as Hsub.
  { intros c Hc.
    apply (alphabet_forall (λ c, bool_decide (c ∈ lit "0123456789,.")) group_chars)
      in Hc; [by apply bool_decide_eq_true in Hc | done]. }
  assert (∀ c, c ∈ digit_chars → c ∈ lit "0123456789,.") as Hsubd.
  { intros c Hc.
    apply (alphabet_forall (λ c, bool_decide (c ∈ lit "0123456789,.")) digit_chars)
      in Hc; [by apply bool_decide_eq_true in Hc | done]. }
  apply Forall_app. split.
  - apply Forall_impl with (1 := Hgrp). auto.
  - destruct Hfrac as [|d1 d2 post' Hd1 Hd2]; [done|].
    repeat (apply Forall_cons; split; [apply Hsolid|]); auto.
    by_computation.
Qed.

End Decoy.

(** C3. [_find_value_after_label] anchors on the first occurrence of the
    label and looks for the value in the [window] characters after the
    label's end only. Where the label pattern occurs nowhere the result
    is absent. Where [re.search] finds the label, no occurrence of the
    label starts earlier; the text searched for the value has at most
    [window] characters; the result is absent when the value pattern
    occurs nowhere in it; and when it occurs, the result is the trimmed
    first group of a match at its first occurrence there. At the balance
    of bank 4, an amount that stands [window] or more whitespace
    characters after "NEW BALANCE" is not returned, while one that fits
    in the window is. *)
Theorem C3_label_window_search (U : UCD) :
  UCD_ok U →
  (∀ (text : list N) (label value : regex) (window : nat),
     ((∀ j, j ≤ length text → ¬ occurs U IC label text j) →
      _find_value_after_label U text label value window = Ok None)
     ∧ (∀ m, re_search U IC label text = Some m →
          (∀ j, j < m_start m → ¬ occurs U IC label text j)
          ∧ length (snippet_of text (m_end m) window) ≤ window
          ∧ ((∀ j, j ≤ length (snippet_of text (m_end m) window) →
                   ¬ occurs U IC value (snippet_of text (m_end m) window) j) →
             _find_value_after_label U text label value window = Ok None)
          ∧ (defines 1 value = true →
             ∀ j, j ≤ length (snippet_of text (m_end m) window) →
                  occurs U IC value (snippet_of text (m_end m) window) j →
             ∃ st s a b,
               (∀ i, i < st →
                     ¬ occurs U IC value (snippet_of text (m_end m) window) i)
               ∧ matches U IC value (st_at (snippet_of text (m_end m) window) st) s
               ∧ cap_lookup 1 (ms_caps s) = Some (a, b)
               ∧ _find_value_after_label U text label value window
                 = Ok (Some (strip (uni_isspace U)
                               (slice (snippet_of text (m_end m) window) a b))))))
  ∧ (∀ (filler grp frac : list N) (window : nat),
       Forall (λ c, c ∈ blank_chars) filler →
       Forall (λ c, c ∈ group_chars) grp → grp ≠ [] → fraction frac [] →
       (window ≤ length filler →
        _find_value_after_label U (lit "NEW BALANCE" ++ filler ++ lit "$" ++ grp ++ frac)
          b4_balance_label dollar_amount window = Ok None)
       ∧ (length filler + 1 + length (grp ++ frac) ≤ window →
          _find_value_after_label U (lit "NEW BALANCE" ++ filler ++ lit "$" ++ grp ++ frac)
            b4_balance_label dollar_amount window = Ok (Some (grp ++ frac)))).
Proof.
  intros HU. split.
  - intros text label value window. split.
    + apply find_value_no_label.
    + intros m Hm. split_and!.
      * by destruct (re_search_first U IC label text m Hm) as (_ & _ & ?).
      * apply snippet_of_length.
      * by apply find_value_no_value.
      * intros Hd j. by apply find_value_some.
  - intros filler grp frac window Hfill Hgrp Hne Hfrac.
    set (rest := filler ++ lit "$" ++ grp ++ frac).
    assert (stops (is_word U) rest) as Hrest.
    { unfold rest. destruct filler as [|c filler].
      - simpl. by rewrite (is_word_basic U HU).
      - apply Forall_cons in Hfill as [Hc _]. simpl.
        by destruct (blank_char_value_facts U HU c Hc) as (? & _). }
    destruct (new_balance_hit U HU rest Hrest) as (m & Hm & _ & Hend).
    assert (∀ window, snippet_of (lit "NEW BALANCE" ++ rest) (m_end m) window
                      = take window rest) as Hsnip.
    { intros w. unfold snippet_of. rewrite slice_window, Hend.
      change 11 with (length (lit "NEW BALANCE")).
      by rewrite (drop_app_length (lit "NEW BALANCE") rest). }
    unfold _find_value_after_label. rewrite Hm. cbv zeta.
    fold (snippet_of (lit "NEW BALANCE" ++ rest) (m_end m) window).
    rewrite Hsnip. split; intros Hw.
    + unfold rest. rewrite take_app_le by done.
      rewrite dollar_amount_blank; [done|done|]. by apply Forall_take.
    + rewrite take_ge
        by (unfold rest; rewrite !length_app in *; change (length (lit "$")) with 1; lia).
      destruct (dollar_amount_found U HU filler grp frac) as (f & Hf & Hcap); try done.
      unfold rest, re_search.
      replace (filler ++ lit "$" ++ grp ++ frac)
        with (filler ++ lit "$" ++ grp ++ frac ++ []) by (by rewrite app_nil_r).
      assert (filler ++ lit "$" ++ grp ++ frac ++ []
              = (filler ++ lit "$") ++ (grp ++ frac) ++ []) as Etxt
        by (by rewrite <- !app_assoc).
      set (txt := filler ++ lit "$" ++ grp ++ frac ++ []) in *.
      rewrite Hf. simpl. rewrite Hcap. simpl. rewrite Etxt.
      rewrite slice_middle;
        [|rewrite length_app; change (length (lit "$")) with 1; lia|done].
      by rewrite (strip_amount U HU).
Qed.

Lemma C3_witness :
  _find_value_after_label basic_ucd
    (lit "NEW BALANCE" ++ replicate 34 (chr " ") ++ lit "$123.45")
    b4_balance_label dollar_amount 30 = Ok None
  ∧ _find_value_after_label basic_ucd
      (lit "NEW BALANCE" ++ replicate 10 (chr " ") ++ lit "$123.45")
      b4_balance_label dollar_amount 30 = Ok (Some (lit "123.45")).
Proof.
  destruct (C3_label_window_search basic_ucd basic_ucd_ok) as [_ Hdecoy].
  split.
  - apply (Hdecoy (replicate 34 (chr " ")) (lit "123") (lit ".45") 30).
    + by vm_compute; repeat constructor.
    + by vm_compute; repeat constructor.
    + done.
    + apply (two_decimals (chr "4") (chr "5")); by vm_compute; repeat constructor.
    + simpl. lia.
  - apply (Hdecoy (replicate 10 (chr " ")) (lit "123") (lit ".45") 30).
    + by vm_compute; repeat constructor.
    + by vm_compute; repeat constructor.
    + done.
    + apply (two_decimals (chr "4") (chr "5")); by vm_compute; repeat constructor.
    + simpl. lia.
Defined.

(** * Further properties of the package *)

(** ** Where the field values come from *)

(** [g in text], for strings: [g] is a contiguous part of [text]. *)
Definition substring (g text : list N) : Prop := ∃ a b, text = a ++ g ++ b.

Lemma substring_refl (s : list N) : substring s s.
Proof. exists [], []. by rewrite app_nil_r. Qed.

Lemma substring_trans (a b c : list N) :
  substring a b → substring b c → substring a c.
Proof.
  intros (x & y & ->) (x' & y' & ->). exists (x' ++ x), (y ++ y').
  by rewrite <- !app_assoc.
Qed.

Lemma substring_take (s : list N) n : substring (take n s) s.
Proof. exists [], (drop n s). simpl. by rewrite take_drop. Qed.

Lemma substring_drop (s : list N) n : substring (drop n s) s.
Proof. exists (take n s), []. by rewrite app_nil_r, take_drop. Qed.

Lemma substring_slice (s : list N) a b : substring (slice s a b) s.
Proof.
  unfold slice. eapply substring_trans; [apply substring_take | apply substring_drop].
Qed.

Lemma substring_lstrip isspace (s : list N) : substring (lstrip isspace s) s.
Proof.
  induction s as [|c s IH]; simpl; [apply substring_refl|].
  destruct (isspace c); [|apply substring_refl].
  eapply substring_trans; [exact IH|]. exists [c], []. simpl. by rewrite app_nil_r.
Qed.

Lemma substring_reverse (a b : list N) :
  substring a b → substring (reverse a) (reverse b).
Proof.
  intros (x & y & ->). exists (reverse y), (reverse x).
  by rewrite !reverse_app, <- app_assoc.
Qed.

Lemma substring_strip isspace (s : list N) : substring (strip isspace s) s.
Proof.
  unfold strip, rstrip.
  eapply substring_trans; [|apply (substring_lstrip isspace)].
  rewrite <- (reverse_involutive (lstrip isspace s)) at 2.
  apply substring_reverse, substring_lstrip.
Qed.

Lemma substring_length (a b : list N) : substring a b → length a ≤ length b.
Proof. intros (x & y & ->). rewrite !length_app. lia. Qed.

Lemma substring_sublist (a b : list N) : substring a b → a `sublist_of` b.
Proof.
  intros (x & y & ->). apply sublist_inserts_l, sublist_inserts_r. done.
Qed.

Section Groups.
Variable U : UCD.

Lemma re_search_string fl r text m :
  re_search U fl r text = Some m → m_string m = text.
Proof.
  unfold re_search. destruct (search_from _ _ _ _ _ _ _); [|done].
  by intros [= <-].
Qed.

(** The text of a group is a part of the subject. *)
Lemma group_substring fl r text m n g :
  re_search U fl r text = Some m → group m n = Some g → substring g text.
Proof.
  intros Hm%re_search_string. unfold group. rewrite Hm. destruct n as [|n].
  - intros [= <-]. apply substring_slice.
  - destruct (cap_lookup _ _) as [[a b]|]; [|done]. intros [= <-].
    apply substring_slice.
Qed.

(** What the label-window search returns is a part of the text. *)
Lemma find_value_substring text label value window g :
  _find_value_after_label U text label value window = Ok (Some g) →
  substring g text.
Proof.
  unfold _find_value_after_label.
  destruct (re_search U IC label text) as [m|]; [|done]. cbv zeta.
  destruct (re_search U IC value _) as [mv|] eqn:Hmv; [|done].
  destruct (group mv 1) as [g'|] eqn:Hg; [|done]. simpl. intros [= <-].
  eapply substring_trans; [apply substring_strip|].
  eapply substring_trans; [by eapply group_substring|]. apply substring_slice.
Qed.

End Groups.

(** The origin of the value of a field: nothing was found; an amount
    cleaned from a part of the text; the last four digits of a part of
    the text; a date, as a part of the text. *)
Inductive provenance (U : UCD) (text : list N) : string → option (list N) → Prop :=
| from_nothing k : provenance U text k None
| from_amount k g :
    k = "total_balance" ∨ k = "minimum_payment" → substring g text →
    provenance U text k (Some (_clean_amount U g))
| from_number g :
    substring g text → provenance U text "last4" (_last4_from_number_block U g)
| from_date k g :
    k = "payment_due_date" ∨ k = "statement_closing_date" → substring g text →
    provenance U text k (Some g).

(** A computation that, when it returns, returns a value satisfying [P]. *)
Definition ensures {A} (step : res A) (P : A → Prop) : Prop :=
  ∀ a, step = Ok a → P a.

Lemma ensures_bind {A B} (step : res A) (f : A → res B) (Q : A → Prop) (P : B → Prop) :
  ensures step Q → (∀ a, Q a → ensures (f a) P) → ensures (step ≫= f) P.
Proof.
  intros Hstep Hf b. destruct step as [a|e]; [|done]. simpl.
  apply Hf, Hstep. done.
Qed.

Lemma ensures_ret {A} (a : A) (P : A → Prop) : P a → ensures (mret a) P.
Proof. by intros Ha ? [= <-]. Qed.

Section Provenance.
Variable U : UCD.
Variable text : list N.

(** Every field of the record has an origin in [text]. *)
Definition holds (out : gmap string (option (list N))) : Prop :=
  ∀ k v, out !! k = Some v → provenance U text k v.

Lemma holds_fields_none : holds fields_none.
Proof.
  intros k v Hk.
  assert (v = None) as ->; [|constructor].
  unfold fields_none in Hk. apply elem_of_list_to_map_2 in Hk.
  apply list_elem_of_fmap in Hk as (k' & [= _ ->] & _). done.
Qed.

Lemma holds_insert k v (out : gmap string (option (list N))) :
  provenance U text k v → holds out → holds (<[k:=v]> out).
Proof.
  intros Hv Hout k' v'. rewrite lookup_insert_Some.
  intros [[<- <-]|[_ Hk']]; [done | by apply Hout].
Qed.

(** [if m: out[k] = m.group(n)], for a date *)
Lemma holds_search_store fl r n k (out : gmap string (option (list N))) :
  k = "payment_due_date" ∨ k = "statement_closing_date" → holds out →
  holds (match re_search U fl r text with
         | Some m => <[k := group m n]> out
         | None => out
         end).
Proof.
  intros Hk Hout. destruct (re_search U fl r text) as [m|] eqn:Hm; [|done].
  apply holds_insert; [|done]. destruct (group m n) as [g|] eqn:Hg; [|constructor].
  apply from_date; [done|]. by eapply group_substring.
Qed.

(** [if v: out[k] = _clean_amount(v)] *)
Lemma holds_store_amount (v : option (list N)) k (out : gmap string (option (list N))) :
  k = "total_balance" ∨ k = "minimum_payment" →
  (∀ g, v = Some g → substring g text) → holds out →
  holds (match v with
         | Some (c :: v') => <[k := Some (_clean_amount U (c :: v'))]> out
         | _ => out
         end).
Proof.
  intros Hk Hv Hout. destruct v as [[|c v']|]; try done.
  apply holds_insert; [|done]. apply from_amount; auto.
Qed.

(** [if v: out[k] = v], for a date *)
Lemma holds_store_date (v : option (list N)) k (out : gmap string (option (list N))) :
  k = "payment_due_date" ∨ k = "statement_closing_date" →
  (∀ g, v = Some g → substring g text) → holds out →
  holds (match v with
         | Some (c :: v') => <[k := Some (c :: v')]> out
         | _ => out
         end).
Proof.
  intros Hk Hv Hout. destruct v as [[|c v']|]; try done.
  apply holds_insert; [|done]. apply from_date; auto.
Qed.

(** [if m: out[k] = f(m.group(n))] for a match object on [text] *)
Lemma ensures_use_group (m : option pymatch) n k (f : list N → option (list N))
    (out : gmap string (option (list N))) :
  (∀ m' g, m = Some m' → group m' n = Some g → substring g text) →
  (∀ g, substring g text → provenance U text k (f g)) → holds out →
  ensures (match m with
           | Some m => g ← as_str (group m n); mret (<[k := f g]> out)
           | None => mret out
           end) holds.
Proof.
  intros Hm Hf Hout. destruct m as [m|]; [|by apply ensures_ret].
  destruct (group m n) as [g|] eqn:Hg; [|done]. simpl.
  apply ensures_ret, holds_insert; [|done]. eauto.
Qed.

Lemma ensures_search fl r n k (f : list N → option (list N))
    (out : gmap string (option (list N))) :
  (∀ g, substring g text → provenance U text k (f g)) → holds out →
  ensures (match re_search U fl r text with
           | Some m => g ← as_str (group m n); mret (<[k := f g]> out)
           | None => mret out
           end) holds.
Proof.
  intros Hf Hout. apply ensures_use_group; [|done..].
  intros m g Hm Hg. by eapply group_substring.
Qed.

Lemma ensures_find_value label value window :
  ensures (_find_value_after_label U text label value window)
    (λ v, ∀ g, v = Some g → substring g text).
Proof. intros v Hv g ->. by eapply find_value_substring. Qed.

Lemma findall1_substring fl r g :
  g ∈ re_findall1 U fl r text → substring g text.
Proof.
  unfold re_findall1, re_finditer.
  intros (m & -> & (hit & -> & _)%list_elem_of_fmap)%list_elem_of_fmap.
  unfold group, mk_match. simpl. destruct (cap_lookup _ _) as [[a b]|]; simpl.
  - apply substring_slice.
  - by exists [], text.
Qed.

Lemma amount_origin k g :
  k = "total_balance" ∨ k = "minimum_payment" → substring g text →
  provenance U text k (Some (_clean_amount U g)).
Proof. apply from_amount. Qed.

Lemma stripped_date_origin k g :
  k = "payment_due_date" ∨ k = "statement_closing_date" → substring g text →
  provenance U text k (Some (strip (uni_isspace U) g)).
Proof.
  intros Hk Hg. apply from_date; [done|].
  eapply substring_trans; [apply substring_strip | done].
Qed.

Ltac origin :=
  repeat match goal with
    | |- holds _ =>
      first [ assumption
            | apply holds_fields_none
            | apply holds_search_store; [tauto|]
            | apply holds_store_amount; [tauto|assumption|]
            | apply holds_store_date; [tauto|assumption|]
            | apply holds_insert ]
    | |- ensures _ _ =>
      first [ apply ensures_ret
            | apply ensures_search;
                [intros ? ?; first [ by apply amount_origin; [tauto|]
                                   | by apply stripped_date_origin; [tauto|]
                                   | by apply from_number ]|] ]
    end.

Lemma parse_bank_1_origin : ensures (parse_bank_1 U text) holds.
Proof.
  unfold parse_bank_1. cbv zeta.
  repeat (apply (ensures_bind _ _ holds); [|intros ? ?]); origin.
  destruct (last _) as [v|] eqn:Hlast; origin.
  apply amount_origin; [tauto|]. eapply findall1_substring. by eapply last_Some_elem_of.
Qed.

Lemma parse_bank_2_origin : ensures (parse_bank_2 U text) holds.
Proof.
  unfold parse_bank_2. cbv zeta.
  repeat (apply (ensures_bind _ _ holds); [|intros ? ?]); origin.
  apply ensures_use_group; [| |done].
  - intros m g. destruct (re_search U IC b2_primary text) eqn:E; intros Hm Hg.
    + rewrite <- E in Hm. by eapply group_substring.
    + by eapply group_substring.
  - intros g Hg. by apply from_number.
Qed.

Lemma parse_bank_3_origin : ensures (parse_bank_3 U text) holds.
Proof.
  unfold parse_bank_3.
  eapply ensures_bind; [apply ensures_find_value|]. intros v Hv. cbv beta zeta.
  match goal with
  | |- context [let '(out, m) := ?p in _] =>
    assert (holds p.1
            ∧ ∀ m' g, p.2 = Some m' → group m' 1 = Some g → substring g text)
      as Hp; [|destruct p as [out0 m]; destruct Hp as [Hout0 Hm]]
  end.
  { destruct v as [[|c v']|]; cbn [fst snd]; split; origin;
      try (apply amount_origin; by auto); try done;
      intros m' g Hm' Hg; by eapply group_substring. }
  cbn [fst snd] in Hout0, Hm.
  apply (ensures_bind _ _ holds).
  - apply (ensures_use_group _ _ _ (λ g, Some (_clean_amount U g))); [done| |done].
    intros g Hg. apply amount_origin; auto.
  - intros out Hout. cbv beta.
    eapply ensures_bind; [apply ensures_find_value|]. intros v2 Hv2. cbv beta zeta.
    apply (ensures_bind _ _ holds); [|intros ? ?]; origin.
Qed.

Lemma parse_bank_4_origin : ensures (parse_bank_4 U text) holds.
Proof.
  unfold parse_bank_4.
  eapply ensures_bind; [apply ensures_find_value|]. intros v Hv. cbv beta.
  eapply (ensures_bind _ _ (λ v, ∀ g, v = Some g → substring g text)).
  { destruct (truthy v); [by apply ensures_ret | apply ensures_find_value]. }
  intros v1 Hv1. cbv beta zeta.
  eapply ensures_bind; [apply ensures_find_value|]. intros v2 Hv2. cbv beta zeta.
  apply (ensures_bind _ _ holds); [|intros ? ?]; origin.
Qed.

Lemma parse_bank_5_origin : ensures (parse_bank_5 U text) holds.
Proof.
  unfold parse_bank_5.
  eapply ensures_bind; [apply ensures_find_value|]. intros v1 Hv1. cbv beta zeta.
  eapply ensures_bind; [apply ensures_find_value|]. intros v2 Hv2. cbv beta zeta.
  eapply ensures_bind; [apply ensures_find_value|]. intros v3 Hv3. cbv beta zeta.
  apply (ensures_bind _ _ holds); [|intros ? ?]; origin.
Qed.

End Provenance.

(** ** Substitution only deletes *)

Section Deleting.
Variable U : UCD.
Variable fl : flags.

(** The scan leaves off inside the text it was given. *)
Lemma search_from_rest r : ∀ rest adv i prev st s,
  search_from U fl r adv i prev rest = Some (st, s) →
  i ≤ st ∧ ∃ w, drop (st - i) rest = w ++ ms_rest s.
Proof.
  induction rest as [|c rest IH]; intros adv i prev st s; cbn [search_from];
    destruct (mtch U fl r _ _) as [f|] eqn:Hm; intros Hs; simplify_eq.
  - apply mtch_sound in Hm as (s' & Hmat & Hk). apply accept_Some in Hk as ->.
    apply matches_span in Hmat as (w & Hw & _). simpl in Hw.
    split; [done|]. exists w. by rewrite Nat.sub_diag.
  - apply mtch_sound in Hm as (s' & Hmat & Hk). apply accept_Some in Hk as ->.
    apply matches_span in Hmat as (w & Hw & _). simpl in Hw.
    split; [done|]. exists w. by rewrite Nat.sub_diag.
  - apply IH in Hs as (Hle & w & Hw). split; [lia|]. exists w.
    replace (st - i) with (S (st - S i)) by lia. done.
Qed.

Lemma sub_loop_sublist r : ∀ fuel adv i prev rest,
  sub_loop U fl r [] fuel adv i prev rest `sublist_of` rest.
Proof.
  induction fuel as [|fuel IH]; intros adv i prev rest; cbn [sub_loop]; [done|].
  destruct (search_from U fl r adv i prev rest) as [[st s]|] eqn:Hs; [|done].
  apply search_from_rest in Hs as (_ & w & Hw).
  rewrite <- (take_drop (st - i) rest) at 2. rewrite Hw. simpl.
  apply sublist_app; [done|]. apply sublist_inserts_l, IH.
Qed.

(** [re.sub] with an empty replacement: [text] with some characters
    left out. *)
Lemma re_sub_sublist r text : re_sub U fl r [] text `sublist_of` text.
Proof. apply sub_loop_sublist. Qed.

End Deleting.

Lemma hyphenate_no_minus_sign (s : list N) : chr "−" ∉ hyphenate s.
Proof.
  unfold hyphenate. intros (c & Hc & _)%list_elem_of_fmap. cbv beta in Hc.
  destruct (N.eqb_spec c (chr "−")) as [Heq|Hne]; [by vm_compute in Hc | congruence].
Qed.

Lemma clean_amount_sublist (U : UCD) (s : list N) :
  _clean_amount U s `sublist_of` hyphenate s
  ∧ length (_clean_amount U s) ≤ length s
  ∧ chr "−" ∉ _clean_amount U s.
Proof.
  assert (_clean_amount U s `sublist_of` hyphenate s) as Hsub.
  { unfold _clean_amount. cbv zeta.
    etrans; [apply re_sub_sublist|]. etrans; [apply re_sub_sublist|].
    change (lit "-") with [chr "-"]. rewrite replace1_map.
    apply fmap_sublist, substring_sublist, substring_strip. }
  split_and!; [done| |].
  - apply sublist_length in Hsub. unfold hyphenate in Hsub.
    by rewrite length_fmap in Hsub.
  - intros Hin. apply (hyphenate_no_minus_sign s).
    by eapply elem_of_sublist.
Qed.

(** X1. Whatever its input, [_clean_amount] never adds or reorders
    characters: its result is the input with every unicode minus written
    as an ASCII hyphen and some characters left out. So the result is
    never longer than the input and never holds a unicode minus. *)
Theorem clean_amount_only_deletes (U : UCD) (s : list N) :
  _clean_amount U s `sublist_of` hyphenate s
  ∧ length (_clean_amount U s) ≤ length s
  ∧ chr "−" ∉ _clean_amount U s.
Proof. apply clean_amount_sublist. Qed.

Lemma X1_witness :
  _clean_amount basic_ucd (lit " r −1,234.56 CR") `sublist_of` lit " r -1,234.56 CR"
  ∧ length (_clean_amount basic_ucd (lit " r −1,234.56 CR")) ≤ 15.
Proof.
  destruct (clean_amount_only_deletes basic_ucd (lit " r −1,234.56 CR"))
    as (Hsub & Hlen & _).
  split; [exact Hsub | exact Hlen].
Defined.

(** ** The last four digits, once more *)

Lemma digits_of_digits (U : UCD) (l : list N) :
  Forall (λ c, uni_isdecimal U c = true) l → digits_of U l = l.
Proof.
  unfold digits_of. induction 1 as [|c l Hc _ IH]; [done|].
  rewrite filter_cons_True by done. by f_equal.
Qed.

Lemma last4_shape (U : UCD) (s v : list N) :
  _last4_from_number_block U s = Some v →
  length v = 4
  ∧ Forall (λ c, uni_isdecimal U c = true) v
  ∧ v `sublist_of` s
  ∧ _last4_from_number_block U v = Some v.
Proof.
  rewrite last4_digits.
  destruct (Nat.leb_spec 4 (length (digits_of U s))) as [Hlen|]; [|done].
  intros [= <-].
  assert (Forall (λ c, uni_isdecimal U c = true)
            (drop (length (digits_of U s) - 4) (digits_of U s))) as Hdec.
  { apply Forall_drop. unfold digits_of. apply Forall_forall.
    by intros c [? _]%list_elem_of_filter. }
  assert (length (drop (length (digits_of U s) - 4) (digits_of U s)) = 4) as Hl
    by (rewrite length_drop; lia).
  split_and!; [done|done| |].
  - etrans; [apply sublist_drop|]. unfold digits_of. apply sublist_filter.
  - rewrite last4_digits.
    assert (digits_of U (drop (length (digits_of U s) - 4) (digits_of U s))
            = drop (length (digits_of U s) - 4) (digits_of U s)) as ->.
    { by apply digits_of_digits. }
    by rewrite Hl.
Qed.

(** X2. When [_last4_from_number_block] returns a value, it is made of
    exactly four decimal digits, taken in order from the input, and the
    routine maps it to itself. *)
Theorem last4_is_four_digits (U : UCD) (s v : list N) :
  _last4_from_number_block U s = Some v →
  length v = 4
  ∧ Forall (λ c, uni_isdecimal U c = true) v
  ∧ v `sublist_of` s
  ∧ _last4_from_number_block U v = Some v.
Proof. apply last4_shape. Qed.

Lemma X2_witness :
  length (lit "8007") = 4
  ∧ Forall (λ c, uni_isdecimal basic_ucd c = true) (lit "8007")
  ∧ lit "8007" `sublist_of` lit "4375 XXXX XXXX 8007"
  ∧ _last4_from_number_block basic_ucd (lit "8007") = Some (lit "8007").
Proof.
  apply (last4_is_four_digits basic_ucd (lit "4375 XXXX XXXX 8007") (lit "8007")).
  by vm_compute.
Defined.

(** ** The fields of every routine come from the text *)

(** The five routines and the dispatcher. *)
Definition routines (U : UCD) : list (list N → res (gmap string (option (list N)))) :=
  [parse_bank_1 U; parse_bank_2 U; parse_bank_3 U; parse_bank_4 U; parse_bank_5 U;
   identify_and_parse U].

Lemma identify_and_parse_origin (U : UCD) (text : list N) :
  ensures (identify_and_parse U text)
    (λ rec, ∀ k v, k ≠ "bank" → rec !! k = Some v → provenance U text k v).
Proof.
  unfold identify_and_parse. cbv zeta.
  apply (ensures_bind _ _ (holds U text)).
  - repeat case_bool_decide;
      first [ apply parse_bank_1_origin | apply parse_bank_2_origin
            | apply parse_bank_3_origin | apply parse_bank_4_origin
            | apply parse_bank_5_origin
            | apply ensures_ret, holds_fields_none ].
  - intros data Hdata. apply ensures_ret. intros k v Hk Hv.
    apply lookup_union_Some_raw in Hv as [Hv|[_ Hv]]; [by apply Hdata|].
    by rewrite lookup_singleton_ne in Hv.
Qed.

Lemma routine_origin (U : UCD) (text : list N) parse rec k v :
  parse ∈ routines U → parse text = Ok rec → k ≠ "bank" →
  rec !! k = Some v → provenance U text k v.
Proof.
  unfold routines. rewrite !elem_of_cons, elem_of_nil.
  intros [->|[->|[->|[->|[->|[->|[]]]]]]] Hrec Hk Hv.
  - by apply (parse_bank_1_origin U text rec Hrec).
  - by apply (parse_bank_2_origin U text rec Hrec).
  - by apply (parse_bank_3_origin U text rec Hrec).
  - by apply (parse_bank_4_origin U text rec Hrec).
  - by apply (parse_bank_5_origin U text rec Hrec).
  - by apply (identify_and_parse_origin U text rec Hrec).
Qed.

(** X3. Dates are returned as they stand in the statement: in the record
    of each of the five routines and of the dispatcher, a due date or a
    closing date that is present is a contiguous part of the text. *)
Theorem dates_are_parts_of_the_text (U : UCD) (text : list N) parse rec k v :
  parse ∈ routines U → parse text = Ok rec →
  k = "payment_due_date" ∨ k = "statement_closing_date" →
  rec !! k = Some (Some v) →
  substring v text.
Proof.
  intros Hparse Hrec Hk Hv.
  assert (k ≠ "bank") as Hne by (by destruct Hk as [-> | ->]).
  pose proof (routine_origin U text parse rec k _ Hparse Hrec Hne Hv) as Ho.
  inversion Ho as [|k' g Hk' Hg|g Hg|k' g Hk' Hg]; subst;
    [by destruct Hk as [-> | ->], Hk' as [? | ?] | by destruct Hk | done].
Qed.

Lemma X3_witness :
  substring (lit "01/31/2024")
    (lit "Opening/Closing Date 01/02/2024 - 01/31/2024 New Balance $12.50").
Proof.
  destruct (parse_bank_1_keys basic_ucd
              (lit "Opening/Closing Date 01/02/2024 - 01/31/2024 New Balance $12.50"))
    as (rec & Hrec & _).
  apply (dates_are_parts_of_the_text basic_ucd _ (parse_bank_1 basic_ucd) rec
           "statement_closing_date").
  - unfold routines. apply elem_of_cons. by left.
  - exact Hrec.
  - by right.
  - assert (match parse_bank_1 basic_ucd
                    (lit "Opening/Closing Date 01/02/2024 - 01/31/2024 New Balance $12.50")
            with Ok r => r !! "statement_closing_date" | Raise _ => None end
            = Some (Some (lit "01/31/2024"))) as H by (vm_compute; reflexivity).
    by rewrite Hrec in H.
Defined.

(** X4. The last four digits of every record are four digits: in the
    record of each of the five routines and of the dispatcher, a [last4]
    that is present consists of exactly four decimal digits that occur
    in this order in the text. *)
Theorem last4_field_is_four_digits (U : UCD) (text : list N) parse rec v :
  parse ∈ routines U → parse text = Ok rec →
  rec !! "last4" = Some (Some v) →
  length v = 4 ∧ Forall (λ c, uni_isdecimal U c = true) v ∧ v `sublist_of` text.
Proof.
  intros Hparse Hrec Hv.
  pose proof (routine_origin U text parse rec "last4" _ Hparse Hrec
                ltac:(done) Hv) as Ho.
  inversion Ho as [|k' g Hk' Hg|g Hg|k' g Hk' Hg]; subst;
    try (by destruct Hk').
  match goal with
  | H : _last4_from_number_block U g = Some v |- _ =>
    destruct (last4_shape U g v H) as (H1 & H2 & H3 & _)
  end.
  split_and!; [done|done|]. etrans; [done|]. by apply substring_sublist.
Qed.

Lemma X4_witness :
  length (lit "8007") = 4
  ∧ Forall (λ c, uni_isdecimal basic_ucd c = true) (lit "8007")
  ∧ lit "8007" `sublist_of` lit "ICICI Bank Card Number : 4375 XXXX XXXX 8007".
Proof.
  destruct (identify_and_parse_keys basic_ucd
              (lit "ICICI Bank Card Number : 4375 XXXX XXXX 8007"))
    as (data & bank & Hrec & _).
  apply (last4_field_is_four_digits basic_ucd _ (identify_and_parse basic_ucd)
           (data ∪ {["bank" := Some bank]})).
  - unfold routines. do 5 (apply elem_of_cons; right). apply elem_of_cons. by left.
  - exact Hrec.
  - assert (match identify_and_parse basic_ucd
                    (lit "ICICI Bank Card Number : 4375 XXXX XXXX 8007")
            with Ok r => r !! "last4" | Raise _ => None end
            = Some (Some (lit "8007"))) as H by (vm_compute; reflexivity).
    by rewrite Hrec in H.
Defined.

(** X5. Amounts are made of characters of the statement: in the record
    of each of the five routines and of the dispatcher, a balance or a
    minimum payment that is present is the text, with the unicode minus
    written as a hyphen, from which characters were left out; it holds
    no unicode minus. *)
Theorem amounts_come_from_the_text (U : UCD) (text : list N) parse rec k v :
  parse ∈ routines U → parse text = Ok rec →
  k = "total_balance" ∨ k = "minimum_payment" →
  rec !! k = Some (Some v) →
  v `sublist_of` hyphenate text ∧ chr "−" ∉ v.
Proof.
  intros Hparse Hrec Hk Hv.
  assert (k ≠ "bank") as Hne by (by destruct Hk as [-> | ->]).
  pose proof (routine_origin U text parse rec k _ Hparse Hrec Hne Hv) as Ho.
  inversion Ho as [|k' g Hk' Hg|g Hg|k' g Hk' Hg]; subst;
    [|by destruct Hk | by destruct Hk as [-> | ->], Hk' as [? | ?]].
  destruct (clean_amount_sublist U g) as (Hsub & _ & Hminus).
  split; [|done]. etrans; [done|].
  by apply fmap_sublist, substring_sublist.
Qed.

Lemma X5_witness :
  lit "1,234.56" `sublist_of` hyphenate (lit "NEW BALANCE  $1,234.56 CR")
  ∧ chr "−" ∉ lit "1,234.56".
Proof.
  destruct (parse_bank_4_keys basic_ucd (lit "NEW BALANCE  $1,234.56 CR"))
    as (rec & Hrec & _).
  apply (amounts_come_from_the_text basic_ucd _ (parse_bank_4 basic_ucd) rec
           "total_balance").
  - unfold routines. do 3 (apply elem_of_cons; right). apply elem_of_cons. by left.
  - exact Hrec.
  - by left.
  - assert (match parse_bank_4 basic_ucd (lit "NEW BALANCE  $1,234.56 CR")
            with Ok r => r !! "total_balance" | Raise _ => None end
            = Some (Some (lit "1,234.56"))) as H by (vm_compute; reflexivity).
    by rewrite Hrec in H.
Defined.

(** ** Fields a routine leaves alone *)

(** X6. The routine of bank 2 never reports a payment due date or a
    minimum payment: whatever the text, it returns a record in which
    both are absent. *)
Theorem bank_2_has_no_payment_fields (U : UCD) (text : list N) :
  ∃ rec, parse_bank_2 U text = Ok rec
         ∧ rec !! "payment_due_date" = Some None
         ∧ rec !! "minimum_payment" = Some None.
Proof.
  destruct (parse_bank_2_keys U text) as (rec & Hrec & _).
  exists rec. split; [done|]. revert Hrec.
  unfold parse_bank_2. cbv zeta.
  repeat match goal with
         | |- context [re_search U ?fl ?r text] =>
           destruct (re_search U fl r text) as [?m|]
         end;
    repeat match goal with
           | |- context [as_str (group ?m ?n)] => destruct (group m n)
           end;
    intros Heq; cbn [mbind mret res_bind res_ret as_str] in Heq;
    first [discriminate Heq | injection Heq as <-];
    by rewrite ?lookup_insert_ne.
Qed.

(** ** The dispatcher *)

Lemma detect_bank_range (U : UCD) (text : list N) :
  detect_bank U text ∈ [Some (lit "bank1"); Some (lit "bank2"); Some (lit "bank3");
                        Some (lit "bank4"); Some (lit "bank5"); None].
Proof.
  unfold detect_bank. cbv zeta.
  repeat match goal with
         | |- context [if ?b then _ else _] => destruct b
         end;
    rewrite !elem_of_cons; tauto.
Qed.

Lemma attach_bank (data : gmap string (option (list N))) (bank : list N) :
  dom data = field_keys →
  data !! "bank" = None ∧ data ∪ {["bank" := Some bank]} = <["bank" := Some bank]> data.
Proof.
  intros Hdom.
  assert (data !! "bank" = None) as Hnone.
  { apply not_elem_of_dom. rewrite Hdom. unfold field_keys. by vm_compute. }
  split; [done|]. by rewrite insert_union_singleton_r.
Qed.

Lemma dispatcher_outcome (U : UCD) (text : list N) :
  ∃ bank data,
    identify_and_parse U text = Ok (<["bank" := Some bank]> data)
    ∧ data !! "bank" = None
    ∧ dom (<["bank" := Some bank]> data) = (list_to_set essential_keys : gset string)
    ∧ ((detect_bank U text = Some (lit "bank1") ∧ bank = lit "bank1"
        ∧ parse_bank_1 U text = Ok data)
       ∨ (detect_bank U text = Some (lit "bank2") ∧ bank = lit "bank2"
          ∧ parse_bank_2 U text = Ok data)
       ∨ (detect_bank U text = Some (lit "bank3") ∧ bank = lit "bank3"
          ∧ parse_bank_3 U text = Ok data)
       ∨ (detect_bank U text = Some (lit "bank4") ∧ bank = lit "bank4"
          ∧ parse_bank_4 U text = Ok data)
       ∨ (detect_bank U text = Some (lit "bank5") ∧ bank = lit "bank5"
          ∧ parse_bank_5 U text = Ok data)
       ∨ (detect_bank U text = None ∧ bank = lit "unknown" ∧ data = fields_none)).
Proof.
  assert (∀ (bank : list N) (data : gmap string (option (list N))),
            dom data = field_keys →
            dom (<["bank" := Some bank]> data)
            = (list_to_set essential_keys : gset string)) as Hdom.
  { intros bank data Hd. rewrite dom_insert_L, Hd. done. }
  pose proof (detect_bank_range U text) as Hrange.
  rewrite !elem_of_cons, elem_of_nil in Hrange.
  unfold identify_and_parse.
  set (bank := match detect_bank U text with Some (c :: b) => c :: b | _ => _ end).
  assert (bank = default (lit "unknown") (detect_bank U text)) as Hbank.
  { unfold bank. by destruct Hrange as [H|[H|[H|[H|[H|[H|[]]]]]]]; rewrite H. }
  clearbody bank. subst bank.
  destruct Hrange as [H|[H|[H|[H|[H|[H|[]]]]]]]; rewrite H; cbv zeta;
    cbn [default from_option];
    repeat (rewrite bool_decide_eq_false_2; [|by vm_compute]);
    try (rewrite bool_decide_eq_true_2; [|by vm_compute]).
  - destruct (parse_bank_1_keys U text) as (data & Hdata & Hd).
    destruct (attach_bank data (lit "bank1") Hd) as [Hnone Hins].
    exists (lit "bank1"), data. rewrite Hdata. simpl. rewrite Hins.
    split_and!; [done|done|by apply Hdom|]. by left.
  - destruct (parse_bank_2_keys U text) as (data & Hdata & Hd).
    destruct (attach_bank data (lit "bank2") Hd) as [Hnone Hins].
    exists (lit "bank2"), data. rewrite Hdata. simpl. rewrite Hins.
    split_and!; [done|done|by apply Hdom|]. right. by left.
  - destruct (parse_bank_3_keys U text) as (data & Hdata & Hd).
    destruct (attach_bank data (lit "bank3") Hd) as [Hnone Hins].
    exists (lit "bank3"), data. rewrite Hdata. simpl. rewrite Hins.
    split_and!; [done|done|by apply Hdom|]. do 2 right. by left.
  - destruct (parse_bank_4_keys U text) as (data & Hdata & Hd).
    destruct (attach_bank data (lit "bank4") Hd) as [Hnone Hins].
    exists (lit "bank4"), data. rewrite Hdata. simpl. rewrite Hins.
    split_and!; [done|done|by apply Hdom|]. do 3 right. by left.
  - destruct (parse_bank_5_keys U text) as (data & Hdata & Hd).
    destruct (attach_bank data (lit "bank5") Hd) as [Hnone Hins].
    exists (lit "bank5"), data. rewrite Hdata. simpl. rewrite Hins.
    split_and!; [done|done|by apply Hdom|]. do 4 right. by left.
  - destruct (attach_bank fields_none (lit "unknown") dom_fields_none)
      as [Hnone Hins].
    exists (lit "unknown"), fields_none. simpl. rewrite Hins.
    split_and!; [done|done|by apply Hdom, dom_fields_none|]. by do 5 right.
Qed.

(** X7. The dispatcher returns, whatever the text: it runs the routine
    of the bank the classifier names, or none for an unknown bank, and
    adds the key "bank" to the record of that routine, keeping its five
    fields. The record of a routine has no "bank" key, so the bank id is
    the classifier's and is never overwritten. *)
Theorem dispatcher_runs_the_named_routine (U : UCD) (text : list N) :
  ∃ bank data,
    identify_and_parse U text = Ok (<["bank" := Some bank]> data)
    ∧ data !! "bank" = None
    ∧ dom (<["bank" := Some bank]> data) = (list_to_set essential_keys : gset string)
    ∧ ((detect_bank U text = Some (lit "bank1") ∧ bank = lit "bank1"
        ∧ parse_bank_1 U text = Ok data)
       ∨ (detect_bank U text = Some (lit "bank2") ∧ bank = lit "bank2"
          ∧ parse_bank_2 U text = Ok data)
       ∨ (detect_bank U text = Some (lit "bank3") ∧ bank = lit "bank3"
          ∧ parse_bank_3 U text = Ok data)
       ∨ (detect_bank U text = Some (lit "bank4") ∧ bank = lit "bank4"
          ∧ parse_bank_4 U text = Ok data)
       ∨ (detect_bank U text = Some (lit "bank5") ∧ bank = lit "bank5"
          ∧ parse_bank_5 U text = Ok data)
       ∨ (detect_bank U text = None ∧ bank = lit "unknown" ∧ data = fields_none)).
Proof. apply dispatcher_outcome. Qed.

(** ** Trimmed texts *)

Section Trimmed.
Variable isspace : N → bool.

Lemma lstrip_suffix (s : list N) : ∃ w, s = w ++ lstrip isspace s.
Proof.
  induction s as [|c s [w IH]]; simpl; [by exists []|].
  destruct (isspace c); [|by exists []]. exists (c :: w). simpl. by f_equal.
Qed.

Lemma lstrip_head (s : list N) : stops isspace (lstrip isspace s).
Proof.
  induction s as [|c s IH]; simpl; [done|].
  destruct (isspace c) eqn:Hc; [done|]. simpl. done.
Qed.

Lemma rstrip_prefix (s : list N) : ∃ w, s = rstrip isspace s ++ w.
Proof.
  unfold rstrip. destruct (lstrip_suffix (reverse s)) as [w Hw].
  exists (reverse w). rewrite <- reverse_app, <- Hw. by rewrite reverse_involutive.
Qed.

Lemma rstrip_last (s : list N) c :
  last (rstrip isspace s) = Some c → isspace c = false.
Proof.
  unfold rstrip. rewrite last_reverse. intros Hc.
  pose proof (lstrip_head (reverse s)) as Hstop.
  destruct (lstrip isspace (reverse s)); simplify_eq/=. done.
Qed.

(** A stripped text begins and ends with something else than
    whitespace. *)
Lemma strip_ends (s : list N) :
  stops isspace (strip isspace s)
  ∧ ∀ c, last (strip isspace s) = Some c → isspace c = false.
Proof.
  split; [|apply rstrip_last]. unfold strip.
  destruct (rstrip_prefix (lstrip isspace s)) as [w Hw].
  pose proof (lstrip_head s) as Hstop. rewrite Hw in Hstop.
  by destruct (rstrip isspace (lstrip isspace s)).
Qed.

Lemma strip_fixed (t : list N) :
  stops isspace t → (∀ c, last t = Some c → isspace c = false) →
  strip isspace t = t.
Proof.
  intros Hhead Hlast. unfold strip. rewrite lstrip_stops by done.
  destruct t as [|c t' _] using rev_ind; [done|].
  apply rstrip_stops, Hlast. by rewrite last_snoc.
Qed.

Lemma strip_idemp (s : list N) :
  strip isspace (strip isspace s) = strip isspace s.
Proof. destruct (strip_ends s). by apply strip_fixed. Qed.

Lemma strip_blank (s : list N) :
  Forall (λ c, isspace c = true) s → strip isspace s = [].
Proof.
  intros Hs. unfold strip.
  rewrite <- (app_nil_r s), lstrip_spaces by done. done.
Qed.

End Trimmed.

(** ** Text extraction, further *)

Section ExtractedText.
Variable U : UCD.
Variable L : Libs.

Lemma pymupdf_text_stripped pdf_path password t :
  _extract_with_pymupdf U L pdf_path password = Ok t →
  ∃ s, t = strip (uni_isspace U) s.
Proof.
  unfold _extract_with_pymupdf. destruct (fitz L) as [fitz_open|]; [|done].
  destruct (fitz_open pdf_path) as [doc|]; [|done]. simpl.
  destruct (if default false (fd_needs_pass doc) then _ else _); [|done]. simpl.
  destruct (collect (fd_pages doc)) as [pages|]; [|done]. simpl.
  intros [= <-]. by eexists.
Qed.

Lemma pdfplumber_text_stripped pdf_path password t :
  _extract_with_pdfplumber U L pdf_path password = Ok t →
  ∃ s, t = strip (uni_isspace U) s.
Proof.
  unfold _extract_with_pdfplumber. destruct (pdfplumber L) as [plumber_open|]; [|done].
  destruct (plumber_open pdf_path _) as [pdf|]; [|done]. simpl.
  destruct (collect _) as [pages|]; [|done]. simpl.
  intros [= <-]. by eexists.
Qed.

(** X8. A text returned by [extract_text] is never empty and is
    trimmed: it begins and ends with a character that is not
    whitespace, and stripping it again changes nothing. *)
Theorem extracted_text_is_trimmed (pdf_path password text : list N) :
  (extract_text U L pdf_path password).2 = Ok text →
  text ≠ []
  ∧ (∃ c, head text = Some c ∧ uni_isspace U c = false)
  ∧ (∃ c, last text = Some c ∧ uni_isspace U c = false)
  ∧ strip (uni_isspace U) text = text.
Proof.
  intros Hout.
  assert (text ≠ [] ∧ ∃ s, text = strip (uni_isspace U) s) as [Hne [s ->]].
  { revert Hout. unfold extract_text.
    destruct (_extract_with_pymupdf U L pdf_path password) as [[|c1 t1]|e1] eqn:H1;
      destruct (_extract_with_pdfplumber U L pdf_path password) as [[|c2 t2]|e2] eqn:H2;
      simpl; intros [= <-]; (split; [done|]);
      first [ by eapply pymupdf_text_stripped | by eapply pdfplumber_text_stripped ]. }
  destruct (strip_ends (uni_isspace U) s) as [Hhead Hlast].
  split_and!; [done| | |apply strip_idemp].
  - destruct (strip (uni_isspace U) s) as [|c t]; [done|]. by exists c.
  - destruct (last (strip (uni_isspace U) s)) as [c|] eqn:Hl.
    + exists c. auto.
    + by apply last_None in Hl.
Qed.

End ExtractedText.

(** A document of two pages, read by PyMuPDF. *)
Definition sample_libs : Libs :=
  {| fitz := Some (λ _, Ok {| fd_needs_pass := Some false;
                               fd_authenticate := λ _, true;
                               fd_pages := [Ok (lit "  ICICI Bank ");
                                            Ok (lit "Card Number : 4375 XXXX XXXX 8007 ")] |});
     pdfplumber := None |}.

Definition sample_text : list N :=
  lit "ICICI Bank " ++ [10; 10]%N ++ lit "Card Number : 4375 XXXX XXXX 8007".

Lemma X8_witness :
  sample_text ≠ []
  ∧ (∃ c, head sample_text = Some c ∧ uni_isspace basic_ucd c = false)
  ∧ (∃ c, last sample_text = Some c ∧ uni_isspace basic_ucd c = false)
  ∧ strip (uni_isspace basic_ucd) sample_text = sample_text.
Proof.
  apply (extracted_text_is_trimmed basic_ucd sample_libs (lit "a.pdf") []).
  by vm_compute.
Defined.

(** *** Documents without a text layer *)

Lemma collect_oks {A} (l : list A) : collect (Ok <$> l) = Ok l.
Proof.
  induction l as [|a l IH]; [done|].
  change (collect (Ok <$> a :: l)) with (l' ← collect (Ok <$> l); Ok (a :: l')).
  by rewrite IH.
Qed.

Lemma join_blank (isspace : N → bool) (sep : list N) (pages : list (list N)) :
  Forall (λ c, isspace c = true) sep →
  Forall (Forall (λ c, isspace c = true)) pages →
  Forall (λ c, isspace c = true) (join sep pages).
Proof.
  intros Hsep. induction 1 as [|p pages Hp Hpages IH]; [done|].
  destruct pages as [|p' pages]; [done|].
  change (join sep (p :: p' :: pages)) with (p ++ sep ++ join sep (p' :: pages)).
  by rewrite !Forall_app.
Qed.

(** X9. A document whose pages hold no text but whitespace, in
    PyMuPDF's reading and in pdfplumber's (where a page may also have no
    text at all), is refused: [extract_text] logs the warning about the
    empty text of PyMuPDF and raises the extraction failure. *)
Theorem blank_document_is_refused (U : UCD) (L : Libs) (pdf_path password : list N)
    (fitz_open : list N → res FitzDoc) (doc : FitzDoc) (pages1 : list (list N))
    (plumber_open : list N → option (list N) → res PlumberPdf) (pdf : PlumberPdf)
    (pages2 : list (option (list N))) :
  UCD_ok U →
  fitz L = Some fitz_open → fitz_open pdf_path = Ok doc →
  default false (fd_needs_pass doc) = false ∨ fd_authenticate doc password = true →
  fd_pages doc = Ok <$> pages1 →
  Forall (Forall (λ c, uni_isspace U c = true)) pages1 →
  pdfplumber L = Some plumber_open →
  plumber_open pdf_path (match password with [] => None | _ => Some password end)
    = Ok pdf →
  pp_pages pdf = Ok <$> pages2 →
  Forall (λ t, Forall (λ c, uni_isspace U c = true) (default [] t)) pages2 →
  extract_text U L pdf_path password
  = ([LogWarning "PyMuPDF returned empty text; attempting pdfplumber fallback..."],
     Raise extraction_failed).
Proof.
  intros HU Hfitz Hopen Hpass Hpages1 Hblank1 Hplumber Hopen2 Hpages2 Hblank2.
  assert (Forall (λ c, uni_isspace U c = true) [10; 10]%N) as Hsep.
  { repeat constructor; by rewrite (ok_isspace U HU). }
  assert (_extract_with_pymupdf U L pdf_path password = Ok []) as H1.
  { unfold _extract_with_pymupdf. rewrite Hfitz, Hopen. simpl.
    assert ((if default false (fd_needs_pass doc)
             then if fd_authenticate doc password then mret ()
                  else Raise (new_exn PermissionError
                                "Incorrect password for encrypted PDF (PyMuPDF)")
             else mret ()) = Ok ()) as ->.
    { destruct Hpass as [-> | ->]; [done|]. by destruct (default false _). }
    simpl. rewrite Hpages1, collect_oks. simpl.
    by rewrite strip_blank by (by apply join_blank). }
  assert (_extract_with_pdfplumber U L pdf_path password = Ok []) as H2.
  { unfold _extract_with_pdfplumber. rewrite Hplumber, Hopen2. simpl.
    rewrite Hpages2, <- list_fmap_compose.
    change ((λ page : res (option (list N)), txt ← page; mret (default [] txt)) ∘ Ok)
      with (Ok ∘ default ([] : list N)).
    rewrite list_fmap_compose, collect_oks. simpl.
    rewrite strip_blank; [done|]. apply join_blank; [done|].
    by apply Forall_fmap. }
  unfold extract_text. by rewrite H1, H2.
Qed.

(** A scanned document: one page of whitespace for PyMuPDF, pages
    without text for pdfplumber. *)
Definition scanned_libs : Libs :=
  {| fitz := Some (λ _, Ok {| fd_needs_pass := None;
                               fd_authenticate := λ _, false;
                               fd_pages := [Ok (lit " "); Ok []] |});
     pdfplumber := Some (λ _ _, Ok {| pp_pages := [Ok None; Ok (Some (lit " "))] |}) |}.

Lemma X9_witness :
  extract_text basic_ucd scanned_libs (lit "scan.pdf") []
  = ([LogWarning "PyMuPDF returned empty text; attempting pdfplumber fallback..."],
     Raise extraction_failed).
Proof.
  apply (blank_document_is_refused basic_ucd scanned_libs (lit "scan.pdf") []
           (λ _, Ok {| fd_needs_pass := None; fd_authenticate := λ _, false;
                       fd_pages := [Ok (lit " "); Ok []] |})
           {| fd_needs_pass := None; fd_authenticate := λ _, false;
              fd_pages := [Ok (lit " "); Ok []] |}
           [lit " "; []]
           (λ _ _, Ok {| pp_pages := [Ok None; Ok (Some (lit " "))] |})
           {| pp_pages := [Ok None; Ok (Some (lit " "))] |}
           [None; Some (lit " ")]);
    try done; try (by left); try apply basic_ucd_ok;
    by vm_compute; repeat constructor.
Defined.

(** ** The orchestrator *)

Lemma extract_text_raises (U : UCD) (L : Libs) (pdf_path password : list N) e :
  (extract_text U L pdf_path password).2 = Raise e → e = extraction_failed.
Proof.
  unfold extract_text.
  destruct (_extract_with_pymupdf U L pdf_path password) as [[|c1 t1]|e1];
    destruct (_extract_with_pdfplumber U L pdf_path password) as [[|c2 t2]|e2];
    simpl; by intros [= <-].
Qed.

Lemma process_pdf_facts (U : UCD) (L : Libs) (pdf_path password : list N) :
  (process_pdf U L pdf_path password).1 = (extract_text U L pdf_path password).1
  ∧ (∀ e, (process_pdf U L pdf_path password).2 = Raise e
          ↔ (extract_text U L pdf_path password).2 = Raise e)
  ∧ (∀ e, (process_pdf U L pdf_path password).2 = Raise e → e = extraction_failed)
  ∧ (∀ text, (extract_text U L pdf_path password).2 = Ok text →
       ∃ rec, identify_and_parse U text = Ok rec
              ∧ rec !! "source_file" = None
              ∧ (process_pdf U L pdf_path password).2
                = Ok (<["source_file" := Some pdf_path]> rec)
              ∧ dom (<["source_file" := Some pdf_path]> rec)
                = (list_to_set ("source_file" :: essential_keys) : gset string)).
Proof.
  pose proof (extract_text_raises U L pdf_path password) as Hraise.
  unfold process_pdf.
  destruct (extract_text U L pdf_path password) as [log [text|e0]] eqn:Hx;
    cbn [fst snd] in *.
  - destruct (dispatcher_outcome U text)
      as (bank & data & Hrec & Hnone & Hdom & _).
    rewrite bind_Ok, Hrec, bind_Ok. split_and!; [done|done|done|].
    intros ? [= <-]. eexists. split_and!; [done| |done|].
    + apply not_elem_of_dom. rewrite Hdom. by vm_compute.
    + by rewrite dom_insert_L, Hdom, list_to_set_cons.
  - simpl. split_and!; [done|intros e; split; by intros [= <-]| |done].
    intros e [= <-]. by apply Hraise.
Qed.

(** X10. [process_pdf] fails exactly when text extraction fails, and
    then with the exception of [extract_text], which is the extraction
    failure; it logs what [extract_text] logs. When a text is extracted,
    the result is the record of the dispatcher for that text with the
    path added under "source_file", a key the dispatcher never uses: the
    keys of the result are the essential keys and "source_file". *)
Theorem process_pdf_outcome (U : UCD) (L : Libs) (pdf_path password : list N) :
  (process_pdf U L pdf_path password).1 = (extract_text U L pdf_path password).1
  ∧ (∀ e, (process_pdf U L pdf_path password).2 = Raise e
          ↔ (extract_text U L pdf_path password).2 = Raise e)
  ∧ (∀ e, (process_pdf U L pdf_path password).2 = Raise e → e = extraction_failed)
  ∧ (∀ text, (extract_text U L pdf_path password).2 = Ok text →
       ∃ rec, identify_and_parse U text = Ok rec
              ∧ rec !! "source_file" = None
              ∧ (process_pdf U L pdf_path password).2
                = Ok (<["source_file" := Some pdf_path]> rec)
              ∧ dom (<["source_file" := Some pdf_path]> rec)
                = (list_to_set ("source_file" :: essential_keys) : gset string)).
Proof. apply process_pdf_facts. Qed.

Lemma X10_witness :
  ∃ rec, identify_and_parse basic_ucd sample_text = Ok rec
         ∧ rec !! "source_file" = None
         ∧ (process_pdf basic_ucd sample_libs (lit "a.pdf") []).2
           = Ok (<["source_file" := Some (lit "a.pdf")]> rec)
         ∧ dom (<["source_file" := Some (lit "a.pdf")]> rec)
           = (list_to_set ("source_file" :: essential_keys) : gset string).
Proof.
  destruct (process_pdf_outcome basic_ucd sample_libs (lit "a.pdf") [])
    as (_ & _ & _ & Hok).
  apply (Hok sample_text). by vm_compute.
Defined.

(** ** A value across the end of the window *)

Section Cut.
Variable U : UCD.
Hypothesis HU : UCD_ok U.

Lemma parse_bank_4_total text rec c v :
  parse_bank_4 U text = Ok rec →
  _find_value_after_label U text b4_balance_label dollar_amount 30
  = Ok (Some (c :: v)) →
  rec !! "total_balance" = Some (Some (_clean_amount U (c :: v))).
Proof.
  unfold parse_bank_4. intros Hrec Hfind. rewrite Hfind in Hrec.
  rewrite bind_Ok in Hrec. cbn [truthy] in Hrec. rewrite bind_Ok in Hrec.
  cbv zeta in Hrec. revert Hrec.
  destruct (_find_value_after_label U text b4_min_label dollar_amount 40)
    as [[[|c' v']|]|e]; try done;
    rewrite bind_Ok;
    repeat match goal with
           | |- context [re_search U ?fl ?r text] =>
             destruct (re_search U fl r text) as [?m|]
           end;
    repeat match goal with
           | |- context [as_str (group ?m ?n)] => destruct (group m n)
           end;
    intros Heq; cbn [mbind mret res_bind res_ret as_str] in Heq;
    first [discriminate Heq | injection Heq as <-];
    rewrite ?lookup_insert_ne by done; by rewrite lookup_insert_eq.
Qed.

Lemma find_value_cut (filler grp rest : list N) (window : nat) :
  Forall (λ c, c ∈ blank_chars) filler →
  Forall (λ c, c ∈ group_chars) grp →
  length filler + 1 < window ≤ length filler + 1 + length grp →
  _find_value_after_label U (lit "NEW BALANCE" ++ filler ++ lit "$" ++ grp ++ rest)
    b4_balance_label dollar_amount window
  = Ok (Some (take (window - (length filler + 1)) grp)).
Proof.
  intros Hfill Hgrp Hw.
  set (k := window - (length filler + 1)).
  set (tail := filler ++ lit "$" ++ grp ++ rest).
  assert (stops (is_word U) tail) as Htail.
  { unfold tail. destruct filler as [|c filler].
    - simpl. by rewrite (is_word_basic U HU).
    - apply Forall_cons in Hfill as [Hc _]. simpl.
      by destruct (blank_char_value_facts U HU c Hc) as (? & _). }
  destruct (new_balance_hit U HU tail Htail) as (m & Hm & _ & Hend).
  assert (snippet_of (lit "NEW BALANCE" ++ tail) (m_end m) window
          = filler ++ lit "$" ++ take k grp ++ [] ++ []) as Hsnip.
  { unfold snippet_of. rewrite slice_window, Hend.
    change 11 with (length (lit "NEW BALANCE")).
    rewrite (drop_app_length (lit "NEW BALANCE") tail). unfold tail.
    rewrite take_app_ge by lia. f_equal.
    change (lit "$") with [chr "$"].
    replace (window - length filler) with (S k) by (unfold k; lia).
    simpl. f_equal. rewrite take_app_le by (unfold k; lia).
    by rewrite !app_nil_r. }
  assert (take k grp ≠ []) as Hne.
  { intros Hnil%(f_equal length). rewrite length_take in Hnil. unfold k in Hnil.
    simpl in Hnil. lia. }
  destruct (dollar_amount_found U HU filler (take k grp) [])
    as (f & Hf & Hcap); try done.
  { by apply Forall_take. }
  { by constructor. }
  unfold _find_value_after_label. rewrite Hm. cbv zeta.
  fold (snippet_of (lit "NEW BALANCE" ++ tail) (m_end m) window).
  rewrite Hsnip. unfold re_search.
  assert (filler ++ lit "$" ++ take k grp ++ [] ++ []
          = (filler ++ lit "$") ++ (take k grp ++ []) ++ []) as Etxt
    by (by rewrite <- !app_assoc).
  set (txt := filler ++ lit "$" ++ take k grp ++ [] ++ []) in *.
  rewrite Hf. simpl. rewrite Hcap. simpl. rewrite Etxt.
  rewrite slice_middle;
    [|rewrite length_app; change (length (lit "$")) with 1; lia|done].
  rewrite (strip_amount U HU); [by rewrite app_nil_r | by apply Forall_take | by constructor].
Qed.

End Cut.

(** X11. The window cuts a value that runs across its end. In a text
    that begins with "NEW BALANCE", whitespace, a dollar sign and digits
    and commas, when the window ends among these digits the search
    returns the digits up to the end of the window; with the window of
    30 characters of the bank-4 routine, [total_balance] is this cut
    value. *)
Theorem window_cuts_the_value (U : UCD) (filler grp rest : list N) :
  UCD_ok U →
  Forall (λ c, c ∈ blank_chars) filler →
  Forall (λ c, c ∈ group_chars) grp →
  (∀ window, length filler + 1 < window ≤ length filler + 1 + length grp →
     _find_value_after_label U (lit "NEW BALANCE" ++ filler ++ lit "$" ++ grp ++ rest)
       b4_balance_label dollar_amount window
     = Ok (Some (take (window - (length filler + 1)) grp)))
  ∧ (length filler + 1 < 30 ≤ length filler + 1 + length grp →
     ∃ rec,
       parse_bank_4 U (lit "NEW BALANCE" ++ filler ++ lit "$" ++ grp ++ rest) = Ok rec
       ∧ rec !! "total_balance" = Some (Some (take (29 - length filler) grp))).
Proof.
  intros HU Hfill Hgrp. split.
  - intros window Hw. by apply find_value_cut.
  - intros Hw.
    destruct (parse_bank_4_keys U (lit "NEW BALANCE" ++ filler ++ lit "$" ++ grp ++ rest))
      as (rec & Hrec & _).
    exists rec. split; [done|].
    pose proof (find_value_cut U HU filler grp rest 30 Hfill Hgrp Hw) as Hfind.
    replace (30 - (length filler + 1)) with (29 - length filler) in Hfind by lia.
    destruct (take (29 - length filler) grp) as [|c v] eqn:Hcut.
    { apply (f_equal length) in Hcut. rewrite length_take in Hcut. simpl in Hcut. lia. }
    rewrite (parse_bank_4_total U _ rec c v Hrec Hfind). do 2 f_equal.
    rewrite <- Hcut.
    pose proof (amount_is_clean U HU (take (29 - length filler) grp) [] []) as Hclean.
    rewrite app_nil_r in Hclean. apply Hclean.
    + by apply Forall_take.
    + by rewrite Hcut.
    + by constructor.
Qed.

Lemma X11_witness :
  ∃ rec,
    parse_bank_4 basic_ucd
      (lit "NEW BALANCE" ++ replicate 25 (chr " ") ++ lit "$" ++ lit "1,234" ++ lit ".56")
    = Ok rec
    ∧ rec !! "total_balance" = Some (Some (lit "1,23")).
Proof.
  destruct (window_cuts_the_value basic_ucd (replicate 25 (chr " ")) (lit "1,234")
              (lit ".56") basic_ucd_ok) as [_ Hrec].
  - by vm_compute; repeat constructor.
  - by vm_compute; repeat constructor.
  - apply Hrec. simpl. lia.
Defined.

(** * [main.py] *)

Module Main.

(** [str(e)], for an exception made from one message. *)
Definition str_of_exn (e : exn) : list N := lit (exc_msg e).

(** [a <= b] on Python strings: lexicographic, by code point. *)
Fixpoint str_leb (a b : list N) : bool :=
  match a, b with
  | [], _ => true
  | _ :: _, [] => false
  | x :: a', y :: b' => (x <? y)%N || ((x =? y)%N && str_leb a' b')
  end.

Definition key_le (k1 k2 : string) : Prop := str_leb (lit k1) (lit k2) = true.

#[export] Instance key_le_dec k1 k2 : Decision (key_le k1 k2).
Proof. unfold key_le. apply _. Defined.

(** [sorted(keys)], for a set of keys. *)
Definition sorted (keys : gset string) : list string :=
  merge_sort key_le (elements keys).

Section Driver.
Variable U : UCD.
Variable L : Libs.

(** The record appended for a document on which [process_pdf] raised. *)
Definition error_record (pdf_path : list N) (e : exn)
    : gmap string (option (list N)) :=
  list_to_map
    [("bank", None); ("total_balance", None); ("payment_due_date", None);
     ("minimum_payment", None); ("last4", None); ("statement_closing_date", None);
     ("source_file", Some pdf_path); ("error", Some (str_of_exn e))].

(** [collect_results(folder)], where [pdfs] is
    [sorted(folder.glob("*.pdf"))] as strings: the log records emitted
    and the list [results], a record being appended for each path. *)
Fixpoint collect_results (pdfs : list (list N))
    : list log_record * list (gmap string (option (list N))) :=
  match pdfs with
  | [] => ([], [])
  | pdf_path :: pdfs' =>
    let '(log, outcome) := process_pdf U L pdf_path [] in
    let data :=
      match outcome with
      | Ok data => data
      | Raise e => error_record pdf_path e
      end in
    let '(logs, results) := collect_results pdfs' in
    (log ++ logs, data :: results)
  end.

End Driver.

(** What [save_csv] writes: a text, or the header and the rows handed
    to the CSV writer. *)
Inductive csv_file :=
| CsvText (s : list N)
| CsvTable (header : list string) (rows : list (list (option (list N)))).

(** [DictWriter._dict_to_list], with the defaults: an empty [restval]
    and [extrasaction="raise"]: a key outside of the field names is refused
    (the library's message goes on with the names of these keys). *)
Definition dict_to_list (fieldnames : list string)
    (rowdict : gmap string (option (list N))) : res (list (option (list N))) :=
  if bool_decide (dom rowdict ⊆ list_to_set fieldnames)
  then Ok ((λ key, default (Some []) (rowdict !! key)) <$> fieldnames)
  else Raise (new_exn ValueError "dict contains fields not in fieldnames: ").

Definition save_csv (results : list (gmap string (option (list N)))) : res csv_file :=
  match results with
  | [] => Ok (CsvText [])
  | _ :: _ =>
    (* Use union of keys across rows for flexibility *)
    let fieldnames := sorted (⋃ (dom <$> results)) in
    rows ← collect (dict_to_list fieldnames <$> results);
    Ok (CsvTable fieldnames rows)
  end.

End Main.
Export Main.

(** ** The batch driver *)

(** The message of the extraction failure. *)
Definition failure_text : list N :=
  lit "Failed to extract text from PDF using both PyMuPDF and pdfplumber.".

Lemma error_record_lookups (pdf_path : list N) :
  error_record pdf_path extraction_failed !! "error" = Some (Some failure_text)
  ∧ error_record pdf_path extraction_failed !! "source_file" = Some (Some pdf_path)
  ∧ error_record pdf_path extraction_failed !! "bank" = Some None
  ∧ (∀ k, k ∈ FIELDS → error_record pdf_path extraction_failed !! k = Some None).
Proof.
  split_and!.
  - vm_compute. reflexivity.
  - vm_compute. reflexivity.
  - vm_compute. reflexivity.
  - intros k Hk. apply field_elem in Hk as [->|[->|[->|[->| ->]]]];
      vm_compute; reflexivity.
Qed.

Lemma error_record_dom (pdf_path : list N) (e : exn) :
  dom (error_record pdf_path e)
  = (list_to_set ("error" :: "source_file" :: essential_keys) : gset string).
Proof.
  unfold error_record. rewrite dom_list_to_map_L.
  cbn [fmap list_fmap fst list_to_set essential_keys FIELDS].
  apply set_eq. intros k. rewrite !elem_of_union, !elem_of_singleton. tauto.
Qed.

(** The record of a document that was read, and of one that was not. *)
Definition read_record (U : UCD) (L : Libs) (pdf_path : list N)
    (rec : gmap string (option (list N))) : Prop :=
  ∃ text r,
    (extract_text U L pdf_path []).2 = Ok text
    ∧ identify_and_parse U text = Ok r
    ∧ rec = <["source_file" := Some pdf_path]> r
    ∧ rec !! "error" = None
    ∧ dom rec = (list_to_set ("source_file" :: essential_keys) : gset string).

Definition failed_record (U : UCD) (L : Libs) (pdf_path : list N)
    (rec : gmap string (option (list N))) : Prop :=
  (extract_text U L pdf_path []).2 = Raise extraction_failed
  ∧ rec !! "error" = Some (Some failure_text)
  ∧ rec !! "source_file" = Some (Some pdf_path)
  ∧ rec !! "bank" = Some None
  ∧ (∀ k, k ∈ FIELDS → rec !! k = Some None)
  ∧ dom rec = (list_to_set ("error" :: "source_file" :: essential_keys) : gset string).

Lemma collect_results_cons (U : UCD) (L : Libs) pdf_path pdfs :
  collect_results U L (pdf_path :: pdfs)
  = ((process_pdf U L pdf_path []).1 ++ (collect_results U L pdfs).1,
     match (process_pdf U L pdf_path []).2 with
     | Ok data => data
     | Raise e => error_record pdf_path e
     end :: (collect_results U L pdfs).2).
Proof.
  cbn [collect_results].
  destruct (process_pdf U L pdf_path []) as [log outcome].
  by destruct (collect_results U L pdfs) as [logs results].
Qed.

Lemma record_of_document (U : UCD) (L : Libs) (pdf_path : list N) :
  let rec := match (process_pdf U L pdf_path []).2 with
             | Ok data => data
             | Raise e => error_record pdf_path e
             end in
  read_record U L pdf_path rec ∨ failed_record U L pdf_path rec.
Proof.
  cbv zeta.
  destruct (process_pdf_facts U L pdf_path []) as (_ & Hiff & Hraise & Hok).
  destruct (extract_text U L pdf_path []) as [log' [text|e]] eqn:Hx;
    cbn [fst snd] in *.
  - left. destruct (Hok text eq_refl) as (r & Hr & Hnone & Hp & Hdom).
    rewrite Hp. unfold read_record. rewrite Hx. exists text, r.
    split_and!; [done|done|done| |done].
    apply not_elem_of_dom. rewrite Hdom. by_computation.
  - right.
    assert ((process_pdf U L pdf_path []).2 = Raise e) as Hp by (by apply Hiff).
    rewrite Hp. rewrite (Hraise e Hp).
    destruct (error_record_lookups pdf_path) as (H1 & H2 & H3 & H4).
    unfold failed_record. rewrite Hx. split_and!; try assumption.
    + by rewrite <- (Hraise e Hp).
    + apply error_record_dom.
Qed.

Lemma records_of_a_run (U : UCD) (L : Libs) (pdfs : list (list N)) :
  Forall2 (λ pdf_path rec,
             read_record U L pdf_path rec ∨ failed_record U L pdf_path rec)
    pdfs (collect_results U L pdfs).2
  ∧ (collect_results U L pdfs).1
    = concat ((λ pdf_path, (extract_text U L pdf_path []).1) <$> pdfs).
Proof.
  induction pdfs as [|pdf_path pdfs [IHrec IHlog]]; [by split|].
  rewrite collect_results_cons. cbn [fst snd]. split.
  - constructor; [apply record_of_document | done].
  - destruct (process_pdf_facts U L pdf_path []) as (-> & _).
    rewrite IHlog. done.
Qed.

(** X12. The batch driver never fails and returns one record per
    document, in the order of the paths. The record of a document is
    that of [process_pdf], with the path under "source_file" and no
    "error", when its text was extracted; otherwise it is the error
    record: the bank and the five fields absent, the path, and under
    "error" the message of the extraction failure, the only error there
    can be. The log is that of the text extractions, in order. *)
Theorem one_record_per_document (U : UCD) (L : Libs) (pdfs : list (list N)) :
  Forall2 (λ pdf_path rec,
             read_record U L pdf_path rec ∨ failed_record U L pdf_path rec)
    pdfs (collect_results U L pdfs).2
  ∧ (collect_results U L pdfs).1
    = concat ((λ pdf_path, (extract_text U L pdf_path []).1) <$> pdfs).
Proof. apply records_of_a_run. Qed.

(** ** The CSV export *)

Lemma str_leb_total (a b : list N) : str_leb a b = true ∨ str_leb b a = true.
Proof.
  revert b. induction a as [|x a IH]; intros [|y b]; simpl; auto.
  destruct (N.ltb_spec x y); [by left|]. destruct (N.ltb_spec y x); [by right|].
  assert (x = y) as -> by lia. rewrite N.eqb_refl. simpl. apply IH.
Qed.

Lemma str_leb_trans (a b c : list N) :
  str_leb a b = true → str_leb b c = true → str_leb a c = true.
Proof.
  revert b c. induction a as [|x a IH]; intros [|y b] [|z c]; simpl; try done.
  destruct (N.ltb_spec x y), (N.ltb_spec y z), (N.ltb_spec x z); simpl; try done;
    try lia;
    destruct (N.eqb_spec x y), (N.eqb_spec y z), (N.eqb_spec x z); simpl; try done;
    try lia.
  apply IH.
Qed.

#[export] Instance key_le_total : Total key_le.
Proof. intros k1 k2. apply str_leb_total. Qed.

#[export] Instance key_le_trans : Transitive key_le.
Proof. intros k1 k2 k3. apply str_leb_trans. Qed.

Lemma sorted_spec (keys : gset string) :
  StronglySorted key_le (sorted keys) ∧ NoDup (sorted keys)
  ∧ ∀ k, k ∈ sorted keys ↔ k ∈ keys.
Proof.
  unfold sorted. split_and!.
  - apply StronglySorted_merge_sort; apply _.
  - rewrite merge_sort_Permutation. apply NoDup_elements.
  - intros k. rewrite merge_sort_Permutation. apply elem_of_elements.
Qed.

Lemma dict_to_list_ok (fieldnames : list string)
    (rowdict : gmap string (option (list N))) :
  dom rowdict ⊆ list_to_set fieldnames →
  dict_to_list fieldnames rowdict
  = Ok ((λ key, default (Some []) (rowdict !! key)) <$> fieldnames).
Proof. intros Hsub. unfold dict_to_list. by rewrite bool_decide_eq_true_2. Qed.

Lemma rows_ok (fieldnames : list string)
    (results : list (gmap string (option (list N)))) :
  Forall (λ row, dom row ⊆ list_to_set fieldnames) results →
  collect (dict_to_list fieldnames <$> results)
  = Ok ((λ row, (λ key, default (Some []) (row !! key)) <$> fieldnames) <$> results).
Proof.
  induction 1 as [|row results Hrow _ IH]; [done|].
  rewrite !fmap_cons.
  change (collect (dict_to_list fieldnames row :: (dict_to_list fieldnames <$> results)))
    with (a ← dict_to_list fieldnames row;
          l ← collect (dict_to_list fieldnames <$> results); mret (a :: l)).
  by rewrite dict_to_list_ok, bind_Ok, IH by done.
Qed.

Lemma dom_in_union (results : list (gmap string (option (list N)))) :
  Forall (λ row, dom row ⊆ list_to_set (sorted (⋃ (dom <$> results)))) results.
Proof.
  apply Forall_forall. intros row Hrow k Hk.
  apply elem_of_list_to_set. apply sorted_spec.
  apply elem_of_union_list. exists (dom row). split; [|done].
  apply list_elem_of_fmap. by exists row.
Qed.

Lemma save_csv_table (results : list (gmap string (option (list N)))) :
  (results = [] → save_csv results = Ok (CsvText []))
  ∧ (results ≠ [] →
     save_csv results
     = Ok (CsvTable (sorted (⋃ (dom <$> results)))
             ((λ row, (λ key, default (Some []) (row !! key))
                        <$> sorted (⋃ (dom <$> results))) <$> results))
     ∧ StronglySorted key_le (sorted (⋃ (dom <$> results)))
     ∧ NoDup (sorted (⋃ (dom <$> results)))
     ∧ ∀ k, k ∈ sorted (⋃ (dom <$> results))
            ↔ ∃ row, row ∈ results ∧ is_Some (row !! k)).
Proof.
  split; [by intros ->|]. intros Hne.
  destruct (sorted_spec (⋃ (dom <$> results))) as (Hsorted & Hnodup & Hin).
  split_and!; [|done|done|].
  - destruct results as [|row results]; [done|]. unfold save_csv. cbv zeta.
    by rewrite (rows_ok _ _ (dom_in_union (row :: results))).
  - intros k. rewrite Hin, elem_of_union_list. split.
    + intros (X & (row & -> & Hrow)%list_elem_of_fmap & Hk).
      exists row. split; [done|]. by apply elem_of_dom.
    + intros (row & Hrow & Hk). exists (dom row). split.
      * apply list_elem_of_fmap. by exists row.
      * by apply elem_of_dom.
Qed.

(** X13. [save_csv] never fails. For no result it writes an empty text.
    Otherwise the header is the sorted union of the keys of all records,
    each key once, and every record gives one row with one cell per
    column: the value of the record under the column's key, or an empty
    cell for a key the record does not have. *)
Theorem csv_has_the_union_of_keys (results : list (gmap string (option (list N)))) :
  (results = [] → save_csv results = Ok (CsvText []))
  ∧ (results ≠ [] →
     save_csv results
     = Ok (CsvTable (sorted (⋃ (dom <$> results)))
             ((λ row, (λ key, default (Some []) (row !! key))
                        <$> sorted (⋃ (dom <$> results))) <$> results))
     ∧ StronglySorted key_le (sorted (⋃ (dom <$> results)))
     ∧ NoDup (sorted (⋃ (dom <$> results)))
     ∧ ∀ k, k ∈ sorted (⋃ (dom <$> results))
            ↔ ∃ row, row ∈ results ∧ is_Some (row !! k)).
Proof. apply save_csv_table. Qed.

Lemma X13_witness :
  save_csv [{["bank" := None]}; {["error" := Some (lit "x")]}]
  = Ok (CsvTable ["bank"; "error"] [[None; Some []]; [Some []; Some (lit "x")]]).
Proof.
  destruct (csv_has_the_union_of_keys
              [{["bank" := None]}; {["error" := Some (lit "x")]}]) as [_ Htable].
  destruct Htable as (-> & _); [done|]. vm_compute. reflexivity.
Defined.

(** The columns of a run without failure, and of a run with one. *)
Definition plain_header : list string :=
  ["bank"; "last4"; "minimum_payment"; "payment_due_date"; "source_file";
   "statement_closing_date"; "total_balance"].

Definition error_header : list string :=
  ["bank"; "error"; "last4"; "minimum_payment"; "payment_due_date"; "source_file";
   "statement_closing_date"; "total_balance"].

Lemma sorted_plain :
  sorted (list_to_set ("source_file" :: essential_keys)) = plain_header.
Proof. vm_compute. reflexivity. Qed.

Lemma sorted_error :
  sorted (list_to_set ("error" :: "source_file" :: essential_keys)) = error_header.
Proof. vm_compute. reflexivity. Qed.

Lemma keys_of_a_run (U : UCD) (L : Libs) (pdfs : list (list N)) :
  ⋃ (dom <$> (collect_results U L pdfs).2)
  = match pdfs with
    | [] => ∅
    | _ :: _ =>
      if existsb (λ pdf_path, raised (extract_text U L pdf_path []).2) pdfs
      then list_to_set ("error" :: "source_file" :: essential_keys)
      else (list_to_set ("source_file" :: essential_keys) : gset string)
    end.
Proof.
  induction pdfs as [|pdf_path pdfs IH]; [done|].
  rewrite collect_results_cons. cbn [fst snd]. rewrite fmap_cons, union_list_cons, IH.
  set (failed := λ pdf_path, raised (extract_text U L pdf_path []).2).
  change (existsb failed (pdf_path :: pdfs))
    with (raised (extract_text U L pdf_path []).2 || existsb failed pdfs).
  assert (list_to_set ("error" :: "source_file" :: essential_keys)
          = ({["error"]} ∪ list_to_set ("source_file" :: essential_keys) : gset string))
    as -> by done.
  destruct (record_of_document U L pdf_path) as [Hread|Hfail].
  - destruct Hread as (text & r & Hx & _ & _ & _ & ->). rewrite Hx. cbn [raised orb].
    destruct pdfs as [|p pdfs]; [by rewrite (right_id_L ∅ (∪))|].
    destruct (existsb failed (p :: pdfs)); set_solver.
  - destruct Hfail as (Hx & _ & _ & _ & _ & ->). rewrite Hx. cbn [raised orb].
    assert (list_to_set ("error" :: "source_file" :: essential_keys)
            = ({["error"]} ∪ list_to_set ("source_file" :: essential_keys) : gset string))
      as -> by done.
    destruct pdfs as [|p pdfs]; [by rewrite (right_id_L ∅ (∪))|].
    destruct (existsb failed (p :: pdfs)); set_solver.
Qed.

(** X14. The CSV file of a run over at least one document has a row per
    document and the seven columns bank, last4, minimum_payment,
    payment_due_date, source_file, statement_closing_date,
    total_balance, in this order; the column error comes second, for
    all rows, exactly when the text of some document could not be
    extracted. *)
Theorem csv_columns_of_a_run (U : UCD) (L : Libs) (pdfs : list (list N)) :
  pdfs ≠ [] →
  ∃ rows,
    save_csv (collect_results U L pdfs).2
    = Ok (CsvTable
            (if existsb (λ pdf_path, raised (extract_text U L pdf_path []).2) pdfs
             then error_header else plain_header)
            rows)
    ∧ length rows = length pdfs.
Proof.
  intros Hne.
  destruct (records_of_a_run U L pdfs) as [Hrec _].
  apply Forall2_length in Hrec.
  destruct (save_csv_table (collect_results U L pdfs).2)
    as [_ Htable].
  destruct Htable as (Hcsv & _).
  { intros Hnil. rewrite Hnil in Hrec. by destruct pdfs. }
  rewrite Hcsv, keys_of_a_run. destruct pdfs as [|p pdfs]; [done|].
  destruct (existsb _ (p :: pdfs)); rewrite ?sorted_plain, ?sorted_error;
    (eexists; split; [done|]); by rewrite length_fmap.
Qed.

Lemma X14_witness :
  ∃ rows,
    save_csv (collect_results basic_ucd scanned_libs [lit "scan.pdf"]).2
    = Ok (CsvTable error_header rows)
    ∧ length rows = 1.
Proof.
  destruct (csv_columns_of_a_run basic_ucd scanned_libs [lit "scan.pdf"])
    as (rows & Hcsv & Hlen); [done|].
  exists rows. split; [|exact Hlen]. rewrite Hcsv. do 2 f_equal.
Defined.

(** ** The closing date of a range *)

(** X15. After the first occurrence of the label "Opening/Closing Date",
    for two runs [X] and [Y] of letters, digits, slashes and hyphens
    with an en dash or a hyphen between them and any whitespace around
    it, the bank-1 routine returns [Y] as [statement_closing_date] when
    the dash is an en dash or has whitespace before it; with a hyphen
    right after [X], it does so when [Y] has no hyphen and no dash comes
    next after [Y]. *)
Theorem closing_date_is_the_second_endpoint (U : UCD)
    (pre ws0 ws1 X ws2 : list N) (sep : N) (ws3 Y post : list N) :
  UCD_ok U →
  Forall (λ c, c ∈ blank_chars) ws0 → Forall (λ c, c ∈ blank_chars) ws1 →
  Forall (λ c, c ∈ date_chars) X → X ≠ [] →
  Forall (λ c, c ∈ blank_chars) ws2 → sep ∈ lit "–-" →
  Forall (λ c, c ∈ blank_chars) ws3 →
  Forall (λ c, c ∈ date_chars) Y → Y ≠ [] →
  ends_date post →
  (tight ws2 sep → (chr "-" ∉ Y) ∧ no_dash_ahead post) →
  m_start <$> re_search U IC (word "Opening/Closing")
                (range_text pre ws0 ws1 X ws2 sep ws3 Y post)
  = Some (length pre) →
  ∃ rec,
    parse_bank_1 U (range_text pre ws0 ws1 X ws2 sep ws3 Y post) = Ok rec
    ∧ rec !! "statement_closing_date" = Some (Some Y).
Proof. intros HU. by apply (closing_date_of_range U HU). Qed.

Lemma X15_witness :
  ∃ rec,
    parse_bank_1 basic_ucd
      (lit "Account summary. Opening/Closing Date 01/02/2024-01/31/2024 (30 days)")
    = Ok rec
    ∧ rec !! "statement_closing_date" = Some (Some (lit "01/31/2024")).
Proof.
  apply (closing_date_is_the_second_endpoint basic_ucd
           (lit "Account summary. ") [chr " "] [chr " "] (lit "01/02/2024") []
           (chr "-") [] (lit "01/31/2024") (lit " (30 days)"));
    try done; try apply basic_ucd_ok; try (by vm_compute; repeat constructor).
  - split; [done|]. by_computation.
  - intros _. split; [by_computation|].
    exists [chr " "], (lit "(30 days)"). split_and!; [done| |].
    + by vm_compute; repeat constructor.
    + split_and!; [done| |]; by_computation.
Defined.
